(** * c_hashtable: a chained hash table keyed by C strings

    A shallow embedding of [src/hashtable.c] (with [include/hashtable.h]
    and [include/errorcode.h]) and the properties of its specification.

    Platform assumptions, fixed once for the whole development:
    - [uint32_t] is 32 bits, [size_t] is 64 bits (LP64), [int] is 32 bits;
    - [float] is IEEE-754 binary32 and [double] is binary64, both rounding
      to nearest, ties to even, and expressions are evaluated in the
      precision of their type;
    - [malloc] and [calloc] succeed;
    - keys are shorter than [INT_MAX] bytes, so the conversion of
      [strlen (p_key)] to the [int] parameter of [murmurhash] is the
      identity;
    - the byte order of the [uint32_t] load in [murmurhash] is a parameter
      ([byte_order]), and the load may be made at any address.

    A [char *] key is modelled by the [string] of the bytes stored at the
    address: the C string it denotes ends at the first NUL byte, or at the
    end of the [string] (where the terminating NUL sits).  A [void *]
    value is an address in [Z], with [NULL = 0].  A bucket chain (a
    [node_t *] linked through [p_next]) is the [list] of its nodes, head
    first, and [NULL] is the empty list. *)

From Stdlib Require Import ZArith Lia List String Ascii Bool.
From Stdlib Require Import Floats.SpecFloat.
From stdpp Require Import base list.
Import ListNotations.

Local Open Scope Z_scope.

(** ** Machine integers *)

Definition uint32_t (z : Z) : Z := z mod 2 ^ 32.
Definition size_t (z : Z) : Z := z mod 2 ^ 64.

Definition NULL : Z := 0.

(** ** C strings *)

Definition byte_of (c : ascii) : Z := Z.of_N (N_of_ascii c).

(** The byte at the address of the string; past its end, the terminator. *)
Definition deref (s : string) : Z :=
  match s with
  | EmptyString => 0
  | String c _ => byte_of c
  end.

Definition advance (s : string) : string :=
  match s with
  | EmptyString => EmptyString
  | String _ r => r
  end.

Fixpoint strlen (s : string) : nat :=
  match s with
  | EmptyString => O
  | String c r => if byte_of c =? 0 then O else S (strlen r)
  end.

(** [strcmp] and [strncmp] return the difference of the first pair of
    bytes that differ (as [unsigned char]); the callers only test the
    result against zero. *)
Fixpoint strcmp (s1 s2 : string) : Z :=
  match s1 with
  | EmptyString => 0 - deref s2
  | String c1 r1 =>
      if byte_of c1 =? deref s2
      then if byte_of c1 =? 0 then 0 else strcmp r1 (advance s2)
      else byte_of c1 - deref s2
  end.

Fixpoint strncmp (s1 s2 : string) (n : nat) : Z :=
  match n with
  | O => 0
  | S n' =>
      if deref s1 =? deref s2
      then if deref s1 =? 0 then 0 else strncmp (advance s1) (advance s2) n'
      else deref s1 - deref s2
  end.

(** The memory bytes behind a [char *], for the hash function. *)
Fixpoint bytes_of (s : string) : list Z :=
  match s with
  | EmptyString => []
  | String c r => byte_of c :: bytes_of r
  end.

(** The C string a buffer denotes: its bytes up to the first NUL. *)
Fixpoint cstr (s : string) : string :=
  match s with
  | EmptyString => EmptyString
  | String c r => if byte_of c =? 0 then EmptyString else String c (cstr r)
  end.

(** ** Results of operations that may leave the defined behaviour of C *)

Inductive result (A : Type) : Type :=
| Done (a : A)
| Undefined      (* undefined behaviour: NULL dereference, read out of bounds *)
| OutOfFuel.     (* the model's recursion bound was reached *)

Arguments Done {A} a.
Arguments Undefined {A}.
Arguments OutOfFuel {A}.

Definition bind {A B : Type} (r : result A) (k : A -> result B) : result B :=
  match r with
  | Done a => k a
  | Undefined => Undefined
  | OutOfFuel => OutOfFuel
  end.

Notation "'do' x <- r ; k" := (bind r (fun x => k))
  (at level 10, x pattern, r at level 100, k at level 200).

(** ** The hash function: MurmurHash3 (x86, 32 bits) *)

Inductive endianness : Set := LittleEndian | BigEndian.

Definition const1 : Z := 0xcc9e2d51.
Definition const2 : Z := 0x1b873593.
Definition shift1 : Z := 15.
Definition shift2 : Z := 13.
Definition multiplier : Z := 5.
Definition adder : Z := 0xe6546b64.

(** [(x << r) | (x >> (32 - r))] on [uint32_t]. *)
Definition rotl (x r : Z) : Z :=
  Z.lor (uint32_t (Z.shiftl x r)) (Z.shiftr x (32 - r)).

Section Platform.

Variable byte_order : endianness.

(** The [uint32_t] read from four consecutive bytes. *)
Definition load_uint32 (b0 b1 b2 b3 : Z) : Z :=
  match byte_order with
  | LittleEndian =>
      Z.lor (Z.lor b0 (Z.shiftl b1 8)) (Z.lor (Z.shiftl b2 16) (Z.shiftl b3 24))
  | BigEndian =>
      Z.lor (Z.lor b3 (Z.shiftl b2 8)) (Z.lor (Z.shiftl b1 16) (Z.shiftl b0 24))
  end.

(** One iteration of the chunk loop, for [chunks_ptr[index]] already
    read into [key_chunk]. *)
Definition chunk_step (hash key_chunk : Z) : Z :=
  let key_chunk := uint32_t (key_chunk * const1) in
  let key_chunk := rotl key_chunk shift1 in
  let key_chunk := uint32_t (key_chunk * const2) in
  let hash := Z.lxor hash key_chunk in
  let hash := rotl hash shift2 in
  uint32_t (hash * multiplier + adder).

(** [murmurhash (key_ptr, length, seed)]; [key_ptr] is the memory at the
    pointer.  The function reads the [chunk_len * 4] bytes of the chunks
    and the [length & 3] bytes of the tail: when the memory is shorter the
    read is out of bounds.  With a negative [chunk_len] (a [length] of -4
    or below) the loop index starts above 0 and is incremented away from
    it, the reads leaving the memory. *)
Definition murmurhash (key_ptr : list Z) (length : Z) (seed : Z) : result Z :=
  let data (i : Z) := nth (Z.to_nat i) key_ptr 0 in
  let chunk_len := Z.quot length 4 in
  if chunk_len <? 0 then Undefined else
  if Z.of_nat (List.length key_ptr) <? chunk_len * 4 + Z.land length 3
  then Undefined else
  let hash := seed in
  (* chunks_ptr = tail_ptr = data + chunk_len * 4 *)
  let chunks_ptr (index : Z) :=
    let at_byte := chunk_len * 4 + index * 4 in
    load_uint32 (data at_byte) (data (at_byte + 1))
                (data (at_byte + 2)) (data (at_byte + 3)) in
  let tail_ptr (i : Z) := data (chunk_len * 4 + i) in
  (* for (index = -chunk_len; index != 0; ++index) *)
  let hash :=
    fold_left (fun hash index => chunk_step hash (chunks_ptr index))
              (map (fun i => Z.of_nat i - chunk_len)
                   (seq 0 (Z.to_nat chunk_len)))
              hash in
  let key_chunk := 0 in
  let rem := Z.land length 3 in
  (* switch (length & 3), the cases falling through *)
  let key_chunk :=
    if rem =? 3 then Z.lxor key_chunk (Z.shiftl (tail_ptr 2) 16)
    else key_chunk in
  let key_chunk :=
    if (rem =? 3) || (rem =? 2) then Z.lxor key_chunk (Z.shiftl (tail_ptr 1) 8)
    else key_chunk in
  let hash :=
    if (rem =? 3) || (rem =? 2) || (rem =? 1) then
      let key_chunk := Z.lxor key_chunk (tail_ptr 0) in
      let key_chunk := uint32_t (key_chunk * const1) in
      let key_chunk := rotl key_chunk shift1 in
      let key_chunk := uint32_t (key_chunk * const2) in
      Z.lxor hash key_chunk
    else hash in
  let hash := Z.lxor hash (uint32_t length) in
  let hash := Z.lxor hash (Z.shiftr hash 16) in
  let hash := uint32_t (hash * 0x85ebca6b) in
  let hash := Z.lxor hash (Z.shiftr hash 13) in
  let hash := uint32_t (hash * 0xc2b2ae35) in
  let hash := Z.lxor hash (Z.shiftr hash 16) in
  Done hash.

(** [hash_str (p_key)]: [strlen] dereferences the key, so a NULL key
    ([None]) is undefined behaviour. *)
Definition hash_str (p_key : option string) : result Z :=
  match p_key with
  | None => Undefined
  | Some key => murmurhash (bytes_of key) (Z.of_nat (strlen key)) 0
  end.

(** *** The algorithm as the specification words it

    Written in arithmetic on the natural numbers below 2^32, without the
    bit operations and the helpers of the code. *)

(** Rotate a 32-bit word left by [r] bits: the word is shifted up, and
    the bits pushed out at the top come back at the bottom. *)
Definition spec_rotl (x r : Z) : Z :=
  (x * 2 ^ r) mod 2 ^ 32 + x / 2 ^ (32 - r).

(** The four bytes of a chunk, in memory order, read as one 32-bit word. *)
Definition spec_word (b0 b1 b2 b3 : Z) : Z :=
  match byte_order with
  | LittleEndian => b0 + 2 ^ 8 * b1 + 2 ^ 16 * b2 + 2 ^ 24 * b3
  | BigEndian => b3 + 2 ^ 8 * b2 + 2 ^ 16 * b1 + 2 ^ 24 * b0
  end.

(** Multiply by C1, rotate left 15, multiply by C2. *)
Definition spec_scramble (k : Z) : Z :=
  (spec_rotl ((k * 0xcc9e2d51) mod 2 ^ 32) 15 * 0x1b873593) mod 2 ^ 32.

(** A full chunk: scramble, XOR into the hash, rotate left 13, multiply
    by 5, add 0xe6546b64. *)
Definition spec_chunk (h k : Z) : Z :=
  (spec_rotl (Z.lxor h (spec_scramble k)) 13 * 5 + 0xe6546b64) mod 2 ^ 32.

(** The chunks in order; returns the hash and the 0 to 3 trailing bytes. *)
Fixpoint spec_chunks (bytes : list Z) (h : Z) : Z * list Z :=
  match bytes with
  | b0 :: b1 :: b2 :: b3 :: rest =>
      spec_chunks rest (spec_chunk h (spec_word b0 b1 b2 b3))
  | tail => (h, tail)
  end.

(** The trailing bytes as one word, the last byte the most significant. *)
Definition spec_tail_word (tail : list Z) : Z :=
  match tail with
  | [b0] => b0
  | [b0; b1] => 2 ^ 8 * b1 + b0
  | [b0; b1; b2] => 2 ^ 16 * b2 + 2 ^ 8 * b1 + b0
  | _ => 0
  end.

(** The avalanche mix. *)
Definition spec_fmix (h : Z) : Z :=
  let h := Z.lxor h (h / 2 ^ 16) in
  let h := (h * 0x85ebca6b) mod 2 ^ 32 in
  let h := Z.lxor h (h / 2 ^ 13) in
  let h := (h * 0xc2b2ae35) mod 2 ^ 32 in
  Z.lxor h (h / 2 ^ 16).

(** The hash after the chunks and the trailing bytes: the trailing bytes,
    when there are any, are scrambled and XORed in, without the closing
    step of a chunk. *)
Definition spec_absorb (bytes : list Z) (seed : Z) : Z :=
  let '(h, tail) := spec_chunks bytes seed in
  match tail with
  | [] => h
  | _ :: _ => Z.lxor h (spec_scramble (spec_tail_word tail))
  end.

(** XOR with the length, then the avalanche. *)
Definition spec_hash (bytes : list Z) (seed : Z) : Z :=
  spec_fmix (Z.lxor (spec_absorb bytes seed) (Z.of_nat (List.length bytes))).

(** A byte, a 32-bit word. *)
Definition is_byte (b : Z) : Prop := 0 <= b < 2 ^ 8.
Definition is_word (w : Z) : Prop := 0 <= w < 2 ^ 32.


(** ** The load factor test of [ht_insert]

    [float load_factor = (float) size / capacity; if (load_factor > 0.8)]:
    both operands are converted to binary32, the quotient is rounded to
    binary32, and the comparison is made in binary64 against the [double]
    nearest to 0.8. *)

Definition float_of_size_t (n : Z) : spec_float :=
  binary_normalize 24 128 n 0 false.

Definition float_div (x y : spec_float) : spec_float := SFdiv 24 128 x y.

(** The conversion of a [float] to [double] is exact. *)
Definition double_of_float (x : spec_float) : spec_float :=
  match x with
  | S754_finite s m e => binary_normalize 53 1024 (cond_Zopp s (Zpos m)) e false
  | _ => x
  end.

(** The literal [0.8]: 0x3FE999999999999A. *)
Definition double_0_8 : spec_float :=
  S754_finite false 7205759403792794 (-53).

Definition double_gt (x y : spec_float) : bool :=
  match SFcompare x y with
  | Some Gt => true
  | _ => false
  end.

Definition load_factor (size capacity : Z) : spec_float :=
  float_div (float_of_size_t size) (float_of_size_t capacity).

Definition load_factor_gt_0_8 (size capacity : Z) : bool :=
  double_gt (double_of_float (load_factor size capacity)) double_0_8.

(** ** The table: [errorcode.h], [hashtable.h] *)

Inductive error_t : Set :=
| E_SUCCESS
| E_GENERAL
| E_NULL_PTR
| E_HASHTABLE_NOT_FOUND
| E_HASHTABLE_CREATE
| E_HASHTABLE_INSERT
| E_HASHTABLE_DELETE
| E_HASHTABLE_DESTROY
| E_NODE_NOT_FOUND.

Definition error_t_eqb (a b : error_t) : bool :=
  match a, b with
  | E_SUCCESS, E_SUCCESS | E_GENERAL, E_GENERAL | E_NULL_PTR, E_NULL_PTR
  | E_HASHTABLE_NOT_FOUND, E_HASHTABLE_NOT_FOUND
  | E_HASHTABLE_CREATE, E_HASHTABLE_CREATE
  | E_HASHTABLE_INSERT, E_HASHTABLE_INSERT
  | E_HASHTABLE_DELETE, E_HASHTABLE_DELETE
  | E_HASHTABLE_DESTROY, E_HASHTABLE_DESTROY
  | E_NODE_NOT_FOUND, E_NODE_NOT_FOUND => true
  | _, _ => false
  end.

(** A node without its [p_next] link: the link is the rest of the chain. *)
Record node_t : Set := { p_key : string; p_value : Z }.

Record ht_t : Set := {
  pp_items : list (list node_t);
  capacity : Z;
  size : Z;
  prime_index : Z
}.

Definition g_primes : list Z :=
  [ 53;        97;        193;      389;       769;       1543;
    3079;      6151;      12289;    24593;     49157;     98317;
    196613;    393241;    786433;   1572869;   3145739;   6291469;
    12582917;  25165843;  50331653; 100663319; 201326611; 402653189;
    805306457; 1610612741 ].

(** An array read [a[i]]; outside the array it is undefined. *)
Definition array_get {A : Type} (a : list A) (i : Z) : result A :=
  if i <? 0 then Undefined
  else match a !! Z.to_nat i with
       | Some x => Done x
       | None => Undefined
       end.

Definition node_create (p_key : string) (p_value : Z) : node_t :=
  {| p_key := p_key; p_value := p_value |}.

(** [ht_create (prime_index)]; the [int] argument is stored in a
    [uint32_t] field, which then indexes [g_primes]. *)
Definition ht_create (prime_index : Z) : result (option ht_t) :=
  let prime_index := uint32_t prime_index in
  do capacity <- array_get g_primes prime_index;
  Done (Some {| pp_items := replicate (Z.to_nat capacity) [];
                capacity := capacity;
                size := 0;
                prime_index := prime_index |}).

(** [ht_destroy (p_ht)] walks the [capacity] buckets and frees every
    node, the bucket array and the table. *)
Definition ht_destroy (p_ht : option ht_t) : result error_t :=
  match p_ht with
  | None => Done E_NULL_PTR
  | Some ht =>
      do _ <- fold_left
                (fun acc cap_idx =>
                   do _ <- acc;
                   do _ <- array_get (pp_items ht) (Z.of_nat cap_idx);
                   Done tt)
                (seq 0 (Z.to_nat (capacity ht))) (Done tt);
      Done E_SUCCESS
  end.

(** The chain walk of [ht_search]: the value of the first node whose key
    is [strcmp]-equal to [key], or [NULL]. *)
Fixpoint search_chain (key : string) (node : list node_t) : Z :=
  match node with
  | [] => NULL
  | n :: p_next =>
      if strcmp key n.(p_key) =? 0 then n.(p_value)
      else search_chain key p_next
  end.

(** The chain walk of [ht_delete]: unlinks the first node whose key agrees
    with [key] under [strncmp] over [strlen (key)] bytes; [None] when the
    walk reaches the end of the chain. *)
Fixpoint delete_chain (key : string) (node : list node_t)
  : option (list node_t) :=
  match node with
  | [] => None
  | n :: p_next =>
      if strncmp key n.(p_key) (strlen key) =? 0 then Some p_next
      else match delete_chain key p_next with
           | Some rest => Some (n :: rest)
           | None => None
           end
  end.

(** What an insert leaves behind: the return value, the table the
    caller's handle [*pp_ht] points to afterwards ([None] when there is no
    handle or it is NULL), and the tables destroyed on the way, oldest
    first. *)
Definition insert_result : Set := error_t * option ht_t * list ht_t.

Section Rehash.

(** The recursive call [ht_insert (&p_new_ht, key, value)]. *)
Variable insert : option ht_t -> string -> Z -> result insert_result.

(** [while (p_node != NULL)] of the resize: re-inserts the chain from
    its head; [Some retval] is the [goto EXIT] on a failed insert. *)
Fixpoint rehash_chain (p_node : list node_t) (p_new_ht : option ht_t)
         (log : list ht_t)
  : result (option error_t * option ht_t * list ht_t) :=
  match p_node with
  | [] => Done (None, p_new_ht, log)
  | n :: p_next =>
      do r <- insert p_new_ht n.(p_key) n.(p_value);
      let '(retval, p_new_ht, destroyed) := r in
      if error_t_eqb retval E_SUCCESS
      then rehash_chain p_next p_new_ht (log ++ destroyed)
      else Done (Some retval, p_new_ht, log ++ destroyed)
  end.

(** [for (cap_idx = 0; cap_idx < capacity; cap_idx++)] of the resize. *)
Fixpoint rehash_buckets (ht : ht_t) (cap_idxs : list nat)
         (p_new_ht : option ht_t) (log : list ht_t)
  : result (option error_t * option ht_t * list ht_t) :=
  match cap_idxs with
  | [] => Done (None, p_new_ht, log)
  | cap_idx :: rest =>
      do p_node <- array_get (pp_items ht) (Z.of_nat cap_idx);
      do r <- rehash_chain p_node p_new_ht log;
      let '(exit, p_new_ht, log) := r in
      match exit with
      | Some _ => Done r
      | None => rehash_buckets ht rest p_new_ht log
      end
  end.

End Rehash.

(** [ht_insert (pp_ht, p_key, p_value)].  [pp_ht] is [None] for a NULL
    handle address and [Some None] for a handle that holds NULL.  The
    recursion of the resize is bounded by [fuel]. *)
Fixpoint ht_insert_rec (fuel : nat) (pp_ht : option (option ht_t))
         (p_key : option string) (p_value : Z) {struct fuel}
  : result insert_result :=
  match pp_ht with
  | None => Done (E_NULL_PTR, None, [])
  | Some None => Done (E_NULL_PTR, None, [])
  | Some (Some ht) =>
      (* node_create does not read the key; hash_str does *)
      do hash <- hash_str p_key;
      match p_key with
      | None => Undefined
      | Some key =>
          let p_new_node := node_create key p_value in
          if capacity ht =? 0 then Undefined else
          let index := hash mod capacity ht in
          do head <- array_get (pp_items ht) index;
          let size' :=
            match head with
            | [] => size_t (size ht + 1)
            | _ :: _ => size ht
            end in
          let ht :=
            {| pp_items := <[Z.to_nat index := p_new_node :: head]> (pp_items ht);
               capacity := capacity ht;
               size := size';
               prime_index := prime_index ht |} in
          if load_factor_gt_0_8 (size ht) (capacity ht) then
            match fuel with
            | O => OutOfFuel
            | S fuel =>
                do p_new_ht <- ht_create (prime_index ht + 1);
                do r <- rehash_buckets
                          (fun p k v => ht_insert_rec fuel (Some p) (Some k) v)
                          ht (seq 0 (Z.to_nat (capacity ht))) p_new_ht [];
                let '(exit, p_new_ht, log) := r in
                match exit with
                | Some retval => Done (retval, Some ht, log)
                | None =>
                    do retval <- ht_destroy (Some ht);
                    if error_t_eqb retval E_SUCCESS
                    then Done (E_SUCCESS, p_new_ht, log ++ [ht])
                    else Done (retval, Some ht, log)
                end
            end
          else Done (E_SUCCESS, Some ht, [])
      end
  end.

(** One resize per entry of [g_primes] at most: 26 levels suffice. *)
Definition ht_insert (pp_ht : option (option ht_t)) (p_key : option string)
           (p_value : Z) : result insert_result :=
  ht_insert_rec (List.length g_primes) pp_ht p_key p_value.

(** [ht_delete (p_ht, p_key)]: the return value and the table after. *)
Definition ht_delete (p_ht : option ht_t) (p_key : option string)
  : result (error_t * option ht_t) :=
  match p_ht with
  | None => Done (E_NULL_PTR, None)
  | Some ht =>
      match p_key with
      | None => Done (E_NULL_PTR, Some ht)
      | Some key =>
          do hash <- hash_str (Some key);
          if capacity ht =? 0 then Undefined else
          let index := hash mod capacity ht in
          do head <- array_get (pp_items ht) index;
          match delete_chain key head with
          | Some chain =>
              Done (E_SUCCESS,
                    Some {| pp_items := <[Z.to_nat index := chain]> (pp_items ht);
                            capacity := capacity ht;
                            size := size_t (size ht - 1);
                            prime_index := prime_index ht |})
          | None => Done (E_NODE_NOT_FOUND, Some ht)
          end
      end
  end.

(** [ht_search (p_ht, p_key)]: the value found, or [NULL]. *)
Definition ht_search (p_ht : option ht_t) (p_key : option string)
  : result Z :=
  match p_ht with
  | None => Done NULL
  | Some ht =>
      do hash <- hash_str p_key;
      match p_key with
      | None => Undefined
      | Some key =>
          if capacity ht =? 0 then Undefined else
          let index := hash mod capacity ht in
          do node <- array_get (pp_items ht) index;
          Done (search_chain key node)
      end
  end.

(** ** Notions used to state the properties *)

(** The prefix relation on C strings, as a boolean. *)
Fixpoint is_prefix (p s : string) : bool :=
  match p with
  | EmptyString => true
  | String c p' =>
      match s with
      | EmptyString => false
      | String d s' => Ascii.eqb c d && is_prefix p' s'
      end
  end.

(** Every entry of the table, bucket by bucket, each chain from its head. *)
Definition entries (ht : ht_t) : list node_t := concat (pp_items ht).

(** The number of buckets that hold a chain. *)
Definition is_occupied (chain : list node_t) : bool :=
  match chain with
  | [] => false
  | _ :: _ => true
  end.

Definition occupied (ht : ht_t) : nat :=
  List.length (List.filter is_occupied (pp_items ht)).

(** The hash of a key: [hash_str] where it is defined. *)
Definition hash_of (key : string) : Z :=
  match hash_str (Some key) with
  | Done hash => hash
  | _ => 0
  end.

Definition index_of (ht : ht_t) (key : string) : Z :=
  hash_of key mod capacity ht.

(** The chain at the bucket of a key. *)
Definition bucket_of (ht : ht_t) (key : string) : list node_t :=
  default [] (pp_items ht !! Z.to_nat (index_of ht key)).

(** The table after the in-place part of [ht_insert]: the new node
    linked at the head of its bucket, [size] adjusted. *)
Definition link (ht : ht_t) (key : string) (value : Z) : ht_t :=
  {| pp_items :=
       <[Z.to_nat (index_of ht key) :=
           node_create key value :: bucket_of ht key]> (pp_items ht);
     capacity := capacity ht;
     size := match bucket_of ht key with
             | [] => size_t (size ht + 1)
             | _ :: _ => size ht
             end;
     prime_index := prime_index ht |}.

(** *** Invariants, as decidable tests *)

(** Invariant A: [capacity == g_primes[prime_index]]. *)
Definition invariant_A (ht : ht_t) : bool :=
  (0 <=? prime_index ht)
  && match g_primes !! Z.to_nat (prime_index ht) with
     | Some prime => capacity ht =? prime
     | None => false
     end.

(** Invariant B: [size] is the number of occupied buckets. *)
Definition invariant_B (ht : ht_t) : bool :=
  size ht =? Z.of_nat (occupied ht).

Fixpoint chains_in_place (ht : ht_t) (from : nat) (items : list (list node_t))
  : bool :=
  match items with
  | [] => true
  | chain :: items =>
      forallb (fun n => index_of ht n.(p_key) =? Z.of_nat from) chain
      && chains_in_place ht (S from) items
  end.

(** Invariant C: every entry sits in the bucket its key hashes to. *)
Definition invariant_C (ht : ht_t) : bool :=
  chains_in_place ht 0 (pp_items ht).

(** A well-formed table: the bucket array has [capacity] slots, [size]
    is a [size_t], and invariants A and C hold. *)
Definition well_formed (ht : ht_t) : bool :=
  invariant_A ht
  && (Z.of_nat (List.length (pp_items ht)) =? capacity ht)
  && (0 <=? size ht) && (size ht <? 2 ^ 64)
  && invariant_C ht.


(** What [well_formed] means. *)
Record wf (ht : ht_t) : Prop := {
  wf_A : invariant_A ht = true;
  wf_array : Z.of_nat (List.length (pp_items ht)) = capacity ht;
  wf_size : 0 <= size ht < 2 ^ 64;
  wf_C : forall i chain n,
      pp_items ht !! i = Some chain -> n ∈ chain ->
      index_of ht n.(p_key) = Z.of_nat i
}.


(** *** Rounding, in integers

    The notions in which the binary32 arithmetic of the load factor test is
    characterised. *)

(** The position of a remainder [r] of a division by [d] against the
    half of [d]. *)
Definition loc_of (r d : Z) : location :=
  if r =? 0 then loc_Exact else loc_Inexact (2 * r ?= d).

(** The quotient [n / d] with its rounding bits. *)
Definition rec_of (n d : Z) : shr_record :=
  shr_record_of_loc (n / d) (loc_of (n mod d) d).

(** [n / d] rounded to the nearest integer, ties to even. *)
Definition rne (n d : Z) : Z :=
  let q := n / d in
  let r := n mod d in
  if 2 * r <? d then q
  else if d <? 2 * r then q + 1
  else if Z.even q then q else q + 1.

(** A positive binary32 value in normal form. *)
Definition float32 (m e : Z) : spec_float :=
  if m <? 2 ^ 24 then S754_finite false (Z.to_pos m) e
  else S754_finite false (Z.to_pos (2 ^ 23)) (e + 1).

(** The integer nearest to [n] that binary32 represents (ties to even). *)
Definition round24 (n : Z) : Z :=
  let digits := Z.log2 n + 1 in
  if digits <=? 24 then n
  else rne n (2 ^ (digits - 24)) * 2 ^ (digits - 24).

(** *** The insert as a relation

    [inserted ht key value ht' log]: on the well-formed table [ht],
    [ht_insert (&p, key, value)] succeeds, leaves the handle on [ht'] and
    destroys the tables of [log] on the way.  [rehashed] is the loop of
    the resize over the entries of the old table. *)
Inductive inserted : ht_t -> string -> Z -> ht_t -> list ht_t -> Prop :=
| inserted_in_place (ht : ht_t) (key : string) (value : Z) :
    load_factor_gt_0_8 (size (link ht key value)) (capacity ht) = false ->
    inserted ht key value (link ht key value) []
| inserted_resized (ht : ht_t) (key : string) (value : Z)
                   (p_new_ht ht' : ht_t) (log : list ht_t) :
    load_factor_gt_0_8 (size (link ht key value)) (capacity ht) = true ->
    ht_create (prime_index ht + 1) = Done (Some p_new_ht) ->
    rehashed (entries (link ht key value)) p_new_ht ht' log ->
    inserted ht key value ht' (log ++ [link ht key value])
with rehashed : list node_t -> ht_t -> ht_t -> list ht_t -> Prop :=
| rehashed_nil (p_new_ht : ht_t) : rehashed [] p_new_ht p_new_ht []
| rehashed_cons (n : node_t) (p_next : list node_t) (p_new_ht ht1 ht2 : ht_t)
                (log1 log2 : list ht_t) :
    inserted p_new_ht n.(p_key) n.(p_value) ht1 log1 ->
    rehashed p_next ht1 ht2 log2 ->
    rehashed (n :: p_next) p_new_ht ht2 (log1 ++ log2).

Scheme inserted_mut := Minimality for inserted Sort Prop
  with rehashed_mut := Minimality for rehashed Sort Prop.

Combined Scheme inserted_rehashed_ind from inserted_mut, rehashed_mut.

(** *** Sequences of operations, as a caller issues them *)

Inductive operation : Set :=
| Insert (key : string) (value : Z)
| Delete (key : string).

(** The table after the operations, whatever they return; the caller
    keeps using its handle. *)
Fixpoint run (ops : list operation) (ht : ht_t) : result ht_t :=
  match ops with
  | [] => Done ht
  | Insert key value :: ops =>
      do r <- ht_insert (Some (Some ht)) (Some key) value;
      match r with
      | (_, Some ht, _) => run ops ht
      | (_, None, _) => Undefined
      end
  | Delete key :: ops =>
      do r <- ht_delete (Some ht) (Some key);
      match r with
      | (_, Some ht) => run ops ht
      | (_, None) => Undefined
      end
  end.

(** The table a caller holds after [ht_create (rank)] and the operations. *)
Definition table_of (rank : Z) (ops : list operation) : result ht_t :=
  do p_ht <- ht_create rank;
  match p_ht with
  | Some ht => run ops ht
  | None => Undefined
  end.

(** An operation that neither inserts [key] again nor deletes it: its own
    key differs from [key] under [strcmp] (insert), or does not match
    [key] under the [strncmp] of [ht_delete] (delete). *)
Definition leaves_alone (key : string) (op : operation) : bool :=
  match op with
  | Insert k _ => negb (strcmp k key =? 0)
  | Delete k => negb (strncmp k key (strlen k) =? 0)
  end.

(** The capacity of a rank, 0 outside [g_primes]. *)
Definition prime_at (rank : Z) : Z := default 0 (g_primes !! Z.to_nat rank).

(** *** Tables of the examples *)

(** A table whose entries all sit in the bucket of [key]. *)
Definition one_chain (rank cap : Z) (key : string) (chain : list node_t)
           (sz : Z) : ht_t :=
  {| pp_items := <[Z.to_nat (hash_of key mod cap) := chain]>
                   (replicate (Z.to_nat cap) []);
     capacity := cap;
     size := sz;
     prime_index := rank |}.

(** The table of the last rank after "a" has been inserted three times and
    deleted twice: one entry, and a size that has wrapped. *)
Definition last_rank_table : ht_t :=
  one_chain 25 1610612741 "a" [node_create "a" 1] (2 ^ 64 - 1).

(** Forty-two keys that at capacity 53 fall into forty-two buckets, none
    of them the bucket of "a". *)
Definition spread_keys : list string :=
  ["b"; "c"; "d"; "e"; "g"; "h"; "i"; "j"; "l"; "m"; "n"; "o"; "p"; "r";
   "s"; "t"; "u"; "v"; "w"; "z"; "0"; "6"; "B"; "C"; "F"; "G"; "H"; "I";
   "J"; "N"; "V"; "X"; "ac"; "ad"; "ai"; "aj"; "ap"; "av"; "ba"; "bg";
   "bm"; "bp"]%string.

(** "a" inserted twice, then the forty-two keys. *)
Definition shadowed_then_resized : list operation :=
  Insert "a" 1 :: Insert "a" 3 :: map (fun k => Insert k 0) spread_keys.

(** ** Error descriptions ([errorcode.h], [errorcode.c]) *)

(** The value of an enumerator of [enum error_t]. *)
Definition error_code (e : error_t) : Z :=
  match e with
  | E_SUCCESS => 0
  | E_GENERAL => 1
  | E_NULL_PTR => 2
  | E_HASHTABLE_NOT_FOUND => 3
  | E_HASHTABLE_CREATE => 4
  | E_HASHTABLE_INSERT => 5
  | E_HASHTABLE_DELETE => 6
  | E_HASHTABLE_DESTROY => 7
  | E_NODE_NOT_FOUND => 8
  end.

(** [struct error_desc_t]. *)
Record error_desc : Set := { code : error_t; desc : string }.

(** The array [error_desc_t]. *)
Definition error_desc_t : list error_desc :=
  [ {| code := E_SUCCESS; desc := "Success, no error" |};
    {| code := E_GENERAL; desc := "General error" |};
    {| code := E_NULL_PTR; desc := "Null pointer" |};
    {| code := E_HASHTABLE_NOT_FOUND; desc := "Hashtable not found" |};
    {| code := E_HASHTABLE_CREATE; desc := "Hashtable creation error" |};
    {| code := E_HASHTABLE_INSERT; desc := "Hashtable insertion error" |};
    {| code := E_HASHTABLE_DELETE; desc := "Hashtable deletion error" |};
    {| code := E_HASHTABLE_DESTROY; desc := "Hashtable destruction error" |};
    {| code := E_NODE_NOT_FOUND; desc := "Node not found" |} ].

(** [error_desc_t[retval].desc], as the messages of [ht_insert] read it. *)
Definition error_desc_of (retval : error_t) : result string :=
  do d <- array_get error_desc_t (error_code retval);
  Done (desc d).

(** The entries of a table that match a key under the [strcmp] of
    [ht_search]. *)
Definition matching (key : string) (ht : ht_t) : list node_t :=
  List.filter (fun n => strcmp key n.(p_key) =? 0) (entries ht).
(** * Properties *)

(** ** C strings *)

Lemma byte_of_range (c : ascii) : 0 <= byte_of c < 256.
Proof.
  unfold byte_of. pose proof (N_ascii_bounded c). lia.
Qed.

Lemma byte_of_inj (c1 c2 : ascii) : byte_of c1 = byte_of c2 -> c1 = c2.
Proof.
  unfold byte_of. intros H. apply N2Z.inj in H.
  rewrite <- (ascii_N_embedding c1), <- (ascii_N_embedding c2). now rewrite H.
Qed.

Lemma cstr_idem (s : string) : cstr (cstr s) = cstr s.
Proof.
  induction s as [|c r IH]; simpl; [reflexivity|].
  destruct (byte_of c =? 0) eqn:E; simpl; [reflexivity|].
  now rewrite E, IH.
Qed.

Lemma strlen_cstr (s : string) : strlen (cstr s) = strlen s.
Proof.
  induction s as [|c r IH]; simpl; [reflexivity|].
  destruct (byte_of c =? 0) eqn:E; simpl; [reflexivity|].
  now rewrite E, IH.
Qed.

Lemma strlen_bytes_of_cstr (s : string) :
  List.length (bytes_of (cstr s)) = strlen s.
Proof.
  induction s as [|c r IH]; simpl; [reflexivity|].
  destruct (byte_of c =? 0); simpl; [reflexivity|].
  now rewrite IH.
Qed.

(** The memory behind a key starts with the bytes of its C string. *)
Lemma bytes_of_cstr_prefix (s : string) :
  exists post, bytes_of s = bytes_of (cstr s) ++ post.
Proof.
  induction s as [|c r [post IH]]; simpl.
  - now exists [].
  - destruct (byte_of c =? 0); simpl.
    + now exists (byte_of c :: bytes_of r).
    + exists post. now rewrite IH at 1.
Qed.

(** [strcmp] is zero exactly on equal C strings. *)
Lemma strcmp_0_iff (s1 s2 : string) :
  strcmp s1 s2 = 0 <-> cstr s1 = cstr s2.
Proof.
  revert s2. induction s1 as [|c1 r1 IH]; intros s2; simpl.
  - destruct s2 as [|c2 r2]; simpl; [easy|].
    pose proof (byte_of_range c2).
    destruct (Z.eqb_spec (byte_of c2) 0); split; intros; try easy; lia.
  - destruct s2 as [|c2 r2]; simpl.
    + destruct (Z.eqb_spec (byte_of c1) 0) as [E|E]; [easy|].
      split; intros; [lia|easy].
    + destruct (Z.eqb_spec (byte_of c1) (byte_of c2)) as [E|E].
      * rewrite <- E.
        destruct (Z.eqb_spec (byte_of c1) 0) as [E0|E0]; [easy|].
        rewrite IH. apply byte_of_inj in E. subst c2.
        split; intros H; [now rewrite H|now injection H].
      * split; intros H; [lia|].
        destruct (Z.eqb_spec (byte_of c1) 0) as [E1|E1];
          destruct (Z.eqb_spec (byte_of c2) 0) as [E2|E2];
          try discriminate; try lia.
        injection H as -> _. easy.
Qed.

(** [strncmp] over the length of its first argument is zero exactly when
    that argument is a prefix of the second. *)
Lemma strncmp_strlen_0_iff (s1 s2 : string) :
  strncmp s1 s2 (strlen s1) = 0 <-> is_prefix (cstr s1) (cstr s2) = true.
Proof.
  revert s2. induction s1 as [|c1 r1 IH]; intros s2; simpl; [easy|].
  destruct (Z.eqb_spec (byte_of c1) 0) as [E0|E0]; simpl; [easy|].
  destruct s2 as [|c2 r2]; simpl.
  - rewrite (proj2 (Z.eqb_neq _ _) E0). split; intros; [lia|easy].
  - destruct (Z.eqb_spec (byte_of c1) (byte_of c2)) as [E|E].
    + rewrite (proj2 (Z.eqb_neq _ _) E0).
      apply byte_of_inj in E. subst c2.
      rewrite (proj2 (Z.eqb_neq _ _) E0). simpl.
      rewrite Ascii.eqb_refl. simpl. apply IH.
    + split; intros H; [lia|].
      destruct (Z.eqb_spec (byte_of c2) 0); [easy|]. simpl in H.
      apply andb_prop in H as [H _]. apply Ascii.eqb_eq in H. now subst.
Qed.

Lemma is_prefix_refl (s : string) : is_prefix s s = true.
Proof.
  induction s as [|c r IH]; simpl; [reflexivity|].
  now rewrite Ascii.eqb_refl, IH.
Qed.

(** Full equality implies the prefix match of [ht_delete], not conversely. *)
Lemma strcmp_0_strncmp_0 (s1 s2 : string) :
  strcmp s1 s2 = 0 -> strncmp s1 s2 (strlen s1) = 0.
Proof.
  rewrite strcmp_0_iff, strncmp_strlen_0_iff. intros <-. apply is_prefix_refl.
Qed.

(** ** The hash function *)

Lemma fold_left_map_fun {A B C : Type} (f : A -> C -> A) (g : B -> C)
      (l : list B) (a : A) :
  fold_left f (map g l) a = fold_left (fun a b => f a (g b)) l a.
Proof.
  revert a. induction l as [|b l IH]; intros a; simpl; [reflexivity|apply IH].
Qed.

Lemma fold_left_fun_ext {A B : Type} (f g : A -> B -> A) (l : list B) (a : A) :
  (forall a b, f a b = g a b) -> fold_left f l a = fold_left g l a.
Proof.
  intros H. revert a. induction l as [|b l IH]; intros a; simpl; [reflexivity|].
  now rewrite H, IH.
Qed.

(** *** Bits against arithmetic *)

Lemma land_shiftl_low (a b n : Z) :
  0 <= n -> 0 <= a < 2 ^ n -> Z.land a (Z.shiftl b n) = 0.
Proof.
  intros Hn Ha. apply Z.bits_inj'. intros i Hi.
  rewrite Z.land_spec, Z.bits_0.
  destruct (Z.lt_ge_cases i n) as [Hlt|Hge].
  - rewrite (Z.shiftl_spec_low b n i Hlt). apply andb_false_r.
  - rewrite <- (Z.mod_small a (2 ^ n)) by lia.
    now rewrite Z.mod_pow2_bits_high by lia.
Qed.

Lemma lor_shiftl_add (a b n : Z) :
  0 <= n -> 0 <= a < 2 ^ n -> Z.lor a (Z.shiftl b n) = a + 2 ^ n * b.
Proof.
  intros Hn Ha. pose proof (land_shiftl_low a b n Hn Ha) as Hland.
  rewrite <- (Z.lxor_lor _ _ Hland), <- (Z.add_nocarry_lxor _ _ Hland).
  rewrite Z.shiftl_mul_pow2 by assumption. ring.
Qed.

Lemma lxor_shiftl_add (a b n : Z) :
  0 <= n -> 0 <= a < 2 ^ n -> Z.lxor (Z.shiftl b n) a = 2 ^ n * b + a.
Proof.
  intros Hn Ha. pose proof (land_shiftl_low a b n Hn Ha) as Hland.
  rewrite Z.lxor_comm, <- (Z.add_nocarry_lxor _ _ Hland).
  rewrite Z.shiftl_mul_pow2 by assumption. ring.
Qed.

Lemma lxor_is_word (a b : Z) : is_word a -> is_word b -> is_word (Z.lxor a b).
Proof.
  unfold is_word. intros Ha Hb. split; [apply Z.lxor_nonneg; lia|].
  destruct (Z.eq_dec (Z.lxor a b) 0) as [->|Hne]; [reflexivity|].
  apply Z.log2_lt_pow2; [pose proof (Z.lxor_nonneg a b); lia|].
  eapply Z.le_lt_trans; [apply Z.log2_lxor; lia|].
  assert (Hlog : forall x, 0 <= x < 2 ^ 32 -> Z.log2 x < 32).
  { intros x Hx. destruct (Z.eq_dec x 0) as [->|Hx0]; [reflexivity|].
    apply Z.log2_lt_pow2; lia. }
  apply Z.max_lub_lt; now apply Hlog.
Qed.

Lemma mod_is_word (z : Z) : is_word (z mod 2 ^ 32).
Proof. apply Z.mod_pos_bound. lia. Qed.

(** The two halves of a rotation: the low [32 - r] bits of the word moved
    up by [r], and its high [r] bits moved down. *)
Lemma spec_rotl_halves (x r : Z) :
  is_word x -> 0 < r < 32 ->
  spec_rotl x r = x / 2 ^ (32 - r) + 2 ^ r * (x mod 2 ^ (32 - r)) /\
  0 <= x / 2 ^ (32 - r) < 2 ^ r /\
  0 <= x mod 2 ^ (32 - r) < 2 ^ (32 - r).
Proof.
  unfold is_word, spec_rotl. intros Hx Hr.
  assert (Hp : 2 ^ 32 = 2 ^ (32 - r) * 2 ^ r).
  { rewrite <- Z.pow_add_r by lia. f_equal. lia. }
  assert (H1 : 0 < 2 ^ (32 - r)) by (apply Z.pow_pos_nonneg; lia).
  assert (H2 : 0 < 2 ^ r) by (apply Z.pow_pos_nonneg; lia).
  split; [|split].
  - rewrite Hp, Z.mul_mod_distr_r by lia. ring.
  - split; [apply Z.div_pos; lia|].
    apply Z.div_lt_upper_bound; [lia|]. rewrite <- Hp. lia.
  - apply Z.mod_pos_bound. lia.
Qed.

Lemma spec_rotl_is_word (x r : Z) :
  is_word x -> 0 < r < 32 -> is_word (spec_rotl x r).
Proof.
  intros Hx Hr. destruct (spec_rotl_halves x r Hx Hr) as (-> & Hlo & Hhi).
  assert (Hp : 2 ^ 32 = 2 ^ r * 2 ^ (32 - r)).
  { rewrite <- Z.pow_add_r by lia. f_equal. lia. }
  unfold is_word. rewrite Hp. nia.
Qed.

(** Bit [i] of the rotated word is bit [i - r], counted modulo 32, of the
    word. *)
Lemma spec_rotl_testbit (x r i : Z) :
  is_word x -> 0 < r < 32 -> 0 <= i < 32 ->
  Z.testbit (spec_rotl x r) i = Z.testbit x ((i - r) mod 32).
Proof.
  intros Hx Hr Hi. destruct (spec_rotl_halves x r Hx Hr) as (-> & Hlo & Hhi).
  rewrite <- (lor_shiftl_add _ _ r) by lia.
  rewrite Z.lor_spec.
  destruct (Z.lt_ge_cases i r) as [Hlt|Hge].
  - rewrite (Z.shiftl_spec_low _ r i Hlt), orb_false_r.
    rewrite <- Z.shiftr_div_pow2, Z.shiftr_spec by lia. f_equal.
    apply (Z.mod_unique_pos _ _ (-1)); lia.
  - rewrite <- (Z.mod_small (x / 2 ^ (32 - r)) (2 ^ r)) by lia.
    rewrite Z.mod_pow2_bits_high by lia. simpl orb.
    rewrite Z.shiftl_spec, Z.mod_pow2_bits_low by lia. f_equal.
    symmetry. apply Z.mod_small. lia.
Qed.

Lemma rotl_spec (x r : Z) :
  is_word x -> 0 < r < 32 -> rotl x r = spec_rotl x r.
Proof.
  intros Hx Hr. destruct (spec_rotl_halves x r Hx Hr) as (-> & Hlo & Hhi).
  unfold rotl, uint32_t.
  rewrite Z.shiftl_mul_pow2, Z.shiftr_div_pow2 by lia.
  assert (Hp : 2 ^ 32 = 2 ^ (32 - r) * 2 ^ r).
  { rewrite <- Z.pow_add_r by lia. f_equal. lia. }
  rewrite Hp, Z.mul_mod_distr_r by (apply Z.pow_nonzero; lia).
  rewrite <- Z.shiftl_mul_pow2 by lia.
  rewrite Z.lor_comm. apply lor_shiftl_add; lia.
Qed.

Lemma lor_bytes (a b c d : Z) :
  is_byte a -> is_byte b -> is_byte c -> is_byte d ->
  Z.lor (Z.lor a (Z.shiftl b 8)) (Z.lor (Z.shiftl c 16) (Z.shiftl d 24))
  = a + 2 ^ 8 * b + 2 ^ 16 * c + 2 ^ 24 * d.
Proof.
  unfold is_byte. intros Ha Hb Hc Hd.
  rewrite (lor_shiftl_add a b 8) by lia.
  replace (Z.shiftl d 24) with (Z.shiftl (Z.shiftl d 8) 16)
    by (rewrite Z.shiftl_shiftl by lia; reflexivity).
  rewrite <- Z.shiftl_lor, (lor_shiftl_add c d 8) by lia.
  rewrite lor_shiftl_add by lia. lia.
Qed.

Lemma load_uint32_spec (b0 b1 b2 b3 : Z) :
  is_byte b0 -> is_byte b1 -> is_byte b2 -> is_byte b3 ->
  load_uint32 b0 b1 b2 b3 = spec_word b0 b1 b2 b3.
Proof.
  intros H0 H1 H2 H3. unfold load_uint32, spec_word.
  destruct byte_order; now apply lor_bytes.
Qed.

Lemma tail_word_2 (b0 b1 : Z) :
  is_byte b0 -> Z.lxor (Z.shiftl b1 8) b0 = 2 ^ 8 * b1 + b0.
Proof. unfold is_byte. intros H0. apply lxor_shiftl_add; lia. Qed.

Lemma tail_word_3 (b0 b1 b2 : Z) :
  is_byte b0 -> is_byte b1 ->
  Z.lxor (Z.lxor (Z.shiftl b2 16) (Z.shiftl b1 8)) b0
  = 2 ^ 16 * b2 + 2 ^ 8 * b1 + b0.
Proof.
  unfold is_byte. intros H0 H1.
  replace (Z.shiftl b2 16) with (Z.shiftl (Z.shiftl b2 8) 8)
    by (rewrite Z.shiftl_shiftl by lia; reflexivity).
  rewrite <- Z.shiftl_lxor, (lxor_shiftl_add b1 b2 8) by lia.
  rewrite lxor_shiftl_add by lia. lia.
Qed.

(** *** The steps of the code against the steps of the specification *)

Lemma scramble_spec (k : Z) :
  uint32_t (rotl (uint32_t (k * const1)) shift1 * const2) = spec_scramble k.
Proof.
  unfold spec_scramble, uint32_t, const1, const2, shift1.
  now rewrite rotl_spec by (apply mod_is_word || lia).
Qed.

Lemma spec_scramble_is_word (k : Z) : is_word (spec_scramble k).
Proof. apply mod_is_word. Qed.

Lemma chunk_step_spec (h k : Z) :
  is_word h -> chunk_step h k = spec_chunk h k.
Proof.
  intros Hh. unfold chunk_step. cbv zeta. rewrite scramble_spec.
  unfold spec_chunk, uint32_t, shift2, multiplier, adder.
  rewrite rotl_spec; [reflexivity| |lia].
  apply lxor_is_word; [exact Hh|apply spec_scramble_is_word].
Qed.

Lemma spec_chunk_is_word (h k : Z) : is_word (spec_chunk h k).
Proof. apply mod_is_word. Qed.

(** The chunk loop reads the chunks in order: started at chunk [k], with
    [4 * k] bytes behind it, it computes what [spec_chunks] computes on
    the bytes ahead. *)
Lemma chunk_loop_spec (m : nat) :
  forall (done rest post : list Z) (k : nat) (h : Z),
    List.length done = (4 * k)%nat ->
    (4 * m <= List.length rest < 4 * m + 4)%nat ->
    Forall is_byte rest -> is_word h ->
    fold_left
      (fun hash i =>
         chunk_step hash
           (load_uint32
              (nth (4 * i) (done ++ rest ++ post) 0)
              (nth (4 * i + 1) (done ++ rest ++ post) 0)
              (nth (4 * i + 2) (done ++ rest ++ post) 0)
              (nth (4 * i + 3) (done ++ rest ++ post) 0)))
      (seq k m) h
    = fst (spec_chunks rest h)
    /\ snd (spec_chunks rest h) = skipn (4 * m) rest.
Proof.
  induction m as [|m IH]; intros done rest post k h Hdone Hlen Hbytes Hh.
  - destruct rest as [|b0 [|b1 [|b2 [|b3 rest]]]]; simpl in *;
      try lia; now split.
  - destruct rest as [|b0 [|b1 [|b2 [|b3 rest]]]]; simpl in Hlen; try lia.
    change (seq k (S m)) with (k :: seq (S k) m).
    cbn [fold_left spec_chunks].
    replace (4 * S m)%nat with (4 + 4 * m)%nat by lia.
    cbn [skipn Nat.add].
    assert (Hn : forall j x,
               (j < 4)%nat ->
               nth j [b0; b1; b2; b3] 0 = x ->
               nth (4 * k + j) (done ++ (b0 :: b1 :: b2 :: b3 :: rest) ++ post) 0 = x).
    { intros j x Hj <-. rewrite app_nth2 by lia.
      replace (4 * k + j - List.length done)%nat with j by lia.
      change ((b0 :: b1 :: b2 :: b3 :: rest) ++ post)
        with ([b0; b1; b2; b3] ++ rest ++ post).
      now rewrite app_nth1 by (simpl; lia). }
    replace (4 * k)%nat with (4 * k + 0)%nat at 1 by lia.
    rewrite (Hn 0%nat b0), (Hn 1%nat b1), (Hn 2%nat b2), (Hn 3%nat b3)
      by (simpl; (lia || reflexivity)).
    apply Forall_cons in Hbytes as [H0 Hbytes].
    apply Forall_cons in Hbytes as [H1 Hbytes].
    apply Forall_cons in Hbytes as [H2 Hbytes].
    apply Forall_cons in Hbytes as [H3 Hbytes].
    rewrite load_uint32_spec, chunk_step_spec by assumption.
    specialize (IH (done ++ [b0; b1; b2; b3]) rest post (S k)
                   (spec_chunk h (spec_word b0 b1 b2 b3))).
    rewrite <- !app_assoc in IH. apply IH.
    + rewrite length_app. simpl. lia.
    + lia.
    + exact Hbytes.
    + apply spec_chunk_is_word.
Qed.

(** [murmurhash] on [length] bytes of memory stays within the memory and
    is the specified algorithm on exactly these bytes. *)
Lemma murmurhash_absorb (bytes post : list Z) (seed : Z) :
  Forall is_byte bytes -> is_word seed ->
  murmurhash (bytes ++ post) (Z.of_nat (List.length bytes)) seed
  = Done (spec_fmix (Z.lxor (spec_absorb bytes seed)
                            (Z.of_nat (List.length bytes) mod 2 ^ 32))).
Proof.
  intros Hbytes Hseed.
  set (n := List.length bytes).
  set (q := (n / 4)%nat).
  assert (Hq : Z.quot (Z.of_nat n) 4 = Z.of_nat q).
  { rewrite Z.quot_div_nonneg by lia. subst q.
    now rewrite (Nat2Z.inj_div n 4). }
  assert (Hdiv : (4 * q <= n < 4 * q + 4)%nat).
  { subst q. pose proof (Nat.div_mod_eq n 4).
    pose proof (Nat.mod_upper_bound n 4). lia. }
  assert (Hland : Z.land (Z.of_nat n) 3 = Z.of_nat (n - 4 * q)).
  { change 3 with (Z.ones 2). rewrite Z.land_ones by lia.
    change (2 ^ 2) with (Z.of_nat 4). rewrite <- (Nat2Z.inj_mod n 4).
    subst q. pose proof (Nat.div_mod_eq n 4). lia. }
  unfold murmurhash, spec_absorb. rewrite Hq, Nat2Z.id.
  destruct (Z.ltb_spec (Z.of_nat q) 0) as [|_]; [lia|].
  destruct (Z.ltb_spec (Z.of_nat (List.length (bytes ++ post)))
                       (Z.of_nat q * 4 + Z.land (Z.of_nat n) 3)) as [Hshort|_].
  { rewrite length_app, Hland in Hshort. fold n in Hshort. lia. }
  f_equal.
  destruct (chunk_loop_spec q [] bytes post 0 seed eq_refl Hdiv Hbytes Hseed)
    as [Hloop Htail].
  simpl app in Hloop.
  rewrite fold_left_map_fun.
  erewrite fold_left_fun_ext.
  2:{ intros h i.
      replace (Z.to_nat (Z.of_nat q * 4 + (Z.of_nat i - Z.of_nat q) * 4))
        with (4 * i)%nat by lia.
      replace (Z.to_nat (Z.of_nat q * 4 + (Z.of_nat i - Z.of_nat q) * 4 + 1))
        with (4 * i + 1)%nat by lia.
      replace (Z.to_nat (Z.of_nat q * 4 + (Z.of_nat i - Z.of_nat q) * 4 + 2))
        with (4 * i + 2)%nat by lia.
      replace (Z.to_nat (Z.of_nat q * 4 + (Z.of_nat i - Z.of_nat q) * 4 + 3))
        with (4 * i + 3)%nat by lia.
      reflexivity. }
  rewrite Hloop.
  destruct (spec_chunks bytes seed) as [h tail] eqn:Hsc.
  cbn [snd] in Htail. cbn [fst].
  assert (Hrem : Z.land (Z.of_nat n) 3 = Z.of_nat (List.length tail)).
  { rewrite Hland, Htail, length_skipn. reflexivity. }
  assert (Hnth : forall j,
             0 <= j ->
             nth (Z.to_nat (Z.of_nat q * 4 + j)) (bytes ++ post) 0
             = nth (Z.to_nat j) (tail ++ post) 0).
  { intros j Hj. replace (Z.to_nat (Z.of_nat q * 4 + j))
      with (4 * q + Z.to_nat j)%nat by lia.
    rewrite <- (firstn_skipn (4 * q) bytes) at 1. rewrite <- Htail.
    rewrite <- app_assoc, app_nth2 by (rewrite length_firstn; lia).
    rewrite length_firstn. f_equal. lia. }
  assert (Htl : (List.length tail < 4)%nat).
  { rewrite Htail, length_skipn. lia. }
  assert (Htb : Forall is_byte tail).
  { rewrite Htail. now apply Forall_drop. }
  rewrite (Hnth 0), (Hnth 1), (Hnth 2), Hrem by lia.
  destruct tail as [|b0 [|b1 [|b2 [|b3 tail]]]]; simpl in Htl; try lia;
    simpl (Z.of_nat (List.length _));
    simpl (_ =? _); simpl (_ || _); cbv beta iota;
    simpl (nth _ _ _); cbn [spec_tail_word];
    rewrite ?Z.lxor_0_l, ?scramble_spec.
  - unfold spec_fmix, uint32_t. rewrite !Z.shiftr_div_pow2 by lia.
    reflexivity.
  - unfold spec_fmix, uint32_t. rewrite !Z.shiftr_div_pow2 by lia.
    reflexivity.
  - apply Forall_cons in Htb as [H0 _].
    rewrite (tail_word_2 b0 b1 H0).
    unfold spec_fmix, uint32_t. rewrite !Z.shiftr_div_pow2 by lia.
    reflexivity.
  - apply Forall_cons in Htb as [H0 Htb]. apply Forall_cons in Htb as [H1 _].
    rewrite (tail_word_3 b0 b1 b2 H0 H1).
    unfold spec_fmix, uint32_t. rewrite !Z.shiftr_div_pow2 by lia.
    reflexivity.
Qed.

Lemma murmurhash_spec_hash (bytes post : list Z) (seed : Z) :
  Forall is_byte bytes -> is_word seed ->
  Z.of_nat (List.length bytes) < 2 ^ 31 ->
  murmurhash (bytes ++ post) (Z.of_nat (List.length bytes)) seed
  = Done (spec_hash bytes seed).
Proof.
  intros Hbytes Hseed Hlen. rewrite murmurhash_absorb by assumption.
  unfold spec_hash. now rewrite Z.mod_small by lia.
Qed.

Lemma bytes_of_is_byte (s : string) : Forall is_byte (bytes_of s).
Proof.
  induction s as [|c r IH]; simpl; constructor; [|exact IH].
  pose proof (byte_of_range c). unfold is_byte. lia.
Qed.

(** Keys are hashed with seed 0 over the [strlen] bytes of the key. *)
Lemma hash_str_absorb (key : string) :
  hash_str (Some key)
  = Done (spec_fmix (Z.lxor (spec_absorb (bytes_of (cstr key)) 0)
                            (Z.of_nat (strlen key) mod 2 ^ 32))).
Proof.
  unfold hash_str.
  destruct (bytes_of_cstr_prefix key) as [post ->].
  rewrite <- (strlen_bytes_of_cstr key).
  apply murmurhash_absorb; [apply bytes_of_is_byte|unfold is_word; lia].
Qed.

Lemma hash_str_spec (key : string) :
  Z.of_nat (strlen key) < 2 ^ 31 ->
  hash_str (Some key) = Done (spec_hash (bytes_of (cstr key)) 0).
Proof.
  intros Hlen. rewrite hash_str_absorb. unfold spec_hash.
  now rewrite strlen_bytes_of_cstr, Z.mod_small by lia.
Qed.

(** Keys that [strcmp] equates have the same hash. *)
Lemma hash_str_strcmp (k1 k2 : string) :
  strcmp k1 k2 = 0 ->
  hash_str (Some k1) = hash_str (Some k2).
Proof.
  rewrite strcmp_0_iff, !hash_str_absorb, <- (strlen_cstr k1),
    <- (strlen_cstr k2).
  now intros ->.
Qed.


(** ** The table *)

Lemma g_primes_range (i : nat) (prime : Z) :
  g_primes !! i = Some prime -> 53 <= prime < 2 ^ 31.
Proof.
  intros H.
  do 26 (destruct i as [|i]; [injection H as <-; lia|]).
  discriminate.
Qed.

Lemma g_primes_increasing (i : nat) (p q : Z) :
  g_primes !! i = Some p -> g_primes !! (S i) = Some q -> p < q.
Proof.
  intros Hp Hq.
  do 25 (destruct i as [|i]; [injection Hp as <-; injection Hq as <-; lia|]).
  destruct i; discriminate.
Qed.

Lemma array_get_Done {A : Type} (a : list A) (i : Z) (x : A) :
  array_get a i = Done x <-> 0 <= i /\ a !! Z.to_nat i = Some x.
Proof.
  unfold array_get. destruct (Z.ltb_spec i 0).
  - split; [discriminate|lia].
  - destruct (a !! Z.to_nat i) eqn:E; split.
    + intros [= ->]. auto.
    + intros [_ [= ->]]. reflexivity.
    + discriminate.
    + intros [_ [=]].
Qed.

Lemma array_get_in_range {A : Type} (a : list A) (i : Z) :
  0 <= i < Z.of_nat (List.length a) -> exists x, array_get a i = Done x.
Proof.
  intros H. destruct (lookup_lt_is_Some_2 a (Z.to_nat i)) as [x Hx]; [lia|].
  exists x. apply array_get_Done. split; [lia|assumption].
Qed.

(** ** The load factor test *)

Lemma digits2_pos_bounds (p : positive) :
  2 ^ (Z.pos (digits2_pos p) - 1) <= Z.pos p < 2 ^ Z.pos (digits2_pos p).
Proof.
  induction p as [p IH|p IH|]; simpl digits2_pos.
  - rewrite Pos2Z.inj_succ.
    replace (Z.succ (Z.pos (digits2_pos p)) - 1) with (Z.succ (Z.pos (digits2_pos p) - 1)) by lia.
    rewrite !Z.pow_succ_r by lia. lia.
  - rewrite Pos2Z.inj_succ.
    replace (Z.succ (Z.pos (digits2_pos p)) - 1) with (Z.succ (Z.pos (digits2_pos p) - 1)) by lia.
    rewrite !Z.pow_succ_r by lia. lia.
  - simpl. lia.
Qed.

Lemma Zdigits2_eq (n d : Z) :
  0 < d -> 2 ^ (d - 1) <= n < 2 ^ d -> Zdigits2 n = d.
Proof.
  intros Hd Hn.
  assert (0 < n) by (pose proof (Z.pow_pos_nonneg 2 (d - 1)); lia).
  destruct n as [|p|p]; try lia. simpl.
  pose proof (digits2_pos_bounds p) as Hp.
  destruct (Z.lt_trichotomy (Z.pos (digits2_pos p)) d) as [Hlt|[Heq|Hgt]];
    [|assumption|].
  - assert (2 ^ Z.pos (digits2_pos p) <= 2 ^ (d - 1))
      by (apply Z.pow_le_mono_r; lia). lia.
  - assert (2 ^ d <= 2 ^ (Z.pos (digits2_pos p) - 1))
      by (apply Z.pow_le_mono_r; lia). lia.
Qed.

Lemma iter_pos_nat {A : Type} (f : A -> A) (p : positive) (x : A) :
  SpecFloat.iter_pos f p x = Nat.iter (Pos.to_nat p) f x.
Proof.
  revert x. induction p as [p IH|p IH|]; intros x; simpl SpecFloat.iter_pos.
  - rewrite !IH, Pos2Nat.inj_xI.
    replace (S (2 * Pos.to_nat p)) with (Pos.to_nat p + (Pos.to_nat p + 1))%nat by lia.
    rewrite !Nat.iter_add. reflexivity.
  - rewrite !IH, Pos2Nat.inj_xO.
    replace (2 * Pos.to_nat p)%nat with (Pos.to_nat p + Pos.to_nat p)%nat by lia.
    rewrite Nat.iter_add. reflexivity.
  - reflexivity.
Qed.

Lemma shr_1_nonneg (m : Z) (r s : bool) :
  0 <= m ->
  shr_1 (Build_shr_record m r s) = Build_shr_record (m / 2) (Z.odd m) (r || s).
Proof.
  intros Hm. destruct m as [|p|p]; [reflexivity| |lia].
  destruct p as [p|p|]; simpl shr_1; f_equal.
  - rewrite Pos2Z.inj_xI. apply Z.div_unique with 1; lia.
  - rewrite Pos2Z.inj_xO. apply Z.div_unique with 0; lia.
Qed.

Lemma loc_of_shr_record_of_loc (m : Z) (l : location) :
  loc_of_shr_record (shr_record_of_loc m l) = l.
Proof. destruct l as [|[| |]]; reflexivity. Qed.

Lemma shr_m_record_of_loc (m : Z) (l : location) :
  shr_m (shr_record_of_loc m l) = m.
Proof. destruct l as [|[| |]]; reflexivity. Qed.

(** One more bit shifted out: the record of [n / d] becomes that of
    [n / (2 * d)]. *)
Lemma shr_1_rec_of (n d : Z) :
  0 <= n -> 0 < d -> shr_1 (rec_of n d) = rec_of n (2 * d).
Proof.
  intros Hn Hd. unfold rec_of.
  assert (Hq : 0 <= n / d) by (apply Z.div_pos; lia).
  pose proof (Z.mod_pos_bound n d Hd) as Hr.
  pose proof (Z.div_mod n d ltac:(lia)) as Hnd.
  assert (Hq2 : n / (2 * d) = n / d / 2).
  { rewrite Z.mul_comm. symmetry. apply Z.div_div; lia. }
  pose proof (Z.div_mod n (2 * d) ltac:(lia)) as Hn2.
  pose proof (Z.div_mod (n / d) 2 ltac:(lia)) as Hqd.
  pose proof (Z.mod_pos_bound (n / d) 2 ltac:(lia)) as Hqr.
  assert (Hr2 : n mod (2 * d) = (n / d) mod 2 * d + n mod d) by nia.
  rewrite Hq2, Hr2.
  assert (Hodd : Z.odd (n / d) = negb ((n / d) mod 2 =? 0)).
  { rewrite Zmod_odd. now destruct (Z.odd (n / d)). }
  assert (Hcase : (n / d) mod 2 = 0 \/ (n / d) mod 2 = 1) by lia.
  unfold loc_of.
  destruct (Z.eqb_spec (n mod d) 0) as [E|E].
  - rewrite E, Z.add_0_r. simpl shr_record_of_loc.
    rewrite shr_1_nonneg, Hodd by assumption.
    destruct Hcase as [-> | ->].
    + reflexivity.
    + rewrite Z.mul_1_l. destruct (Z.eqb_spec d 0); [lia|].
      assert ((2 * d ?= 2 * d) = Eq) as -> by apply Z.compare_refl.
      reflexivity.
  - assert (Hs : forall c, shr_1 (shr_record_of_loc (n / d) (loc_Inexact c))
                      = Build_shr_record (n / d / 2) (Z.odd (n / d)) true).
    { intros [| |]; simpl shr_record_of_loc; rewrite shr_1_nonneg by assumption;
        reflexivity. }
    rewrite Hs, Hodd.
    destruct Hcase as [-> | ->].
    + rewrite Z.mul_0_l, Z.add_0_l.
      destruct (Z.eqb_spec (n mod d) 0); [lia|].
      assert ((2 * (n mod d) ?= 2 * d) = Lt) as ->
          by (apply Z.compare_lt_iff; lia).
      reflexivity.
    + rewrite Z.mul_1_l.
      destruct (Z.eqb_spec (d + n mod d) 0); [lia|].
      assert ((2 * (d + n mod d) ?= 2 * d) = Gt) as ->
          by (apply Z.compare_gt_iff; lia).
      reflexivity.
Qed.

Lemma iter_shr_1_rec_of (k : nat) (n d : Z) :
  0 <= n -> 0 < d ->
  Nat.iter k shr_1 (rec_of n d) = rec_of n (d * 2 ^ Z.of_nat k).
Proof.
  intros Hn Hd. induction k as [|k IH].
  - simpl. now rewrite Z.mul_1_r.
  - rewrite Nat2Z.inj_succ, Z.pow_succ_r by lia. simpl Nat.iter.
    rewrite IH, shr_1_rec_of by (try apply Z.mul_pos_pos; lia).
    f_equal. lia.
Qed.

Lemma shr_rec_of (n d e k : Z) :
  0 <= n -> 0 < d -> 0 <= k ->
  shr (rec_of n d) e k = (rec_of n (d * 2 ^ k), e + k).
Proof.
  intros Hn Hd Hk. unfold shr. destruct k as [|p|p]; [| |lia].
  - now rewrite Z.mul_1_r, Z.add_0_r.
  - rewrite iter_pos_nat, iter_shr_1_rec_of by assumption.
    now rewrite positive_nat_Z.
Qed.

Lemma round_rec_of (n d : Z) :
  0 < d ->
  round_nearest_even (shr_m (rec_of n d)) (loc_of_shr_record (rec_of n d))
  = rne n d.
Proof.
  intros Hd. unfold rec_of.
  rewrite shr_m_record_of_loc, loc_of_shr_record_of_loc.
  pose proof (Z.mod_pos_bound n d Hd) as Hr.
  unfold loc_of, rne, round_nearest_even.
  destruct (Z.eqb_spec (n mod d) 0) as [E|E].
  - rewrite E. destruct (Z.ltb_spec (2 * 0) d); [reflexivity|lia].
  - destruct (Z.compare_spec (2 * (n mod d)) d) as [Hc|Hc|Hc].
    + destruct (Z.ltb_spec (2 * (n mod d)) d); [lia|].
      destruct (Z.ltb_spec d (2 * (n mod d))); [lia|]. reflexivity.
    + destruct (Z.ltb_spec (2 * (n mod d)) d); [reflexivity|lia].
    + destruct (Z.ltb_spec (2 * (n mod d)) d); [lia|].
      destruct (Z.ltb_spec d (2 * (n mod d))); [reflexivity|lia].
Qed.

Lemma rne_bounds (n d lo hi : Z) :
  0 < d -> lo * d <= n < hi * d -> lo <= rne n d <= hi.
Proof.
  intros Hd Hn. unfold rne.
  pose proof (Z.mod_pos_bound n d Hd) as Hr.
  pose proof (Z.div_mod n d ltac:(lia)) as Hnd.
  assert (lo <= n / d < hi) by nia.
  destruct (2 * (n mod d) <? d), (d <? 2 * (n mod d)), (Z.even (n / d)); lia.
Qed.

Lemma rne_mono (n n' d : Z) :
  0 < d -> n <= n' -> rne n d <= rne n' d.
Proof.
  intros Hd Hn. unfold rne.
  pose proof (Z.mod_pos_bound n d Hd) as Hr.
  pose proof (Z.mod_pos_bound n' d Hd) as Hr'.
  pose proof (Z.div_mod n d ltac:(lia)) as Hnd.
  pose proof (Z.div_mod n' d ltac:(lia)) as Hnd'.
  assert (Hq : n / d <= n' / d) by (apply Z.div_le_mono; lia).
  assert (Hcase : n / d = n' / d \/ n / d + 1 <= n' / d) by lia.
  destruct Hcase as [E|E].
  - rewrite <- E in *.
    destruct (Z.ltb_spec (2 * (n mod d)) d), (Z.ltb_spec d (2 * (n mod d))),
      (Z.ltb_spec (2 * (n' mod d)) d), (Z.ltb_spec d (2 * (n' mod d))),
      (Z.even (n / d)); lia.
  - destruct (2 * (n mod d) <? d), (d <? 2 * (n mod d)), (Z.even (n / d)),
      (2 * (n' mod d) <? d), (d <? 2 * (n' mod d)), (Z.even (n' / d)); lia.
Qed.

(** Rounding reaches [t] exactly when the quotient lies above the midpoint
    below [t], for an even [t - 1] (a tie goes down to it). *)
Lemma rne_ge_iff (n d t : Z) :
  0 < d -> Z.even (t - 1) = true ->
  (t <= rne n d <-> (2 * t - 1) * d < 2 * n).
Proof.
  intros Hd Ht. unfold rne.
  pose proof (Z.mod_pos_bound n d Hd) as Hr.
  pose proof (Z.div_mod n d ltac:(lia)) as Hnd.
  assert (Hcase : n / d <= t - 2 \/ n / d = t - 1 \/ t <= n / d) by lia.
  destruct Hcase as [E|[E|E]].
  - destruct (2 * (n mod d) <? d), (d <? 2 * (n mod d)), (Z.even (n / d));
      split; intros; nia.
  - rewrite E in *. rewrite Ht.
    destruct (Z.ltb_spec (2 * (n mod d)) d), (Z.ltb_spec d (2 * (n mod d)));
      split; intros; nia.
  - destruct (2 * (n mod d) <? d), (d <? 2 * (n mod d)), (Z.even (n / d));
      split; intros; nia.
Qed.

Lemma fexp_24 (e : Z) : -125 <= e -> fexp 24 128 e = e - 24.
Proof. intros H. unfold fexp, emin. lia. Qed.

(** [binary_round_aux] on the quotient [n / d], with [k] bits too many,
    is the rounding of [n / (d * 2 ^ k)] to nearest even. *)
Lemma binary_round_aux_24 (n d e k : Z) :
  0 <= n -> 0 < d -> 0 <= k ->
  2 ^ (23 + k) <= n / d < 2 ^ (24 + k) ->
  -149 <= e -> e + k + 1 <= 104 ->
  binary_round_aux 24 128 false (n / d) e (loc_of (n mod d) d)
  = float32 (rne n (d * 2 ^ k)) (e + k).
Proof.
  intros Hn Hd Hk Hq He Hek.
  assert (H2k : 0 < 2 ^ k) by (apply Z.pow_pos_nonneg; lia).
  assert (Hdk : 0 < d * 2 ^ k) by (apply Z.mul_pos_pos; lia).
  unfold binary_round_aux, shr_fexp.
  rewrite (Zdigits2_eq (n / d) (24 + k)) by (try replace (24 + k - 1) with (23 + k) by lia; lia).
  rewrite fexp_24 by lia.
  replace (24 + k + e - 24 - e) with k by lia.
  fold (rec_of n d). rewrite shr_rec_of by assumption.
  rewrite round_rec_of by assumption.
  assert (Hm : 2 ^ 23 <= rne n (d * 2 ^ k) <= 2 ^ 24).
  { apply rne_bounds; [assumption|].
    pose proof (Z.div_mod n d ltac:(lia)) as Hnd.
    pose proof (Z.mod_pos_bound n d Hd) as Hr.
    rewrite !Z.pow_add_r in Hq by lia. nia. }
  set (m := rne n (d * 2 ^ k)) in *.
  unfold float32.
  destruct (Z.ltb_spec m (2 ^ 24)) as [Hlt|Hge].
  - rewrite (Zdigits2_eq m 24) by lia.
    rewrite fexp_24 by lia.
    replace (24 + (e + k) - 24 - (e + k)) with 0 by lia.
    cbn [shr shr_record_of_loc shr_m].
    destruct m as [|p|p]; try lia.
    destruct (Z.leb_spec (e + k) (128 - 24)); [reflexivity|lia].
  - assert (m = 2 ^ 24) as -> by lia.
    rewrite (Zdigits2_eq (2 ^ 24) 25) by lia.
    rewrite fexp_24 by lia.
    replace (25 + (e + k) - 24 - (e + k)) with 1 by lia.
    change (2 ^ 24) with 16777216. change (2 ^ 23) with 8388608.
    cbn [shr SpecFloat.iter_pos shr_record_of_loc shr_1 shr_m Z.ltb Z.compare
         Pos.compare Pos.compare_cont Z.to_pos].
    destruct (Z.leb_spec (e + k + 1) (128 - 24)); [reflexivity|lia].
Qed.

Lemma pos_iter_xO (p d : positive) :
  Z.pos (Pos.iter xO p d) = Z.pos p * 2 ^ Z.pos d.
Proof.
  induction d as [|d IH] using Pos.peano_ind.
  - simpl. lia.
  - rewrite Pos.iter_succ, Pos2Z.inj_xO, IH, Pos2Z.inj_succ, Z.pow_succ_r by lia.
    lia.
Qed.

Lemma rne_1 (n : Z) : rne n 1 = n.
Proof.
  unfold rne. rewrite Z.mod_1_r, Z.div_1_r. reflexivity.
Qed.

Lemma log2_digits (n : Z) :
  0 < n -> 2 ^ (Z.log2 n + 1 - 1) <= n < 2 ^ (Z.log2 n + 1).
Proof.
  intros H. replace (Z.log2 n + 1 - 1) with (Z.log2 n) by lia.
  replace (Z.log2 n + 1) with (Z.succ (Z.log2 n)) by lia.
  now apply Z.log2_spec.
Qed.

(** The conversion of a [size_t] to [float]. *)
Lemma float_of_size_t_eq (n d : Z) :
  0 < d <= 64 -> 2 ^ (d - 1) <= n < 2 ^ d ->
  float_of_size_t n
  = if d <=? 24
    then S754_finite false (Z.to_pos (n * 2 ^ (24 - d))) (d - 24)
    else float32 (rne n (2 ^ (d - 24))) (d - 24).
Proof.
  intros Hd Hn.
  assert (Hpos : 0 < n) by (pose proof (Z.pow_pos_nonneg 2 (d - 1)); lia).
  destruct n as [|p|p]; try lia.
  unfold float_of_size_t, binary_normalize, binary_round.
  pose proof (Zdigits2_eq (Z.pos p) d ltac:(lia) Hn) as Hdig. simpl in Hdig.
  rewrite Hdig, fexp_24 by lia.
  unfold shl_align.
  destruct (Z.leb_spec d 24) as [Hle|Hgt].
  - destruct (d + 0 - 24 - 0) as [|a|a] eqn:Ea.
    + assert (d = 24) as -> by lia.
      pose proof (binary_round_aux_24 (Z.pos p) 1 0 0) as B.
      rewrite Z.div_1_r, Z.mod_1_r in B.
      change (loc_of 0 1) with loc_Exact in B.
      rewrite B by (simpl in *; lia).
      rewrite Z.mul_1_l, Z.pow_0_r, rne_1. unfold float32.
      destruct (Z.ltb_spec (Z.pos p) (2 ^ 24)); [|lia].
      rewrite Z.pow_0_r, Z.mul_1_r. reflexivity.
    + lia.
    + assert (Ha : Z.pos a = 24 - d) by lia.
      rewrite <- Ha.
      pose proof (binary_round_aux_24 (Z.pos (Pos.iter xO p a)) 1 (d + 0 - 24) 0)
        as B.
      rewrite Z.div_1_r, Z.mod_1_r in B.
      change (loc_of 0 1) with loc_Exact in B.
      assert (H2a : 2 ^ (d - 1) * 2 ^ Z.pos a = 2 ^ 23).
      { rewrite <- Z.pow_add_r by lia. f_equal. lia. }
      assert (H2a' : 2 ^ d * 2 ^ Z.pos a = 2 ^ 24).
      { rewrite <- Z.pow_add_r by lia. f_equal. lia. }
      assert (0 < 2 ^ Z.pos a) by (apply Z.pow_pos_nonneg; lia).
      rewrite B by (rewrite ?pos_iter_xO; simpl (23 + 0); simpl (24 + 0); nia).
      rewrite Z.mul_1_l, Z.pow_0_r, rne_1. unfold float32.
      rewrite pos_iter_xO.
      destruct (Z.ltb_spec (Z.pos p * 2 ^ Z.pos a) (2 ^ 24)); [|nia].
      f_equal. lia.
  - destruct (d + 0 - 24 - 0) as [|a|a] eqn:Ea; try lia.
    pose proof (binary_round_aux_24 (Z.pos p) 1 0 (d - 24)) as B.
    rewrite Z.div_1_r, Z.mod_1_r in B.
    change (loc_of 0 1) with loc_Exact in B.
    rewrite B.
    + rewrite Z.mul_1_l. f_equal.
    + lia.
    + lia.
    + lia.
    + replace (23 + (d - 24)) with (d - 1) by lia.
      replace (24 + (d - 24)) with d by lia. assumption.
    + lia.
    + lia.
Qed.

(** The conversion yields a normal binary32 number whose value is
    [round24 n]; the value is kept scaled by [2 ^ 23] to stay in [Z]. *)
Lemma float_of_size_t_normal (n : Z) :
  0 < n < 2 ^ 64 ->
  exists m e,
    float_of_size_t n = S754_finite false m e /\
    2 ^ 23 <= Z.pos m < 2 ^ 24 /\ -23 <= e <= 41 /\
    Z.pos m * 2 ^ (e + 23) = 2 ^ 23 * round24 n.
Proof.
  intros Hn. pose proof (log2_digits n ltac:(lia)) as Hd.
  assert (Hd64 : 0 < Z.log2 n + 1 <= 64).
  { pose proof (Z.log2_nonneg n).
    assert (Z.log2 n < 64) by (apply Z.log2_lt_pow2; lia). lia. }
  rewrite (float_of_size_t_eq n (Z.log2 n + 1)) by assumption.
  unfold round24. set (d := Z.log2 n + 1) in *.
  destruct (Z.leb_spec d 24) as [Hle|Hgt].
  - assert (H2a : 2 ^ (d - 1) * 2 ^ (24 - d) = 2 ^ 23).
    { rewrite <- Z.pow_add_r by lia. f_equal. lia. }
    assert (H2a' : 2 ^ d * 2 ^ (24 - d) = 2 ^ 24).
    { rewrite <- Z.pow_add_r by lia. f_equal. lia. }
    assert (0 < 2 ^ (24 - d)) by (apply Z.pow_pos_nonneg; lia).
    eexists _, _. split; [reflexivity|].
    rewrite Z2Pos.id by nia.
    split; [nia|]. split; [lia|].
    replace (d - 24 + 23) with (d - 1) by lia.
    rewrite <- H2a. ring.
  - assert (H2k : 0 < 2 ^ (d - 24)) by (apply Z.pow_pos_nonneg; lia).
    assert (Hm : 2 ^ 23 <= rne n (2 ^ (d - 24)) <= 2 ^ 24).
    { apply rne_bounds; [assumption|].
      rewrite <- !Z.pow_add_r by lia.
      replace (23 + (d - 24)) with (d - 1) by lia.
      replace (24 + (d - 24)) with d by lia. assumption. }
    set (m := rne n (2 ^ (d - 24))) in *.
    unfold float32.
    destruct (Z.ltb_spec m (2 ^ 24)) as [Hlt|Hge].
    + eexists _, _. split; [reflexivity|].
      rewrite Z2Pos.id by lia.
      split; [lia|]. split; [lia|].
      rewrite Z.pow_add_r by lia. ring.
    + assert (m = 2 ^ 24) as -> by lia.
      eexists _, _. split; [reflexivity|].
      rewrite Z2Pos.id by lia.
      split; [lia|]. split; [lia|].
      replace (d - 24 + 1 + 23) with (1 + (d - 24) + 23) by lia.
      rewrite !Z.pow_add_r by lia. change (2 ^ 24) with (2 ^ 23 * 2 ^ 1). ring.
Qed.

Lemma new_location_loc_of (d r : Z) :
  0 < d -> 0 <= r < d -> new_location d r = loc_of r d.
Proof.
  intros Hd Hr. unfold new_location, new_location_even, new_location_odd, loc_of.
  destruct (Z.even d) eqn:Ev; [reflexivity|].
  destruct (Z.eqb_spec r 0); [reflexivity|]. f_equal.
  assert (Hodd : Z.odd d = true) by (rewrite <- Z.negb_even, Ev; reflexivity).
  apply Z.odd_spec in Hodd as [h Hh].
  destruct (Z.compare_spec (2 * r + 1) d), (Z.compare_spec (2 * r) d);
    try reflexivity; lia.
Qed.

(** The quotient of two normal binary32 numbers. *)
Lemma float_div_normal (mx my : positive) (ex ey : Z) :
  2 ^ 23 <= Z.pos mx < 2 ^ 24 -> 2 ^ 23 <= Z.pos my < 2 ^ 24 ->
  -23 <= ex <= 41 -> -23 <= ey <= 41 ->
  float_div (S754_finite false mx ex) (S754_finite false my ey)
  = float32 (rne (Z.pos mx * 2 ^ 24)
                 (Z.pos my * 2 ^ (if Z.pos mx <? Z.pos my then 0 else 1)))
            (ex - ey - 24 + (if Z.pos mx <? Z.pos my then 0 else 1)).
Proof.
  intros Hmx Hmy Hex Hey.
  unfold float_div, SFdiv, SFdiv_core_binary.
  rewrite (Zdigits2_eq (Z.pos mx) 24), (Zdigits2_eq (Z.pos my) 24) by lia.
  rewrite fexp_24 by lia.
  replace (Z.min (24 + ex - (24 + ey) - 24) (ex - ey)) with (ex - ey - 24) by lia.
  replace (ex - ey - (ex - ey - 24)) with 24 by lia.
  rewrite Z.shiftl_mul_pow2 by lia.
  set (n := Z.pos mx * 2 ^ 24).
  unfold Z.div_eucl at 1. fold (Z.div_eucl n (Z.pos my)).
  assert (Hdm : Z.div_eucl n (Z.pos my) = (n / Z.pos my, n mod Z.pos my)).
  { unfold Z.div, Z.modulo. now destruct (Z.div_eucl n (Z.pos my)). }
  rewrite Hdm.
  pose proof (Z.mod_pos_bound n (Z.pos my) ltac:(lia)) as Hr.
  pose proof (Z.div_mod n (Z.pos my) ltac:(lia)) as Hnd.
  rewrite new_location_loc_of by lia.
  simpl xorb.
  destruct (Z.ltb_spec (Z.pos mx) (Z.pos my)) as [Hlt|Hge].
  - apply binary_round_aux_24; try lia.
    subst n. change (2 ^ (23 + 0)) with (2 ^ 23). change (2 ^ (24 + 0)) with (2 ^ 24).
    split; [apply Z.div_le_lower_bound|apply Z.div_lt_upper_bound]; nia.
  - apply binary_round_aux_24; try lia.
    subst n. change (2 ^ (23 + 1)) with (2 ^ 24). change (2 ^ (24 + 1)) with (2 ^ 25).
    split; [apply Z.div_le_lower_bound|apply Z.div_lt_upper_bound]; nia.
Qed.

Lemma double_of_float_normal (m : positive) (e : Z) :
  2 ^ 23 <= Z.pos m < 2 ^ 24 -> -200 <= e <= 200 ->
  double_of_float (S754_finite false m e)
  = S754_finite false (Pos.iter xO m 29) (e - 29).
Proof.
  intros Hm He. unfold double_of_float, binary_normalize, binary_round.
  simpl cond_Zopp. cbv iota.
  pose proof (Zdigits2_eq (Z.pos m) 24 ltac:(lia) ltac:(lia)) as Hdig.
  simpl in Hdig. rewrite Hdig.
  assert (Hf : forall x, -300 <= x <= 300 -> fexp 53 1024 (x + 53) = x)
    by (intros x Hx; unfold fexp, emin; lia).
  replace (24 + e) with (e - 29 + 53) by lia. rewrite Hf by lia.
  unfold shl_align. replace (e - 29 - e) with (-29) by lia. cbv iota.
  assert (Hbig : 2 ^ 52 <= Z.pos (Pos.iter xO m 29) < 2 ^ 53).
  { rewrite pos_iter_xO. change (2 ^ 52) with (2 ^ 23 * 2 ^ 29).
    change (2 ^ 53) with (2 ^ 24 * 2 ^ 29). lia. }
  unfold binary_round_aux, shr_fexp.
  rewrite (Zdigits2_eq _ 53) by lia.
  replace (53 + (e - 29)) with (e - 29 + 53) by lia. rewrite Hf by lia.
  replace (e - 29 - (e - 29)) with 0 by lia.
  cbn [shr shr_record_of_loc shr_m loc_of_shr_record shr_r shr_s
       round_nearest_even].
  rewrite (Zdigits2_eq _ 53) by lia.
  replace (53 + (e - 29)) with (e - 29 + 53) by lia. rewrite Hf by lia.
  replace (e - 29 - (e - 29)) with 0 by lia.
  cbn [shr shr_record_of_loc shr_m].
  destruct (Z.leb_spec (e - 29) (1024 - 53)); [reflexivity|lia].
Qed.

(** The comparison with [0.8] on a rounded binary32 quotient. *)
Lemma float32_gt_0_8 (m e : Z) :
  2 ^ 23 <= m <= 2 ^ 24 -> -100 <= e <= 100 ->
  double_gt (double_of_float (float32 m e)) double_0_8
  = (-24 <? e) || ((e =? -24) && (13421773 <=? m)).
Proof.
  intros Hm He. unfold float32.
  destruct (Z.ltb_spec m (2 ^ 24)) as [Hlt|Hge].
  - assert (Hp : Z.pos (Z.to_pos m) = m) by (apply Z2Pos.id; lia).
    rewrite double_of_float_normal by lia.
    unfold double_gt, double_0_8, SFcompare.
    destruct (Z.compare_spec (e - 29) (-53)) as [Hc|Hc|Hc].
    + assert (e = -24) as -> by lia.
      change ((-24 <? -24) || ((-24 =? -24) && (13421773 <=? m)))
        with (13421773 <=? m).
      rewrite Pos.compare_cont_spec. cbn [Pos.switch_Eq].
      rewrite Pos2Z.inj_compare, pos_iter_xO, Hp.
      destruct (Z.compare_spec (m * 2 ^ 29) 7205759403792794);
        destruct (Z.leb_spec 13421773 m); try reflexivity; lia.
    + destruct (Z.ltb_spec (-24) e); [lia|].
      destruct (Z.eqb_spec e (-24)); [lia|]. reflexivity.
    + destruct (Z.ltb_spec (-24) e); [reflexivity|lia].
  - assert (m = 2 ^ 24) as -> by lia.
    rewrite double_of_float_normal by (simpl; lia).
    unfold double_gt, double_0_8, SFcompare.
    destruct (Z.compare_spec (e + 1 - 29) (-53)) as [Hc|Hc|Hc].
    + assert (e = -25) as -> by lia. reflexivity.
    + destruct (Z.ltb_spec (-24) e); [lia|].
      destruct (Z.eqb_spec e (-24)); [lia|]. reflexivity.
    + destruct (Z.ltb_spec (-24) e); [reflexivity|].
      assert (e = -24) as -> by lia. reflexivity.
Qed.

Lemma round24_bounds (n : Z) :
  0 < n ->
  2 ^ Z.log2 n <= round24 n <= 2 ^ (Z.log2 n + 1).
Proof.
  intros Hn. pose proof (log2_digits n Hn) as Hd.
  pose proof (Z.log2_nonneg n) as H0.
  unfold round24. set (d := Z.log2 n + 1) in *.
  replace (Z.log2 n) with (d - 1) by lia.
  replace (d - 1 + 1) with d by lia.
  destruct (Z.leb_spec d 24); [lia|].
  assert (H2k : 0 < 2 ^ (d - 24)) by (apply Z.pow_pos_nonneg; lia).
  assert (Hm : 2 ^ 23 <= rne n (2 ^ (d - 24)) <= 2 ^ 24).
  { apply rne_bounds; [assumption|].
    rewrite <- !Z.pow_add_r by lia.
    replace (23 + (d - 24)) with (d - 1) by lia.
    replace (24 + (d - 24)) with d by lia. assumption. }
  assert (E1 : 2 ^ (d - 1) = 2 ^ 23 * 2 ^ (d - 24))
    by (rewrite <- Z.pow_add_r by lia; f_equal; lia).
  assert (E2 : 2 ^ d = 2 ^ 24 * 2 ^ (d - 24))
    by (rewrite <- Z.pow_add_r by lia; f_equal; lia).
  rewrite E1, E2. nia.
Qed.

Lemma round24_mono (n n' : Z) :
  0 < n -> n <= n' -> round24 n <= round24 n'.
Proof.
  intros Hn Hle.
  pose proof (Z.log2_le_mono n n' Hle) as Hlog.
  pose proof (Z.log2_nonneg n) as H0.
  assert (Hcase : Z.log2 n = Z.log2 n' \/ Z.log2 n + 1 <= Z.log2 n') by lia.
  destruct Hcase as [E|E].
  - unfold round24. rewrite <- E.
    destruct (Z.leb_spec (Z.log2 n + 1) 24); [assumption|].
    assert (0 < 2 ^ (Z.log2 n + 1 - 24)) by (apply Z.pow_pos_nonneg; lia).
    apply Z.mul_le_mono_nonneg_r; [lia|]. now apply rne_mono.
  - pose proof (round24_bounds n Hn) as [_ Hup].
    pose proof (round24_bounds n' ltac:(lia)) as [Hlo _].
    assert (2 ^ (Z.log2 n + 1) <= 2 ^ Z.log2 n')
      by (apply Z.pow_le_mono_r; lia).
    lia.
Qed.

(** The test [load_factor > 0.8], in integers: the quotient of the two
    rounded operands lies above the midpoint of the two binary32 numbers
    around 0.8, which is 26843545 / 2 ^ 25. *)
Lemma load_factor_gt_0_8_spec (size capacity : Z) :
  0 < size < 2 ^ 64 -> 0 < capacity < 2 ^ 64 ->
  load_factor_gt_0_8 size capacity
  = (26843545 * round24 capacity <? round24 size * 2 ^ 25).
Proof.
  intros Hs Hc.
  destruct (float_of_size_t_normal size Hs) as (mx & ex & Fx & Hmx & Hex & Vx).
  destruct (float_of_size_t_normal capacity Hc)
    as (my & ey & Fy & Hmy & Hey & Vy).
  unfold load_factor_gt_0_8, load_factor. rewrite Fx, Fy.
  rewrite float_div_normal by assumption.
  set (A := ex + 23) in *. set (B := ey + 23) in *.
  assert (HA : 0 < 2 ^ A) by (apply Z.pow_pos_nonneg; lia).
  assert (HB : 0 < 2 ^ B) by (apply Z.pow_pos_nonneg; lia).
  assert (Hgoal : (26843545 * round24 capacity <? round24 size * 2 ^ 25)
                  = (26843545 * (Z.pos my * 2 ^ B)
                     <? Z.pos mx * 2 ^ A * 2 ^ 25)).
  { rewrite Vx, Vy.
    destruct (Z.ltb_spec (26843545 * round24 capacity) (round24 size * 2 ^ 25)),
      (Z.ltb_spec (26843545 * (2 ^ 23 * round24 capacity))
                  (2 ^ 23 * round24 size * 2 ^ 25)); try reflexivity; lia. }
  rewrite Hgoal. clear Hgoal Vx Vy Fx Fy.
  assert (Hpow : forall a b, 0 <= a -> 0 <= b -> 2 ^ (a + b) = 2 ^ a * 2 ^ b)
    by (intros; apply Z.pow_add_r; lia).
  assert (Hge2 : forall a, 1 <= a -> 2 <= 2 ^ a).
  { intros a Ha. change 2 with (2 ^ 1) at 1. apply Z.pow_le_mono_r; lia. }
  assert (Hge4 : forall a, 2 <= a -> 4 <= 2 ^ a).
  { intros a Ha. change 4 with (2 ^ 2). apply Z.pow_le_mono_r; lia. }
  destruct (Z.ltb_spec (Z.pos mx) (Z.pos my)) as [Hlt|Hge].
  - rewrite Z.pow_0_r, Z.mul_1_r, Z.add_0_r.
    rewrite float32_gt_0_8; [|apply rne_bounds; lia|lia].
    destruct (Z.ltb_spec (-24) (ex - ey - 24)) as [H1|H1]; simpl orb.
    + assert (E : 2 ^ A = 2 ^ B * 2 ^ (A - B))
        by (rewrite <- Hpow by lia; f_equal; lia).
      pose proof (Hge2 (A - B) ltac:(lia)).
      symmetry. apply Z.ltb_lt. rewrite E. nia.
    + destruct (Z.eqb_spec (ex - ey - 24) (-24)) as [H2|H2]; simpl andb.
      * assert (A = B) as -> by lia.
        destruct (Z.leb_spec 13421773 (rne (Z.pos mx * 2 ^ 24) (Z.pos my)))
          as [H3|H3];
          symmetry; [apply Z.ltb_lt|apply Z.ltb_ge].
        -- apply (rne_ge_iff _ _ 13421773) in H3; [|lia|reflexivity]. nia.
        -- assert (H4 : ~ (2 * 13421773 - 1) * Z.pos my < 2 * (Z.pos mx * 2 ^ 24)).
           { intros H4. apply (rne_ge_iff _ _ 13421773) in H4;
               [lia|lia|reflexivity]. }
           nia.
      * assert (E : 2 ^ B = 2 ^ A * 2 ^ (B - A))
          by (rewrite <- Hpow by lia; f_equal; lia).
        pose proof (Hge2 (B - A) ltac:(lia)).
        symmetry. apply Z.ltb_ge. rewrite E. nia.
  - rewrite Z.pow_1_r.
    rewrite float32_gt_0_8; [|apply rne_bounds; lia|lia].
    destruct (Z.ltb_spec (-24) (ex - ey - 24 + 1)) as [H1|H1]; simpl orb.
    + assert (E : 2 ^ A = 2 ^ B * 2 ^ (A - B))
        by (rewrite <- Hpow by lia; f_equal; lia).
      assert (0 < 2 ^ (A - B)) by (apply Z.pow_pos_nonneg; lia).
      symmetry. apply Z.ltb_lt. rewrite E. nia.
    + destruct (Z.eqb_spec (ex - ey - 24 + 1) (-24)) as [H2|H2]; simpl andb.
      * assert (E : 2 ^ B = 2 ^ A * 2) by
            (replace B with (A + 1) by lia; rewrite Hpow by lia; reflexivity).
        destruct (Z.leb_spec 13421773 (rne (Z.pos mx * 2 ^ 24) (Z.pos my * 2)))
          as [H3|H3];
          symmetry; [apply Z.ltb_lt|apply Z.ltb_ge].
        -- apply (rne_ge_iff _ _ 13421773) in H3; [|lia|reflexivity].
           rewrite E. nia.
        -- assert (H4 : ~ (2 * 13421773 - 1) * (Z.pos my * 2)
                          < 2 * (Z.pos mx * 2 ^ 24)).
           { intros H4. apply (rne_ge_iff _ _ 13421773) in H4;
               [lia|lia|reflexivity]. }
           rewrite E. nia.
      * assert (E : 2 ^ B = 2 ^ A * 2 ^ (B - A))
          by (rewrite <- Hpow by lia; f_equal; lia).
        pose proof (Hge4 (B - A) ltac:(lia)).
        symmetry. apply Z.ltb_ge. rewrite E. nia.
Qed.

Lemma load_factor_gt_0_8_zero (capacity : Z) :
  0 < capacity < 2 ^ 64 -> load_factor_gt_0_8 0 capacity = false.
Proof.
  intros Hc.
  destruct (float_of_size_t_normal capacity Hc) as (my & ey & Fy & _).
  unfold load_factor_gt_0_8, load_factor. rewrite Fy. reflexivity.
Qed.

(** The test is monotone in [size]. *)
Lemma load_factor_gt_0_8_mono (size size' capacity : Z) :
  0 <= size <= size' -> size' < 2 ^ 64 -> 0 < capacity < 2 ^ 64 ->
  load_factor_gt_0_8 size capacity = true ->
  load_factor_gt_0_8 size' capacity = true.
Proof.
  intros Hs Hs' Hc.
  destruct (Z.eq_dec size 0) as [->|Hne].
  - now rewrite load_factor_gt_0_8_zero.
  - rewrite !load_factor_gt_0_8_spec by lia.
    rewrite !Z.ltb_lt. intros H.
    pose proof (round24_mono size size' ltac:(lia) ltac:(lia)). lia.
Qed.

(** Above the ratio 0.8 the test holds, at every capacity of [g_primes]. *)
Lemma load_factor_gt_0_8_above (size capacity : Z) :
  In capacity g_primes -> 0 <= size < 2 ^ 64 ->
  4 * capacity < 5 * size ->
  load_factor_gt_0_8 size capacity = true.
Proof.
  intros Hin Hs Hratio.
  assert (Hall : forallb (fun c => load_factor_gt_0_8 (4 * c / 5 + 1) c) g_primes
                 = true) by (vm_compute; reflexivity).
  rewrite forallb_forall in Hall. specialize (Hall _ Hin).
  assert (Hc : 53 <= capacity < 2 ^ 31).
  { simpl in Hin. repeat (destruct Hin as [<-|Hin]; [lia|]). contradiction. }
  apply (load_factor_gt_0_8_mono (4 * capacity / 5 + 1)); try lia; try assumption.
  pose proof (Z.div_mod (4 * capacity) 5 ltac:(lia)).
  pose proof (Z.mod_pos_bound (4 * capacity) 5 ltac:(lia)). lia.
Qed.

(** ** The table *)

(** The hash function is unfolded last when terms are compared. *)
Strategy 1000 [murmurhash].

Arguments murmurhash : simpl never.
Arguments hash_str : simpl never.
Arguments hash_of : simpl never.
Arguments index_of : simpl never.
Arguments bucket_of : simpl never.

Lemma hash_str_Some (key : string) :
  hash_str (Some key) = Done (hash_of key).
Proof. unfold hash_of. now rewrite hash_str_absorb. Qed.

Lemma hash_of_strcmp (k1 k2 : string) :
  strcmp k1 k2 = 0 -> hash_of k1 = hash_of k2.
Proof.
  intros H. apply (hash_str_strcmp) in H.
  rewrite !hash_str_Some in H. now injection H.
Qed.

Lemma invariant_A_spec (ht : ht_t) :
  invariant_A ht = true <->
  0 <= prime_index ht /\
  g_primes !! Z.to_nat (prime_index ht) = Some (capacity ht).
Proof.
  unfold invariant_A.
  rewrite andb_true_iff, Z.leb_le.
  destruct (g_primes !! Z.to_nat (prime_index ht)) as [prime|].
  - rewrite Z.eqb_eq. split; intros [? H]; split; auto; congruence.
  - split; intros [? H]; discriminate.
Qed.

Lemma invariant_A_capacity (ht : ht_t) :
  invariant_A ht = true -> 53 <= capacity ht < 2 ^ 31.
Proof.
  rewrite invariant_A_spec. intros [_ H]. exact (g_primes_range _ _ H).
Qed.

Lemma invariant_A_prime_index (ht : ht_t) :
  invariant_A ht = true -> 0 <= prime_index ht < 26.
Proof.
  rewrite invariant_A_spec. intros [H0 H]. apply lookup_lt_Some in H.
  simpl in H. lia.
Qed.

Lemma chains_in_place_spec (ht : ht_t) (items : list (list node_t)) (from : nat) :
  chains_in_place ht from items = true <->
  forall i chain n,
    items !! i = Some chain -> n ∈ chain ->
    index_of ht n.(p_key) = Z.of_nat (from + i).
Proof.
  revert from. induction items as [|c items IH]; intros from; simpl.
  - split; [intros _ i chain n H; discriminate|reflexivity].
  - rewrite andb_true_iff, forallb_forall, IH. split.
    + intros [Hc Hrest] [|i] chain n Hi Hn; simpl in Hi.
      * injection Hi as <-. rewrite Nat.add_0_r. apply Z.eqb_eq, Hc.
        now apply list_elem_of_In.
      * replace (from + S i)%nat with (S from + i)%nat by lia. eauto.
    + intros H. split.
      * intros n Hn. apply Z.eqb_eq.
        rewrite <- (Nat.add_0_r from) at 1.
        apply (H 0%nat c n); [reflexivity|now apply list_elem_of_In].
      * intros i chain n Hi Hn.
        replace (S from + i)%nat with (from + S i)%nat by lia.
        apply (H (S i) chain n); assumption.
Qed.

Lemma invariant_C_spec (ht : ht_t) :
  invariant_C ht = true <->
  forall i chain n,
    pp_items ht !! i = Some chain -> n ∈ chain ->
    index_of ht n.(p_key) = Z.of_nat i.
Proof. apply (chains_in_place_spec ht (pp_items ht) 0). Qed.

Lemma well_formed_spec (ht : ht_t) : well_formed ht = true <-> wf ht.
Proof.
  unfold well_formed.
  rewrite !andb_true_iff, Z.eqb_eq, Z.leb_le, Z.ltb_lt, invariant_C_spec.
  split.
  - intros [[[[HA Hlen] H0] H1] HC]. now constructor.
  - intros [HA Hlen [H0 H1] HC]. auto.
Qed.

Lemma index_of_range (ht : ht_t) (key : string) :
  0 < capacity ht -> 0 <= index_of ht key < capacity ht.
Proof. intros H. apply Z.mod_pos_bound, H. Qed.

Lemma wf_capacity (ht : ht_t) : wf ht -> 53 <= capacity ht < 2 ^ 31.
Proof. intros H. apply invariant_A_capacity, H. Qed.

Lemma wf_lookup_bucket (ht : ht_t) (key : string) :
  wf ht ->
  pp_items ht !! Z.to_nat (index_of ht key) = Some (bucket_of ht key).
Proof.
  intros H. pose proof (wf_capacity ht H). pose proof (wf_array ht H).
  pose proof (index_of_range ht key ltac:(lia)).
  unfold bucket_of.
  destruct (lookup_lt_is_Some_2 (pp_items ht) (Z.to_nat (index_of ht key)))
    as [c ->]; [lia|reflexivity].
Qed.

Lemma wf_array_get_bucket (ht : ht_t) (key : string) :
  wf ht ->
  array_get (pp_items ht) (index_of ht key) = Done (bucket_of ht key).
Proof.
  intros H. apply array_get_Done. split.
  - pose proof (wf_capacity ht H).
    apply (index_of_range ht key). lia.
  - now apply wf_lookup_bucket.
Qed.



(** *** Creation *)

Lemma ht_create_Done (prime_index : Z) (p_ht : option ht_t) :
  ht_create prime_index = Done p_ht <->
  exists prime,
    g_primes !! Z.to_nat (uint32_t prime_index) = Some prime /\
    p_ht = Some {| pp_items := replicate (Z.to_nat prime) [];
                   capacity := prime;
                   size := 0;
                   prime_index := uint32_t prime_index |}.
Proof.
  unfold ht_create.
  destruct (array_get g_primes (uint32_t prime_index)) as [prime| |] eqn:E;
    simpl.
  - apply array_get_Done in E as [_ E]. split.
    + intros [= <-]. now exists prime.
    + intros (prime' & H & ->). congruence.
  - split; [discriminate|]. intros (prime & H & _).
    assert (0 <= uint32_t prime_index) by (apply Z.mod_pos_bound; lia).
    assert (array_get g_primes (uint32_t prime_index) = Done prime)
      by (apply array_get_Done; auto).
    congruence.
  - unfold array_get in E.
    destruct (uint32_t prime_index <? 0); [discriminate|].
    destruct (g_primes !! Z.to_nat (uint32_t prime_index)); discriminate.
Qed.

Lemma ht_create_valid (prime_index : Z) :
  0 <= prime_index < 26 ->
  exists prime,
    g_primes !! Z.to_nat prime_index = Some prime /\
    ht_create prime_index
    = Done (Some {| pp_items := replicate (Z.to_nat prime) [];
                    capacity := prime;
                    size := 0;
                    prime_index := prime_index |}).
Proof.
  intros H.
  destruct (lookup_lt_is_Some_2 g_primes (Z.to_nat prime_index)) as [prime Hp].
  { simpl. lia. }
  exists prime. split; [assumption|].
  apply ht_create_Done. exists prime.
  unfold uint32_t. rewrite Z.mod_small by lia. auto.
Qed.

Lemma ht_create_fuel (rank : Z) : ht_create rank <> OutOfFuel.
Proof.
  unfold ht_create, array_get.
  destruct (uint32_t rank <? 0); [discriminate|].
  destruct (g_primes !! Z.to_nat (uint32_t rank)); discriminate.
Qed.

(** Past the end of [g_primes] the read is out of bounds. *)
Lemma ht_create_out_of_range (prime_index : Z) :
  26 <= prime_index < 2 ^ 32 -> ht_create prime_index = Undefined.
Proof.
  intros H. unfold ht_create, uint32_t. rewrite Z.mod_small by lia.
  unfold array_get. destruct (Z.ltb_spec prime_index 0); [lia|].
  rewrite lookup_ge_None_2; [reflexivity|simpl; lia].
Qed.

Lemma entries_replicate (n : nat) :
  concat (replicate n ([] : list node_t)) = [].
Proof. induction n; simpl; auto. Qed.

Lemma occupied_replicate (n : nat) :
  List.length (List.filter is_occupied (replicate n [])) = 0%nat.
Proof. induction n; simpl; auto. Qed.

Lemma ht_create_wf (rank : Z) (ht : ht_t) :
  ht_create rank = Done (Some ht) ->
  wf ht /\ entries ht = [] /\ size ht = 0 /\ occupied ht = 0%nat /\
  prime_index ht = uint32_t rank.
Proof.
  intros H. apply ht_create_Done in H as (prime & Hp & [= ->]).
  pose proof (g_primes_range _ _ Hp) as Hr.
  assert (H0 : 0 <= uint32_t rank) by (apply Z.mod_pos_bound; lia).
  split; [|split; [apply entries_replicate|]];
    [|split; [reflexivity|split; [apply occupied_replicate|reflexivity]]].
  constructor; simpl.
  - apply invariant_A_spec. simpl. auto.
  - rewrite length_replicate. lia.
  - lia.
  - intros i chain n Hi Hn. apply lookup_replicate in Hi as [-> _].
    inversion Hn.
Qed.

(** *** The in-place part of the insert *)

Lemma concat_insert_cons {A : Type} (items : list (list A)) (i : nat)
      (chain : list A) (x : A) :
  items !! i = Some chain ->
  concat (<[i := x :: chain]> items) ≡ₚ x :: concat items.
Proof.
  intros H. pose proof (lookup_lt_Some _ _ _ H) as Hlt.
  rewrite insert_take_drop by assumption.
  rewrite <- (take_drop_middle items i chain H) at 3.
  rewrite !concat_app. simpl.
  rewrite <- Permutation_middle. reflexivity.
Qed.

Lemma index_of_link (ht : ht_t) (key : string) (value : Z) (k : string) :
  index_of (link ht key value) k = index_of ht k.
Proof. reflexivity. Qed.

Lemma link_wf (ht : ht_t) (key : string) (value : Z) :
  wf ht ->
  wf (link ht key value) /\
  entries (link ht key value) ≡ₚ node_create key value :: entries ht.
Proof.
  intros H. pose proof (wf_capacity ht H) as Hcap.
  pose proof (wf_lookup_bucket ht key H) as Hb.
  pose proof (index_of_range ht key ltac:(lia)) as Hi.
  split.
  - constructor; simpl.
    + rewrite invariant_A_spec. simpl. apply invariant_A_spec, H.
    + rewrite length_insert. apply H.
    + pose proof (wf_size ht H).
      destruct (bucket_of ht key); [|assumption].
      unfold size_t. apply Z.mod_pos_bound. lia.
    + intros i chain n Hl Hn. rewrite index_of_link.
      destruct (decide (Z.to_nat (index_of ht key) = i)) as [<-|Hne].
      * rewrite list_lookup_insert_eq in Hl
          by (apply lookup_lt_Some in Hb; assumption).
        injection Hl as <-. apply elem_of_cons in Hn as [->|Hn].
        -- simpl. lia.
        -- apply (wf_C ht H _ _ _ Hb Hn).
      * rewrite list_lookup_insert_ne in Hl by assumption.
        apply (wf_C ht H _ _ _ Hl Hn).
  - unfold entries. simpl. now apply concat_insert_cons.
Qed.

(** *** The insert relation preserves well-formedness *)

Lemma node_create_eta (n : node_t) : node_create n.(p_key) n.(p_value) = n.
Proof. now destruct n. Qed.

Lemma inserted_rehashed_wf :
  (forall ht key value ht' log,
      inserted ht key value ht' log ->
      wf ht ->
      wf ht' /\
      entries ht' ≡ₚ node_create key value :: entries ht /\
      Forall wf log /\
      prime_index ht' = prime_index ht + Z.of_nat (List.length log))
  /\
  (forall l p_new_ht ht' log,
      rehashed l p_new_ht ht' log ->
      wf p_new_ht ->
      wf ht' /\
      entries ht' ≡ₚ l ++ entries p_new_ht /\
      Forall wf log /\
      prime_index ht' = prime_index p_new_ht + Z.of_nat (List.length log)).
Proof.
  apply inserted_rehashed_ind.
  - intros ht key value _ H. destruct (link_wf ht key value H) as [Hwf Hperm].
    split; [exact Hwf|split; [exact Hperm|split; [constructor|simpl; lia]]].
  - intros ht key value p_new_ht ht' log _ Hcreate _ IH H.
    destruct (link_wf ht key value H) as [Hwf Hperm].
    destruct (ht_create_wf _ _ Hcreate) as (Hwfp & Hent & _ & _ & Hrank).
    destruct (IH Hwfp) as (Hwf' & Hperm' & Hlog & Hrank').
    pose proof (invariant_A_prime_index ht (wf_A ht H)) as Hr.
    unfold uint32_t in Hrank. rewrite Z.mod_small in Hrank by lia.
    split; [exact Hwf'|split; [|split]].
    + rewrite Hperm', Hent, app_nil_r. exact Hperm.
    + apply Forall_app. split; [assumption|]. now constructor.
    + rewrite Hrank', Hrank, length_app. simpl. lia.
  - intros p H.
    split; [assumption|split; [reflexivity|split; [constructor|simpl; lia]]].
  - intros n l p ht1 ht2 log1 log2 _ IH1 _ IH2 H.
    destruct (IH1 H) as (Hwf1 & Hperm1 & Hlog1 & Hrank1).
    destruct (IH2 Hwf1) as (Hwf2 & Hperm2 & Hlog2 & Hrank2).
    split; [exact Hwf2|split; [|split]].
    + rewrite Hperm2, Hperm1, node_create_eta. simpl.
      symmetry. apply Permutation_middle.
    + apply Forall_app. auto.
    + rewrite Hrank2, Hrank1, length_app. lia.
Qed.

Lemma inserted_wf (ht : ht_t) (key : string) (value : Z) (ht' : ht_t)
      (log : list ht_t) :
  inserted ht key value ht' log ->
  wf ht ->
  wf ht' /\
  entries ht' ≡ₚ node_create key value :: entries ht /\
  Forall wf log /\
  prime_index ht' = prime_index ht + Z.of_nat (List.length log).
Proof. apply inserted_rehashed_wf. Qed.

Lemma rehashed_wf (l : list node_t) (p_new_ht ht' : ht_t) (log : list ht_t) :
  rehashed l p_new_ht ht' log ->
  wf p_new_ht ->
  wf ht' /\
  entries ht' ≡ₚ l ++ entries p_new_ht /\
  Forall wf log /\
  prime_index ht' = prime_index p_new_ht + Z.of_nat (List.length log).
Proof. apply inserted_rehashed_wf. Qed.

(** *** [ht_insert] and the insert relation *)

Lemma ht_destroy_Done (ht : ht_t) :
  Z.of_nat (List.length (pp_items ht)) = capacity ht ->
  ht_destroy (Some ht) = Done E_SUCCESS.
Proof.
  intros Hlen. unfold ht_destroy.
  assert (H : forall n : nat,
             (n <= List.length (pp_items ht))%nat ->
             fold_left
               (fun acc cap_idx =>
                  do _ <- acc;
                  do _ <- array_get (pp_items ht) (Z.of_nat cap_idx);
                  Done tt)
               (seq 0 n) (Done tt) = Done tt).
  { induction n as [|n IH]; intros Hn; [reflexivity|].
    rewrite seq_S, fold_left_app, IH by lia. simpl.
    destruct (array_get_in_range (pp_items ht) (Z.of_nat n)) as [x ->];
      [lia|reflexivity]. }
  rewrite H by lia. reflexivity.
Qed.

Arguments ht_destroy : simpl never.
Arguments ht_create : simpl never.
Arguments ht_insert : simpl never.
Arguments ht_delete : simpl never.
Arguments ht_search : simpl never.
Arguments load_factor_gt_0_8 : simpl never.

Lemma ht_insert_rec_unfold (fuel : nat) (ht : ht_t) (key : string) (value : Z) :
  wf ht ->
  ht_insert_rec fuel (Some (Some ht)) (Some key) value
  = if load_factor_gt_0_8 (size (link ht key value)) (capacity ht) then
      match fuel with
      | O => OutOfFuel
      | S fuel =>
          do p_new_ht <- ht_create (prime_index ht + 1);
          do r <- rehash_buckets
                    (fun p k v => ht_insert_rec fuel (Some p) (Some k) v)
                    (link ht key value)
                    (seq 0 (Z.to_nat (capacity ht))) p_new_ht [];
          let '(exit, p_new_ht, log) := r in
          match exit with
          | Some retval => Done (retval, Some (link ht key value), log)
          | None => Done (E_SUCCESS, p_new_ht, log ++ [link ht key value])
          end
      end
    else Done (E_SUCCESS, Some (link ht key value), []).
Proof.
  intros H. pose proof (wf_capacity ht H) as Hcap.
  pose proof (wf_array_get_bucket ht key H) as Hget.
  assert (Hd : ht_destroy (Some (link ht key value)) = Done E_SUCCESS).
  { apply ht_destroy_Done. simpl. rewrite length_insert. apply H. }
  assert (H0 : (capacity ht =? 0) = false) by (apply Z.eqb_neq; lia).
  unfold index_of in Hget. unfold link, index_of, node_create in Hd.
  unfold link, index_of, node_create.
  cbn [size capacity prime_index pp_items].
  destruct fuel as [|fuel]; cbn [ht_insert_rec];
    rewrite hash_str_Some; cbn [bind]; rewrite H0, Hget; cbn [bind];
    cbn [size capacity prime_index pp_items];
    unfold node_create;
    (destruct (load_factor_gt_0_8 _ _); [|reflexivity]).
  - reflexivity.
  - destruct (ht_create (prime_index ht + 1)) as [p_new_ht| |]; cbn [bind];
      try reflexivity.
    destruct (rehash_buckets _ _ _ _ _) as [[[[retval|] p] log]| |]; cbn [bind];
      try reflexivity.
    rewrite Hd. reflexivity.
Qed.

Lemma rehash_chain_app (insert : option ht_t -> string -> Z -> result insert_result)
      (l1 l2 : list node_t) (p_new_ht : option ht_t) (log : list ht_t) :
  rehash_chain insert (l1 ++ l2) p_new_ht log
  = do r <- rehash_chain insert l1 p_new_ht log;
    match r with
    | (Some _, _, _) => Done r
    | (None, p_new_ht, log) => rehash_chain insert l2 p_new_ht log
    end.
Proof.
  revert p_new_ht log. induction l1 as [|n l1 IH]; intros p log; simpl.
  - reflexivity.
  - destruct (insert p (p_key n) (p_value n)) as [[[retval p'] d]| |]; simpl;
      try reflexivity.
    destruct (error_t_eqb retval E_SUCCESS); [apply IH|reflexivity].
Qed.

(** The bucket loop visits the entries in the order of [entries]. *)
Lemma rehash_buckets_entries
      (insert : option ht_t -> string -> Z -> result insert_result)
      (ht : ht_t) (p_new_ht : option ht_t) (log : list ht_t) :
  rehash_buckets insert ht (seq 0 (List.length (pp_items ht))) p_new_ht log
  = rehash_chain insert (entries ht) p_new_ht log.
Proof.
  unfold entries.
  assert (H : forall items2 items1 p log,
             pp_items ht = items1 ++ items2 ->
             rehash_buckets insert ht
               (seq (List.length items1) (List.length items2)) p log
             = rehash_chain insert (concat items2) p log).
  { induction items2 as [|c items2 IH]; intros items1 p l Hsplit.
    - reflexivity.
    - simpl.
      assert (Hget : array_get (pp_items ht) (Z.of_nat (List.length items1))
                     = Done c).
      { apply array_get_Done. split; [lia|]. rewrite Nat2Z.id, Hsplit.
        now rewrite list_lookup_middle. }
      rewrite Hget, rehash_chain_app. simpl.
      destruct (rehash_chain insert c p l) as [[[[retval|] p'] l']| |]; simpl;
        try reflexivity.
      specialize (IH (items1 ++ [c]) p' l').
      rewrite length_app, Nat.add_1_r in IH. apply IH.
      now rewrite <- app_assoc. }
  apply (H (pp_items ht) []). reflexivity.
Qed.

Lemma wf_seq_capacity (ht : ht_t) (key : string) (value : Z) :
  wf ht ->
  seq 0 (Z.to_nat (capacity ht))
  = seq 0 (List.length (pp_items (link ht key value))).
Proof.
  intros H. simpl. rewrite length_insert, <- (wf_array ht H).
  now rewrite Nat2Z.id.
Qed.

(** Whatever [ht_insert] returns on a well-formed table, it is a success
    described by the insert relation. *)
Lemma ht_insert_rec_inserted (fuel : nat) :
  forall (ht : ht_t) (key : string) (value : Z) (r : insert_result),
    wf ht ->
    ht_insert_rec fuel (Some (Some ht)) (Some key) value = Done r ->
    exists ht' log,
      r = (E_SUCCESS, Some ht', log) /\ inserted ht key value ht' log.
Proof.
  induction fuel as [|fuel IH]; intros ht key value r H;
    rewrite ht_insert_rec_unfold by assumption;
    destruct (load_factor_gt_0_8 (size (link ht key value)) (capacity ht))
      eqn:Hload;
    try discriminate;
    try (intros [= <-]; eexists _, _; split;
         [reflexivity|now apply inserted_in_place]).
  assert (Hloop : forall l p log0 r,
             wf p ->
             rehash_chain (fun p k v => ht_insert_rec fuel (Some p) (Some k) v)
                          l (Some p) log0 = Done r ->
             exists p' log1,
               r = (None, Some p', log0 ++ log1) /\ rehashed l p p' log1).
  { induction l as [|n l IHl]; intros p log0 r0 Hp; simpl.
    - intros [= <-]. exists p, []. rewrite app_nil_r. split; constructor.
    - destruct (ht_insert_rec fuel (Some (Some p)) (Some (p_key n)) (p_value n))
        as [r1| |] eqn:E1; simpl; try discriminate.
      destruct (IH _ _ _ _ Hp E1) as (p1 & log1 & -> & Hins). simpl.
      intros Hrest.
      destruct (inserted_wf _ _ _ _ _ Hins Hp) as (Hp1 & _).
      destruct (IHl _ _ _ Hp1 Hrest) as (p2 & log2 & -> & Hreh).
      exists p2, (log1 ++ log2). rewrite app_assoc. split; [reflexivity|].
      econstructor; eassumption. }
  destruct (ht_create (prime_index ht + 1)) as [[p|]| |] eqn:Hcreate; simpl;
    try discriminate.
  - destruct (ht_create_wf _ _ Hcreate) as (Hp & _).
    rewrite (wf_seq_capacity ht key value H), rehash_buckets_entries.
    destruct (rehash_chain _ _ _ _) as [r0| |] eqn:Hr; simpl; try discriminate.
    destruct (Hloop _ _ _ _ Hp Hr) as (p' & log1 & -> & Hreh). simpl.
    intros [= <-]. eexists _, _. split; [reflexivity|].
    eapply inserted_resized; eassumption.
  - apply ht_create_Done in Hcreate as (? & _ & [=]).
Qed.

(** Conversely, the relation is what [ht_insert] computes, given one unit
    of fuel for each table it destroys. *)
Lemma inserted_rehashed_ht_insert_rec :
  (forall ht key value ht' log,
      inserted ht key value ht' log ->
      wf ht ->
      forall fuel,
        (List.length log <= fuel)%nat ->
        ht_insert_rec fuel (Some (Some ht)) (Some key) value
        = Done (E_SUCCESS, Some ht', log))
  /\
  (forall l p ht' log,
      rehashed l p ht' log ->
      wf p ->
      forall fuel log0,
        (List.length log <= fuel)%nat ->
        rehash_chain (fun p k v => ht_insert_rec fuel (Some p) (Some k) v)
                     l (Some p) log0
        = Done (None, Some ht', log0 ++ log)).
Proof.
  apply inserted_rehashed_ind.
  - intros ht key value Hload H fuel _.
    rewrite ht_insert_rec_unfold, Hload by assumption. reflexivity.
  - intros ht key value p ht' log Hload Hcreate _ IH H fuel Hfuel.
    rewrite length_app in Hfuel. simpl in Hfuel.
    destruct fuel as [|fuel]; [lia|].
    rewrite ht_insert_rec_unfold, Hload, Hcreate by assumption. simpl.
    destruct (ht_create_wf _ _ Hcreate) as (Hp & _).
    rewrite (wf_seq_capacity ht key value H), rehash_buckets_entries.
    rewrite (IH Hp fuel []) by lia. reflexivity.
  - intros p _ fuel log0 _. simpl. now rewrite app_nil_r.
  - intros n l p ht1 ht2 log1 log2 Hins IH1 _ IH2 Hp fuel log0 Hfuel.
    rewrite length_app in Hfuel. simpl.
    rewrite (IH1 Hp fuel) by lia. simpl.
    destruct (inserted_wf _ _ _ _ _ Hins Hp) as (Hp1 & _).
    rewrite (IH2 Hp1 fuel) by lia. now rewrite app_assoc.
Qed.

Lemma ht_insert_inserted (ht : ht_t) (key : string) (value : Z)
      (r : insert_result) :
  wf ht ->
  ht_insert (Some (Some ht)) (Some key) value = Done r ->
  exists ht' log,
    r = (E_SUCCESS, Some ht', log) /\ inserted ht key value ht' log.
Proof. apply ht_insert_rec_inserted. Qed.

Lemma inserted_ht_insert (ht : ht_t) (key : string) (value : Z) (ht' : ht_t)
      (log : list ht_t) :
  wf ht ->
  inserted ht key value ht' log ->
  ht_insert (Some (Some ht)) (Some key) value = Done (E_SUCCESS, Some ht', log).
Proof.
  intros H Hins. apply inserted_rehashed_ht_insert_rec; try assumption.
  destruct (inserted_wf _ _ _ _ _ Hins H) as (H' & _ & _ & Hrank).
  pose proof (invariant_A_prime_index ht (wf_A ht H)).
  pose proof (invariant_A_prime_index ht' (wf_A ht' H')).
  simpl. lia.
Qed.

(** The recursion bound of the model is never reached. *)
Lemma ht_insert_rec_fuel (fuel : nat) :
  forall (ht : ht_t) (key : string) (value : Z),
    wf ht ->
    25 - prime_index ht < Z.of_nat fuel ->
    ht_insert_rec fuel (Some (Some ht)) (Some key) value <> OutOfFuel.
Proof.
  induction fuel as [|fuel IH]; intros ht key value H Hfuel;
    pose proof (invariant_A_prime_index ht (wf_A ht H)) as Hrank;
    [lia|].
  rewrite ht_insert_rec_unfold by assumption.
  destruct (load_factor_gt_0_8 _ _); [|discriminate].
  assert (Hloop : forall l p log0,
             wf p ->
             25 - prime_index p < Z.of_nat fuel ->
             rehash_chain (fun p k v => ht_insert_rec fuel (Some p) (Some k) v)
                          l (Some p) log0 <> OutOfFuel).
  { induction l as [|n l IHl]; intros p log0 Hp Hpf; simpl; [discriminate|].
    destruct (ht_insert_rec fuel (Some (Some p)) (Some (p_key n)) (p_value n))
      as [r1| |] eqn:E1; simpl; try discriminate.
    - destruct (ht_insert_rec_inserted _ _ _ _ _ Hp E1)
        as (p1 & log1 & -> & Hins). simpl.
      destruct (inserted_wf _ _ _ _ _ Hins Hp) as (Hp1 & _ & _ & Hr1).
      apply IHl; [assumption|lia].
    - now apply IH in E1. }
  destruct (ht_create (prime_index ht + 1)) as [[p|]| |] eqn:Hcreate; simpl;
    try discriminate.
  - destruct (ht_create_wf _ _ Hcreate) as (Hp & _ & _ & _ & Hr).
    unfold uint32_t in Hr. rewrite Z.mod_small in Hr by lia.
    rewrite (wf_seq_capacity ht key value H), rehash_buckets_entries.
    specialize (Hloop (entries (link ht key value)) p [] Hp ltac:(lia)).
    destruct (rehash_chain _ _ _ _) as [[[[retval|] p'] log]| |]; simpl;
      try discriminate. contradiction.
  - apply ht_create_Done in Hcreate as (? & _ & [=]).
  - now apply ht_create_fuel in Hcreate.
Qed.

(** *** Search *)

Lemma ht_search_bucket (ht : ht_t) (key : string) :
  wf ht ->
  ht_search (Some ht) (Some key)
  = Done (search_chain key (bucket_of ht key)).
Proof.
  intros H. pose proof (wf_capacity ht H) as Hcap.
  pose proof (wf_array_get_bucket ht key H) as Hget.
  assert (H0 : (capacity ht =? 0) = false) by (apply Z.eqb_neq; lia).
  unfold ht_search. rewrite hash_str_Some. cbn [bind]. rewrite H0.
  fold (index_of ht key). now rewrite Hget.
Qed.

(** The nodes of a chain that [ht_search] takes for [key]. *)
Lemma search_chain_filter (key : string) (l : list node_t) :
  search_chain key l
  = search_chain key (List.filter (fun n => strcmp key n.(p_key) =? 0) l).
Proof.
  induction l as [|n l IH]; simpl; [reflexivity|].
  destruct (strcmp key (p_key n) =? 0) eqn:E; simpl; [now rewrite E|exact IH].
Qed.

Lemma filter_nil_iff {A : Type} (f : A -> bool) (l : list A) :
  (forall x, x ∈ l -> f x = false) -> List.filter f l = [].
Proof.
  induction l as [|x l IH]; intros H; simpl; [reflexivity|].
  rewrite (H x) by constructor. apply IH. intros y Hy. apply H. now constructor.
Qed.

(** In a well-formed table the nodes equal to [key] all sit in the bucket
    of [key]: the other buckets hold none. *)
Lemma wf_other_bucket (ht : ht_t) (key : string) (i : nat)
      (chain : list node_t) (n : node_t) :
  wf ht ->
  pp_items ht !! i = Some chain ->
  i <> Z.to_nat (index_of ht key) ->
  n ∈ chain ->
  (strcmp key n.(p_key) =? 0) = false.
Proof.
  intros H Hi Hne Hn. apply Z.eqb_neq. intros E.
  apply hash_of_strcmp in E.
  pose proof (wf_C ht H _ _ _ Hi Hn) as Hc.
  unfold index_of in *. rewrite <- E in Hc. lia.
Qed.

Lemma filter_concat_other {A : Type} (f : A -> bool) (items : list (list A)) :
  (forall chain x, chain ∈ items -> x ∈ chain -> f x = false) ->
  List.filter f (concat items) = [].
Proof.
  intros H. apply filter_nil_iff. intros x Hx.
  apply list_elem_of_In, in_concat in Hx as (chain & Hc & Hx).
  apply (H chain); now apply list_elem_of_In.
Qed.

Lemma wf_filter_entries (ht : ht_t) (key : string) :
  wf ht ->
  List.filter (fun n => strcmp key n.(p_key) =? 0) (entries ht)
  = List.filter (fun n => strcmp key n.(p_key) =? 0) (bucket_of ht key).
Proof.
  intros H. pose proof (wf_lookup_bucket ht key H) as Hb.
  unfold entries.
  rewrite <- (take_drop_middle _ _ _ Hb) at 1.
  rewrite concat_app. simpl. rewrite !List.filter_app.
  rewrite !filter_concat_other, app_nil_r; [reflexivity| |].
  - intros chain n Hc Hn. apply list_elem_of_lookup in Hc as [j Hj].
    pose proof (lookup_lt_Some _ _ _ Hj) as Hlt.
    rewrite lookup_drop in Hj.
    apply (wf_other_bucket ht key _ chain n H Hj); [lia|assumption].
  - intros chain n Hc Hn. apply list_elem_of_lookup in Hc as [j Hj].
    pose proof (lookup_lt_Some _ _ _ Hj) as Hlt. rewrite length_take in Hlt.
    rewrite lookup_take_lt in Hj by lia.
    apply (wf_other_bucket ht key _ chain n H Hj); [lia|assumption].
Qed.

(** [ht_search] returns the value of the first entry of the table that
    [strcmp] equates to the key. *)
Lemma ht_search_entries (ht : ht_t) (key : string) :
  wf ht ->
  ht_search (Some ht) (Some key) = Done (search_chain key (entries ht)).
Proof.
  intros H. rewrite ht_search_bucket by assumption. f_equal.
  rewrite search_chain_filter, (search_chain_filter key (entries ht)).
  now rewrite wf_filter_entries.
Qed.

(** *** Delete *)

Lemma ht_delete_bucket (ht : ht_t) (key : string) :
  wf ht ->
  ht_delete (Some ht) (Some key)
  = Done match delete_chain key (bucket_of ht key) with
         | Some chain =>
             (E_SUCCESS,
              Some {| pp_items := <[Z.to_nat (index_of ht key) := chain]>
                                    (pp_items ht);
                      capacity := capacity ht;
                      size := size_t (size ht - 1);
                      prime_index := prime_index ht |})
         | None => (E_NODE_NOT_FOUND, Some ht)
         end.
Proof.
  intros H. pose proof (wf_capacity ht H) as Hcap.
  pose proof (wf_array_get_bucket ht key H) as Hget.
  assert (H0 : (capacity ht =? 0) = false) by (apply Z.eqb_neq; lia).
  unfold ht_delete. rewrite hash_str_Some. cbn [bind]. rewrite H0.
  fold (index_of ht key). rewrite Hget. cbn [bind].
  now destruct (delete_chain key (bucket_of ht key)).
Qed.

(** [delete_chain] unlinks the first node that [key] is a prefix of. *)
Lemma delete_chain_Some (key : string) (l l' : list node_t) :
  delete_chain key l = Some l' <->
  exists pre n post,
    l = pre ++ n :: post /\ l' = pre ++ post /\
    is_prefix (cstr key) (cstr n.(p_key)) = true /\
    Forall (fun m => is_prefix (cstr key) (cstr m.(p_key)) = false) pre.
Proof.
  revert l'. induction l as [|n l IH]; intros l'; simpl.
  - split; [discriminate|]. intros (pre & m & post & H & _).
    now destruct pre.
  - destruct (Z.eqb_spec (strncmp key (p_key n) (strlen key)) 0) as [E|E].
    + apply strncmp_strlen_0_iff in E. split.
      * intros [= <-]. exists [], n, l. auto.
      * intros (pre & m & post & Hl & -> & Hm & Hpre).
        destruct pre as [|x pre]; simpl in Hl; injection Hl as -> ->.
        -- reflexivity.
        -- apply Forall_cons in Hpre as [Hx _]. congruence.
    + rewrite strncmp_strlen_0_iff in E.
      apply not_true_is_false in E.
      destruct (delete_chain key l) as [rest|]; split.
      * intros [= <-].
        destruct (proj1 (IH rest) eq_refl) as (pre & m & post & -> & -> & Hm & Hpre).
        exists (n :: pre), m, post. repeat split; auto.
      * intros (pre & m & post & Hl & -> & Hm & Hpre).
        destruct pre as [|x pre]; simpl in Hl; injection Hl as -> ->;
          [congruence|].
        apply Forall_cons in Hpre as [_ Hpre]. f_equal. simpl. f_equal.
        assert (Some rest = Some (pre ++ post)) as [= ->]; [|reflexivity].
        apply IH. exists pre, m, post. auto.
      * discriminate.
      * intros (pre & m & post & Hl & -> & Hm & Hpre). exfalso.
        destruct pre as [|x pre]; simpl in Hl; injection Hl as -> ->;
          [congruence|].
        apply Forall_cons in Hpre as [_ Hpre].
        assert (None = Some (pre ++ post)) as [=].
        apply IH. exists pre, m, post. auto.
Qed.

Lemma delete_chain_None (key : string) (l : list node_t) :
  delete_chain key l = None <->
  Forall (fun m => is_prefix (cstr key) (cstr m.(p_key)) = false) l.
Proof.
  induction l as [|n l IH]; simpl.
  - split; auto.
  - destruct (Z.eqb_spec (strncmp key (p_key n) (strlen key)) 0) as [E|E].
    + apply strncmp_strlen_0_iff in E. split; [discriminate|].
      intros H. apply Forall_cons in H as [H _]. congruence.
    + rewrite strncmp_strlen_0_iff in E. apply not_true_is_false in E.
      destruct (delete_chain key l).
      * split; [discriminate|]. intros H. apply Forall_cons in H as [_ H].
        now apply IH in H.
      * split; [|reflexivity]. intros _. constructor; [assumption|].
        now apply IH.
Qed.

Lemma filter_insert_length {A : Type} (f : A -> bool) (items : list A)
      (i : nat) (c c' : A) :
  items !! i = Some c ->
  (List.length (List.filter f (<[i := c']> items)) + (if f c then 1 else 0)
   = List.length (List.filter f items) + (if f c' then 1 else 0))%nat.
Proof.
  intros H. pose proof (lookup_lt_Some _ _ _ H) as Hlt.
  rewrite insert_take_drop by assumption.
  rewrite <- (take_drop_middle items i c H) at 3.
  rewrite !List.filter_app, !length_app. simpl.
  destruct (f c), (f c'); simpl; lia.
Qed.

Lemma occupied_le_capacity (ht : ht_t) :
  wf ht -> Z.of_nat (occupied ht) <= capacity ht.
Proof.
  intros H. rewrite <- (wf_array ht H). unfold occupied.
  pose proof (List.filter_length_le is_occupied (pp_items ht)). lia.
Qed.

Lemma ht_delete_wf (ht : ht_t) (key : string) (e : error_t) (ht' : ht_t) :
  wf ht ->
  ht_delete (Some ht) (Some key) = Done (e, Some ht') ->
  wf ht' /\ capacity ht' = capacity ht /\ prime_index ht' = prime_index ht.
Proof.
  intros H. rewrite ht_delete_bucket by assumption.
  destruct (delete_chain key (bucket_of ht key)) as [chain|] eqn:E;
    intros [= <- <-]; [|auto].
  split; [|auto].
  pose proof (wf_lookup_bucket ht key H) as Hb.
  apply delete_chain_Some in E as (pre & m & post & Hl & -> & _).
  constructor; simpl.
  - rewrite invariant_A_spec. simpl. apply invariant_A_spec, H.
  - rewrite length_insert. apply H.
  - unfold size_t. apply Z.mod_pos_bound. lia.
  - intros i chain n Hi Hn.
    change (index_of ht n.(p_key) = Z.of_nat i).
    destruct (decide (Z.to_nat (index_of ht key) = i)) as [<-|Hne].
    + rewrite list_lookup_insert_eq in Hi
        by (apply lookup_lt_Some in Hb; assumption).
      injection Hi as <-. apply (wf_C ht H _ _ _ Hb).
      rewrite Hl. apply elem_of_app in Hn as [Hn|Hn]; apply elem_of_app;
        [now left|right; now constructor].
    + rewrite list_lookup_insert_ne in Hi by assumption.
      apply (wf_C ht H _ _ _ Hi Hn).
Qed.

(** *** Invariant B along inserts *)

Lemma link_occupied (ht : ht_t) (key : string) (value : Z) :
  wf ht ->
  occupied (link ht key value)
  = match bucket_of ht key with
    | [] => S (occupied ht)
    | _ :: _ => occupied ht
    end.
Proof.
  intros H. pose proof (wf_lookup_bucket ht key H) as Hb.
  unfold occupied. simpl.
  pose proof (filter_insert_length is_occupied (pp_items ht) _ _
                (node_create key value :: bucket_of ht key) Hb) as E.
  simpl in E. destruct (bucket_of ht key); simpl in E; lia.
Qed.

Lemma invariant_B_spec (ht : ht_t) :
  invariant_B ht = true <-> size ht = Z.of_nat (occupied ht).
Proof. apply Z.eqb_eq. Qed.

Lemma link_invariant_B (ht : ht_t) (key : string) (value : Z) :
  wf ht -> invariant_B ht = true -> invariant_B (link ht key value) = true.
Proof.
  rewrite !invariant_B_spec. intros H HB.
  rewrite link_occupied by assumption. simpl.
  pose proof (occupied_le_capacity ht H). pose proof (wf_capacity ht H).
  destruct (bucket_of ht key); [|assumption].
  unfold size_t. rewrite Z.mod_small by lia. lia.
Qed.

Lemma inserted_rehashed_invariant_B :
  (forall ht key value ht' log,
      inserted ht key value ht' log ->
      wf ht -> invariant_B ht = true -> invariant_B ht' = true)
  /\
  (forall l p_new_ht ht' log,
      rehashed l p_new_ht ht' log ->
      wf p_new_ht -> invariant_B p_new_ht = true -> invariant_B ht' = true).
Proof.
  apply inserted_rehashed_ind.
  - intros ht key value _ H HB. now apply link_invariant_B.
  - intros ht key value p ht' log _ Hcreate _ IH H _.
    destruct (ht_create_wf _ _ Hcreate) as (Hp & _ & Hsize & Hocc & _).
    apply IH; [assumption|]. apply invariant_B_spec. now rewrite Hsize, Hocc.
  - auto.
  - intros n l p ht1 ht2 log1 log2 Hins IH1 _ IH2 Hp HB.
    destruct (inserted_wf _ _ _ _ _ Hins Hp) as (Hp1 & _). auto.
Qed.

(** After a resize [size] counts the occupied buckets, whatever it was. *)
Lemma inserted_resized_invariant_B (ht : ht_t) (key : string) (value : Z)
      (ht' : ht_t) (log : list ht_t) :
  inserted ht key value ht' log ->
  wf ht -> log <> [] -> invariant_B ht' = true.
Proof.
  intros Hins H Hlog. inversion Hins as [|? ? ? p ? log' _ Hcreate Hreh]; subst.
  - contradiction.
  - destruct (ht_create_wf _ _ Hcreate) as (Hp & _ & Hsize & Hocc & _).
    apply (proj2 inserted_rehashed_invariant_B _ _ _ _ Hreh Hp).
    apply invariant_B_spec. now rewrite Hsize, Hocc.
Qed.

(** [search_chain] finds the first node whose key is the same C string. *)
Lemma search_chain_find (key : string) (l : list node_t) :
  search_chain key l
  = match List.find (fun n => String.eqb (cstr key) (cstr n.(p_key))) l with
    | Some n => n.(p_value)
    | None => NULL
    end.
Proof.
  induction l as [|n l IH]; simpl; [reflexivity|].
  destruct (Z.eqb_spec (strcmp key (p_key n)) 0) as [E|E];
    rewrite strcmp_0_iff in E.
  - now rewrite (proj2 (String.eqb_eq _ _) E).
  - now rewrite (proj2 (String.eqb_neq _ _) E).
Qed.

(** *** Sequences of operations *)

Lemma bucket_of_link (ht : ht_t) (k : string) (v : Z) (key : string) :
  wf ht ->
  bucket_of (link ht k v) key
  = if decide (index_of ht k = index_of ht key)
    then node_create k v :: bucket_of ht key
    else bucket_of ht key.
Proof.
  intros H. pose proof (wf_lookup_bucket ht k H) as Hb.
  pose proof (wf_capacity ht H) as Hcap.
  pose proof (index_of_range ht k ltac:(lia)).
  pose proof (index_of_range ht key ltac:(lia)).
  unfold bucket_of at 1. rewrite index_of_link. cbn [link pp_items].
  destruct (decide (index_of ht k = index_of ht key)) as [E|E].
  - rewrite <- E, list_lookup_insert_eq
      by (apply lookup_lt_Some in Hb; assumption).
    simpl. unfold bucket_of. now rewrite E.
  - rewrite list_lookup_insert_ne by lia. reflexivity.
Qed.

Lemma strcmp_sym_0 (s1 s2 : string) : strcmp s1 s2 = 0 -> strcmp s2 s1 = 0.
Proof. rewrite !strcmp_0_iff. auto. Qed.

Lemma inserted_nil (ht : ht_t) (key : string) (value : Z) (ht' : ht_t) :
  inserted ht key value ht' [] -> ht' = link ht key value.
Proof.
  intros H. inversion H as [|? ? ? ? ? log _ _ _ Hlog]; [reflexivity|].
  now destruct log.
Qed.

(** The entries [ht_search] takes for [key], in the order it meets them. *)
Lemma ht_search_matching (ht : ht_t) (key : string) :
  wf ht ->
  ht_search (Some ht) (Some key)
  = Done (search_chain key
            (List.filter (fun n => strcmp key n.(p_key) =? 0)
                         (bucket_of ht key))).
Proof.
  intros H. rewrite ht_search_bucket by assumption.
  now rewrite search_chain_filter.
Qed.

(** An operation that leaves [key] alone and does not resize the table
    leaves the entries of [key] as they are. *)
Lemma run_step_matching (ht : ht_t) (key : string) (op : operation) (ht' : ht_t) :
  wf ht ->
  leaves_alone key op = true ->
  run [op] ht = Done ht' ->
  wf ht' /\ prime_index ht <= prime_index ht' /\
  (prime_index ht' = prime_index ht ->
   List.filter (fun n => strcmp key n.(p_key) =? 0) (bucket_of ht' key)
   = List.filter (fun n => strcmp key n.(p_key) =? 0) (bucket_of ht key)).
Proof.
  intros H Hop. destruct op as [k v|k]; simpl in *.
  - destruct (ht_insert (Some (Some ht)) (Some k) v) as [r| |] eqn:E;
      try discriminate.
    destruct (ht_insert_inserted _ _ _ _ H E) as (ht1 & log & -> & Hrel).
    simpl. intros [= <-].
    destruct (inserted_wf _ _ _ _ _ Hrel H) as (H1 & _ & _ & Hrank).
    split; [assumption|]. split; [lia|]. intros Hsame.
    assert (log = []) by (destruct log; [reflexivity|simpl in Hrank; lia]).
    subst log. apply inserted_nil in Hrel. subst ht1.
    rewrite bucket_of_link by assumption.
    destruct (decide (index_of ht k = index_of ht key)); [|reflexivity].
    simpl. apply negb_true_iff, Z.eqb_neq in Hop.
    destruct (Z.eqb_spec (strcmp key k) 0) as [E0|_]; [|reflexivity].
    apply strcmp_sym_0 in E0. contradiction.
  - rewrite ht_delete_bucket by assumption. simpl.
    destruct (delete_chain k (bucket_of ht k)) as [chain|] eqn:E;
      intros [= <-]; [|auto with zarith].
    assert (Hd : ht_delete (Some ht) (Some k)
                 = Done (E_SUCCESS,
                         Some {| pp_items := <[Z.to_nat (index_of ht k) := chain]>
                                               (pp_items ht);
                                 capacity := capacity ht;
                                 size := size_t (size ht - 1);
                                 prime_index := prime_index ht |})).
    { rewrite ht_delete_bucket by assumption. now rewrite E. }
    destruct (ht_delete_wf _ _ _ _ H Hd) as (H1 & _ & _).
    split; [assumption|]. split; [simpl; lia|]. intros _.
    pose proof (wf_lookup_bucket ht k H) as Hb.
    pose proof (wf_capacity ht H) as Hcap.
    pose proof (index_of_range ht k ltac:(lia)).
    pose proof (index_of_range ht key ltac:(lia)).
    unfold bucket_of at 1. unfold index_of at 1. cbn [pp_items capacity].
    fold (index_of ht key).
    destruct (decide (index_of ht k = index_of ht key)) as [Ei|Ei].
    + rewrite <- Ei, list_lookup_insert_eq
        by (apply lookup_lt_Some in Hb; assumption).
      simpl.
      assert (bucket_of ht key = bucket_of ht k) as ->
          by (unfold bucket_of; now rewrite Ei).
      apply delete_chain_Some in E as (pre & n & post & -> & -> & Hn & _).
      rewrite !List.filter_app. simpl.
      destruct (Z.eqb_spec (strcmp key (p_key n)) 0) as [E0|_]; [|reflexivity].
      exfalso. apply negb_true_iff, Z.eqb_neq in Hop. apply Hop.
      apply strncmp_strlen_0_iff. apply strcmp_0_iff in E0.
      now rewrite E0.
    + rewrite list_lookup_insert_ne by lia. reflexivity.
Qed.

Lemma run_cons (op : operation) (ops : list operation) (ht : ht_t) :
  run (op :: ops) ht = do ht' <- run [op] ht; run ops ht'.
Proof.
  destruct op as [k v|k]; simpl.
  - destruct (ht_insert _ _ _) as [[[e [p|]] log]| |]; simpl;
      try reflexivity; now destruct (run ops p).
  - destruct (ht_delete _ _) as [[e [p|]]| |]; simpl;
      try reflexivity; now destruct (run ops p).
Qed.

Lemma run_matching (ops : list operation) :
  forall (ht : ht_t) (key : string) (ht' : ht_t),
    wf ht ->
    forallb (leaves_alone key) ops = true ->
    run ops ht = Done ht' ->
    wf ht' /\ prime_index ht <= prime_index ht' /\
    (prime_index ht' = prime_index ht ->
     List.filter (fun n => strcmp key n.(p_key) =? 0) (bucket_of ht' key)
     = List.filter (fun n => strcmp key n.(p_key) =? 0) (bucket_of ht key)).
Proof.
  induction ops as [|op ops IH]; intros ht key ht' H Hops.
  - intros [= <-]. auto with zarith.
  - simpl in Hops. apply andb_prop in Hops as [Hop Hops].
    rewrite run_cons.
    destruct (run [op] ht) as [ht1| |] eqn:E1; simpl; try discriminate.
    intros Hrun.
    destruct (run_step_matching _ _ _ _ H Hop E1) as (H1 & Hr1 & Hm1).
    destruct (IH _ _ _ H1 Hops Hrun) as (H' & Hr' & Hm').
    split; [assumption|]. split; [lia|]. intros Hsame.
    rewrite Hm', Hm1 by lia. reflexivity.
Qed.

(** Across resizes the entries of a key that is left alone are kept as a
    collection; their order in the chain is not. *)
Lemma filter_Permutation_list {A : Type} (f : A -> bool) (l l' : list A) :
  l ≡ₚ l' -> List.filter f l ≡ₚ List.filter f l'.
Proof.
  induction 1 as [|x l l' _ IH|x y l|l l' l'' _ IH1 _ IH2]; simpl.
  - reflexivity.
  - destruct (f x); [now constructor|assumption].
  - destruct (f x), (f y); try reflexivity. apply perm_swap.
  - now rewrite IH1.
Qed.

Lemma run_step_entries (ht : ht_t) (key : string) (op : operation)
      (ht' : ht_t) :
  wf ht ->
  leaves_alone key op = true ->
  run [op] ht = Done ht' ->
  wf ht' /\
  List.filter (fun n => strcmp key n.(p_key) =? 0) (entries ht')
  ≡ₚ List.filter (fun n => strcmp key n.(p_key) =? 0) (entries ht).
Proof.
  intros H Hop Hrun.
  destruct (run_step_matching _ _ _ _ H Hop Hrun) as (H' & _ & Hm).
  split; [exact H'|]. destruct op as [k v|k]; simpl in Hrun, Hop.
  - destruct (ht_insert (Some (Some ht)) (Some k) v) as [r| |] eqn:E;
      try discriminate.
    destruct (ht_insert_inserted _ _ _ _ H E) as (ht1 & log & -> & Hrel).
    simpl in Hrun. injection Hrun as <-.
    destruct (inserted_wf _ _ _ _ _ Hrel H) as (_ & Hperm & _).
    rewrite (filter_Permutation_list _ _ _ Hperm). simpl.
    apply negb_true_iff, Z.eqb_neq in Hop.
    destruct (Z.eqb_spec (strcmp key k) 0) as [E0|_]; [|reflexivity].
    apply strcmp_sym_0 in E0. contradiction.
  - destruct (ht_delete (Some ht) (Some k)) as [[e [ht1|]]| |] eqn:E;
      simpl in Hrun; try discriminate.
    injection Hrun as <-.
    destruct (ht_delete_wf _ _ _ _ H E) as (_ & _ & Hrank).
    rewrite !wf_filter_entries by assumption. now rewrite Hm.
Qed.

Lemma run_entries (ops : list operation) :
  forall (ht : ht_t) (key : string) (ht' : ht_t),
    wf ht ->
    forallb (leaves_alone key) ops = true ->
    run ops ht = Done ht' ->
    wf ht' /\
    List.filter (fun n => strcmp key n.(p_key) =? 0) (entries ht')
    ≡ₚ List.filter (fun n => strcmp key n.(p_key) =? 0) (entries ht).
Proof.
  induction ops as [|op ops IH]; intros ht key ht' H Hops.
  - intros [= <-]. auto.
  - simpl in Hops. apply andb_prop in Hops as [Hop Hops].
    rewrite run_cons.
    destruct (run [op] ht) as [ht1| |] eqn:E1; simpl; try discriminate.
    intros Hrun.
    destruct (run_step_entries _ _ _ _ H Hop E1) as (H1 & Hm1).
    destruct (IH _ _ _ H1 Hops Hrun) as (H' & Hm').
    split; [assumption|]. now rewrite Hm', Hm1.
Qed.

(** *** Resizes *)

Lemma load_factor_gt_0_8_antimono (size size' capacity : Z) :
  0 <= size <= size' -> size' < 2 ^ 64 -> 0 < capacity < 2 ^ 64 ->
  load_factor_gt_0_8 size' capacity = false ->
  load_factor_gt_0_8 size capacity = false.
Proof.
  intros Hs Hs' Hc Hf.
  destruct (load_factor_gt_0_8 size capacity) eqn:E; [|reflexivity].
  apply (load_factor_gt_0_8_mono _ size') in E; try assumption. congruence.
Qed.

Lemma occupied_le_entries (ht : ht_t) :
  (occupied ht <= List.length (entries ht))%nat.
Proof.
  unfold occupied, entries.
  induction (pp_items ht) as [|chain items IH]; simpl; [lia|].
  rewrite length_app. destruct chain; simpl; lia.
Qed.

Lemma link_size_le (ht : ht_t) (key : string) (value : Z) :
  wf ht -> invariant_B ht = true ->
  0 <= size (link ht key value) <= Z.of_nat (List.length (entries ht)) + 1.
Proof.
  intros H HB. pose proof (link_invariant_B ht key value H HB) as HB'.
  apply invariant_B_spec in HB'. rewrite HB'.
  destruct (link_wf ht key value H) as [_ Hperm].
  pose proof (occupied_le_entries (link ht key value)) as Hle.
  rewrite Hperm in Hle. simpl in Hle. lia.
Qed.

(** An insert whose table stays below the load limit works in place. *)
Lemma inserted_below_limit (ht : ht_t) (key : string) (value : Z)
      (ht' : ht_t) (log : list ht_t) (bound : Z) :
  inserted ht key value ht' log ->
  wf ht -> invariant_B ht = true ->
  Z.of_nat (List.length (entries ht)) + 1 <= bound < 2 ^ 64 ->
  load_factor_gt_0_8 bound (capacity ht) = false ->
  log = [] /\ ht' = link ht key value.
Proof.
  intros Hins H HB Hbound Hload.
  pose proof (link_size_le ht key value H HB) as Hsize.
  pose proof (wf_capacity ht H) as Hcap.
  assert (Hf : load_factor_gt_0_8 (size (link ht key value)) (capacity ht)
               = false).
  { apply (load_factor_gt_0_8_antimono _ bound); try lia. assumption. }
  inversion Hins; subst; [auto|congruence].
Qed.

Lemma rehashed_below_limit (l : list node_t) (p ht' : ht_t) (log : list ht_t) :
  rehashed l p ht' log ->
  wf p -> invariant_B p = true ->
  Z.of_nat (List.length (entries p) + List.length l) < 2 ^ 64 ->
  load_factor_gt_0_8 (Z.of_nat (List.length (entries p) + List.length l))
                     (capacity p) = false ->
  log = [] /\ capacity ht' = capacity p /\ prime_index ht' = prime_index p.
Proof.
  induction 1 as [p|n l p ht1 ht2 log1 log2 Hins Hreh IH]; intros H HB Hlt Hload.
  - auto.
  - simpl in Hlt, Hload.
    destruct (inserted_below_limit _ _ _ _ _ _ Hins H HB
                ltac:(split; [|exact Hlt]; lia) Hload) as [-> ->].
    destruct (link_wf p (p_key n) (p_value n) H) as [H1 Hperm].
    pose proof (link_invariant_B p (p_key n) (p_value n) H HB) as HB1.
    assert (Hlen : (List.length (entries (link p (p_key n) (p_value n)))
                    + List.length l
                    = List.length (entries p) + S (List.length l))%nat).
    { rewrite Hperm. simpl. lia. }
    rewrite <- Hlen in Hlt, Hload.
    destruct (IH H1 HB1 Hlt Hload) as (-> & Hc & Hr). auto.
Qed.

(** As long as the last capacity can hold the entries below the load
    limit, every insert and every rehash returns. *)
Lemma insert_defined_aux (bound : Z) :
  bound < 2 ^ 64 ->
  load_factor_gt_0_8 bound (prime_at 25) = false ->
  forall m : nat,
    (forall p key value,
        wf p -> invariant_B p = true ->
        25 - prime_index p <= Z.of_nat m ->
        Z.of_nat (List.length (entries p)) + 1 <= bound ->
        exists ht' log, inserted p key value ht' log) /\
    (forall l p,
        wf p -> invariant_B p = true ->
        25 - prime_index p <= Z.of_nat m ->
        Z.of_nat (List.length (entries p) + List.length l) <= bound ->
        exists ht' log, rehashed l p ht' log).
Proof.
  intros Hbound Hlast.
  assert (Hsingle : forall m : nat,
             (forall l p,
                 wf p -> invariant_B p = true ->
                 25 - prime_index p <= Z.of_nat m - 1 ->
                 Z.of_nat (List.length (entries p) + List.length l) <= bound ->
                 exists ht' log, rehashed l p ht' log) ->
             forall p key value,
               wf p -> invariant_B p = true ->
               25 - prime_index p <= Z.of_nat m ->
               Z.of_nat (List.length (entries p)) + 1 <= bound ->
               exists ht' log, inserted p key value ht' log).
  { intros m IHm p key value H HB Hm He.
    destruct (load_factor_gt_0_8 (size (link p key value)) (capacity p))
      eqn:Hload; [|eexists _, _; now apply inserted_in_place].
    pose proof (invariant_A_prime_index p (wf_A p H)) as Hrank.
    pose proof (link_size_le p key value H HB) as Hsize.
    destruct (Z.eq_dec (prime_index p) 25) as [E25|Hne].
    - exfalso.
      assert (Hcap : capacity p = prime_at 25).
      { pose proof (wf_A p H) as HA. apply invariant_A_spec in HA as [_ HA].
        rewrite E25 in HA. unfold prime_at. now rewrite HA. }
      rewrite Hcap in Hload.
      rewrite (load_factor_gt_0_8_antimono _ bound) in Hload;
        [discriminate|lia|lia|vm_compute; split; reflexivity|assumption].
    - destruct (ht_create_valid (prime_index p + 1) ltac:(lia))
        as (prime & _ & Hcreate).
      destruct (ht_create_wf _ _ Hcreate) as (Hp & Hent & Hsz & Hocc & Hr).
      simpl prime_index in Hr.
      destruct (link_wf p key value H) as [_ Hperm].
      destruct (IHm (entries (link p key value)) _ Hp) as (ht' & log & Hreh).
      + apply invariant_B_spec. now rewrite Hsz, Hocc.
      + simpl. lia.
      + rewrite Hent, Hperm. simpl. lia.
      + eexists _, _. eapply inserted_resized; eassumption. }
  assert (Hlist : forall m : nat,
             (forall p key value,
                 wf p -> invariant_B p = true ->
                 25 - prime_index p <= Z.of_nat m ->
                 Z.of_nat (List.length (entries p)) + 1 <= bound ->
                 exists ht' log, inserted p key value ht' log) ->
             forall l p,
               wf p -> invariant_B p = true ->
               25 - prime_index p <= Z.of_nat m ->
               Z.of_nat (List.length (entries p) + List.length l) <= bound ->
               exists ht' log, rehashed l p ht' log).
  { intros m Hins. induction l as [|n l IHl]; intros p H HB Hm He.
    - eexists _, _. constructor.
    - simpl in He.
      destruct (Hins p (p_key n) (p_value n) H HB Hm ltac:(lia))
        as (ht1 & log1 & H1).
      destruct (inserted_wf _ _ _ _ _ H1 H) as (Hwf1 & Hperm1 & _ & Hrank1).
      pose proof (proj1 inserted_rehashed_invariant_B _ _ _ _ _ H1 H HB) as HB1.
      destruct (IHl ht1 Hwf1 HB1) as (ht2 & log2 & H2).
      + lia.
      + rewrite Hperm1. simpl. lia.
      + eexists _, _. econstructor; eassumption. }
  induction m as [|m [IH1 IH2]].
  - assert (H0 : forall p key value,
               wf p -> invariant_B p = true ->
               25 - prime_index p <= Z.of_nat 0 ->
               Z.of_nat (List.length (entries p)) + 1 <= bound ->
               exists ht' log, inserted p key value ht' log).
    { apply Hsingle. intros l p H HB Hm.
      pose proof (invariant_A_prime_index p (wf_A p H)). lia. }
    split; [exact H0|]. now apply Hlist.
  - assert (HS : forall p key value,
               wf p -> invariant_B p = true ->
               25 - prime_index p <= Z.of_nat (S m) ->
               Z.of_nat (List.length (entries p)) + 1 <= bound ->
               exists ht' log, inserted p key value ht' log).
    { apply Hsingle. intros l p H HB Hm. apply IH2; try assumption. lia. }
    split; [exact HS|]. now apply Hlist.
Qed.

Lemma load_factor_gt_0_8_last_prime (size : Z) :
  0 <= size < 1288490176 -> load_factor_gt_0_8 size (prime_at 25) = false.
Proof.
  intros Hs. apply (load_factor_gt_0_8_antimono _ 1288490175).
  - lia.
  - reflexivity.
  - vm_compute; split; reflexivity.
  - vm_compute; reflexivity.
Qed.

Lemma wf_prime_at (ht : ht_t) : wf ht -> capacity ht = prime_at (prime_index ht).
Proof.
  intros H. pose proof (wf_A ht H) as HA.
  apply invariant_A_spec in HA as [_ HA]. unfold prime_at. now rewrite HA.
Qed.

Lemma wf_capacity_In (ht : ht_t) : wf ht -> In (capacity ht) g_primes.
Proof.
  intros H. pose proof (wf_A ht H) as HA.
  apply invariant_A_spec in HA as [_ HA].
  apply list_elem_of_In. eapply list_elem_of_lookup_2. eassumption.
Qed.

(** The resize of a table of rank below 25 that holds fewer than
    1288490175 entries returns. *)
Lemma resize_defined (ht : ht_t) (key : string) (value : Z) :
  wf ht -> prime_index ht < 25 ->
  Z.of_nat (List.length (entries ht)) < 1288490175 ->
  exists p_new_ht ht' log,
    ht_create (prime_index ht + 1) = Done (Some p_new_ht) /\
    wf p_new_ht /\ invariant_B p_new_ht = true /\ entries p_new_ht = [] /\
    prime_index p_new_ht = prime_index ht + 1 /\
    rehashed (entries (link ht key value)) p_new_ht ht' log.
Proof.
  intros H Hrank He.
  pose proof (invariant_A_prime_index ht (wf_A ht H)) as Hr.
  destruct (ht_create_valid (prime_index ht + 1) ltac:(lia))
    as (prime & _ & Hcreate).
  destruct (ht_create_wf _ _ Hcreate) as (Hp & Hent & Hsz & Hocc & Hr').
  simpl prime_index in Hr'.
  match type of Hp with wf ?p => assert (HB : invariant_B p = true) end.
  { apply invariant_B_spec. now rewrite Hsz, Hocc. }
  destruct (link_wf ht key value H) as [_ Hperm].
  destruct (insert_defined_aux 1288490175 ltac:(lia)
              (load_factor_gt_0_8_last_prime 1288490175 ltac:(lia)) 25) as [_ Hlist].
  destruct (Hlist (entries (link ht key value)) _ Hp HB) as (ht' & log & Hreh).
  - cbn [prime_index]. change (Z.of_nat 25) with 25. lia.
  - rewrite Hent, Hperm. simpl. lia.
  - eexists _, ht', log. split; [exact Hcreate|].
    split; [exact Hp|]. split; [exact HB|]. split; [exact Hent|].
    split; [reflexivity|]. exact Hreh.
Qed.

Lemma strcmp_refl (s : string) : strcmp s s = 0.
Proof. now apply strcmp_0_iff. Qed.

Lemma search_chain_In (n : node_t) (l : list node_t) :
  In n l ->
  exists n', In n' l /\ strcmp (p_key n) (p_key n') = 0 /\
             search_chain (p_key n) l = p_value n'.
Proof.
  induction l as [|m l IH]; simpl; [easy|]. intros Hin.
  destruct (strcmp (p_key n) (p_key m) =? 0) eqn:E.
  - exists m. apply Z.eqb_eq in E. auto.
  - destruct Hin as [->|Hin]; [rewrite strcmp_refl in E; discriminate|].
    destruct (IH Hin) as (n' & Hn' & Hs & Hv). exists n'. auto.
Qed.

(** After a table has been rebuilt from the entries [l], every key of [l]
    is found, with the value of one of its entries. *)
Lemma ht_search_rebuilt (ht' : ht_t) (l : list node_t) (n : node_t) :
  wf ht' -> entries ht' ≡ₚ l -> In n l ->
  (exists n', In n' l /\ strcmp (p_key n) (p_key n') = 0 /\
              ht_search (Some ht') (Some (p_key n)) = Done (p_value n')) /\
  ((forall n', In n' l -> strcmp (p_key n) (p_key n') = 0 ->
               p_value n' = p_value n) ->
   ht_search (Some ht') (Some (p_key n)) = Done (p_value n)).
Proof.
  intros H Hperm Hin. rewrite (ht_search_entries ht' _ H).
  assert (Hin' : In n (entries ht')).
  { apply list_elem_of_In. rewrite Hperm. now apply list_elem_of_In. }
  destruct (search_chain_In n _ Hin') as (n' & Hn' & Hs & Hv).
  assert (Hn'l : In n' l).
  { apply list_elem_of_In. rewrite <- Hperm. now apply list_elem_of_In. }
  split.
  - exists n'. rewrite Hv. auto.
  - intros Huniq. rewrite Hv. f_equal. now apply Huniq.
Qed.

(** On the last rank a resize has no capacity left to move to: the lookup
    of [g_primes] by [ht_create] is out of bounds. *)
Lemma ht_insert_last_rank (ht : ht_t) (key : string) (value : Z) :
  wf ht -> prime_index ht = 25 ->
  load_factor_gt_0_8 (size (link ht key value)) (capacity ht) = true ->
  ht_insert (Some (Some ht)) (Some key) value = Undefined.
Proof.
  intros H Hrank Hload. unfold ht_insert.
  rewrite (ht_insert_rec_unfold _ ht key value H), Hload.
  cbn [List.length g_primes]. rewrite Hrank.
  now rewrite (ht_create_out_of_range (25 + 1)) by lia.
Qed.

(** *** Tables with a single chain *)

Lemma one_chain_fresh (rank cap : Z) (key : string) :
  0 < cap ->
  one_chain rank cap key [] 0
  = {| pp_items := replicate (Z.to_nat cap) [];
       capacity := cap; size := 0; prime_index := rank |}.
Proof.
  intros Hcap. unfold one_chain. f_equal.
  apply list_insert_id, lookup_replicate_2.
  pose proof (Z.mod_pos_bound (hash_of key) cap Hcap). lia.
Qed.

Lemma one_chain_wf (rank cap : Z) (key : string) (chain : list node_t)
      (sz : Z) :
  0 <= rank -> g_primes !! Z.to_nat rank = Some cap ->
  0 <= sz < 2 ^ 64 ->
  Forall (fun n => hash_of (p_key n) mod cap = hash_of key mod cap) chain ->
  wf (one_chain rank cap key chain sz).
Proof.
  intros Hrank Hprime Hsz Hchain.
  assert (Hcap : 0 < cap).
  { apply g_primes_range in Hprime. lia. }
  pose proof (Z.mod_pos_bound (hash_of key) cap Hcap) as Hmod.
  constructor.
  - apply invariant_A_spec. auto.
  - unfold one_chain; cbn [pp_items capacity].
    rewrite length_insert, length_replicate. lia.
  - exact Hsz.
  - unfold one_chain, index_of; cbn [pp_items capacity]. intros i c n Hi Hn.
    destruct (decide (i = Z.to_nat (hash_of key mod cap))) as [->|Hne].
    + rewrite list_lookup_insert_eq in Hi
        by (rewrite length_replicate; lia).
      injection Hi as <-.
      rewrite Forall_forall in Hchain.
      rewrite (Hchain n Hn). lia.
    + rewrite list_lookup_insert_ne in Hi by congruence.
      apply lookup_replicate in Hi as [-> _]. now apply elem_of_nil in Hn.
Qed.

Lemma one_chain_bucket (rank cap : Z) (key : string) (chain : list node_t)
      (sz : Z) :
  0 < cap -> bucket_of (one_chain rank cap key chain sz) key = chain.
Proof.
  intros Hcap. unfold bucket_of, index_of, one_chain; cbn [pp_items capacity].
  pose proof (Z.mod_pos_bound (hash_of key) cap Hcap).
  rewrite list_lookup_insert_eq by (rewrite length_replicate; lia).
  reflexivity.
Qed.

Lemma one_chain_link (rank cap : Z) (key : string) (chain : list node_t)
      (sz value : Z) :
  0 < cap ->
  link (one_chain rank cap key chain sz) key value
  = one_chain rank cap key (node_create key value :: chain)
              (if is_occupied chain then sz else size_t (sz + 1)).
Proof.
  intros Hcap. unfold link. rewrite one_chain_bucket by assumption.
  unfold one_chain, index_of; cbn [pp_items capacity size prime_index].
  rewrite list_insert_insert_eq. now destruct chain.
Qed.

Lemma one_chain_insert (rank cap : Z) (key : string) (chain : list node_t)
      (sz value : Z) :
  0 < cap ->
  wf (one_chain rank cap key chain sz) ->
  load_factor_gt_0_8 (if is_occupied chain then sz else size_t (sz + 1)) cap
  = false ->
  ht_insert (Some (Some (one_chain rank cap key chain sz))) (Some key) value
  = Done (E_SUCCESS,
          Some (one_chain rank cap key (node_create key value :: chain)
                          (if is_occupied chain then sz else size_t (sz + 1))),
          []).
Proof.
  intros Hcap H Hload.
  rewrite <- (one_chain_link rank cap key chain sz value Hcap).
  apply inserted_ht_insert; [exact H|]. apply inserted_in_place.
  now rewrite one_chain_link by assumption.
Qed.

Lemma one_chain_delete (rank cap : Z) (key : string) (n : node_t)
      (chain : list node_t) (sz : Z) :
  0 < cap ->
  wf (one_chain rank cap key (n :: chain) sz) ->
  strncmp key (p_key n) (strlen key) = 0 ->
  ht_delete (Some (one_chain rank cap key (n :: chain) sz)) (Some key)
  = Done (E_SUCCESS, Some (one_chain rank cap key chain (size_t (sz - 1)))).
Proof.
  intros Hcap H Hn. rewrite (ht_delete_bucket _ _ H).
  rewrite one_chain_bucket by assumption. cbn [delete_chain]. rewrite Hn.
  cbn [Z.eqb]. unfold one_chain at 1 2 3 4, index_of.
  cbn [pp_items capacity size prime_index].
  rewrite list_insert_insert_eq. reflexivity.
Qed.

(** Three inserts of a key into a fresh table and two deletes of it leave
    one entry and take the size from 1 through 0 to 2^64 - 1. *)
Lemma one_chain_wraps (rank cap : Z) (key : string) (v1 v2 v3 : Z) :
  0 <= rank < 2 ^ 32 -> g_primes !! Z.to_nat rank = Some cap ->
  load_factor_gt_0_8 1 cap = false ->
  table_of rank [Insert key v1; Insert key v2; Insert key v3;
                 Delete key; Delete key]
  = Done (one_chain rank cap key [node_create key v1] (2 ^ 64 - 1)).
Proof.
  intros Hrank Hprime Hload.
  assert (Hcap : 0 < cap).
  { apply g_primes_range in Hprime. lia. }
  assert (Hwf : forall chain sz,
             0 <= sz < 2 ^ 64 ->
             Forall (fun n => p_key n = key) chain ->
             wf (one_chain rank cap key chain sz)).
  { intros chain sz Hsz Hchain. apply one_chain_wf; try assumption; [lia|].
    eapply Forall_impl; [exact Hchain|]. now intros n ->. }
  assert (Hself : strncmp key key (strlen key) = 0).
  { apply strcmp_0_strncmp_0, strcmp_refl. }
  unfold table_of.
  assert (Hcreate : ht_create rank = Done (Some (one_chain rank cap key [] 0))).
  { apply ht_create_Done. exists cap.
    assert (Hu : uint32_t rank = rank) by (apply Z.mod_small; lia).
    rewrite Hu. split; [exact Hprime|].
    now rewrite one_chain_fresh. }
  rewrite Hcreate. cbn [bind run].
  rewrite one_chain_insert; [|assumption|apply Hwf; [lia|constructor]|exact Hload].
  cbn [bind is_occupied].
  change (size_t (0 + 1)) with 1.
  rewrite one_chain_insert;
    [|assumption|apply Hwf; [lia|repeat constructor]|exact Hload].
  cbn [bind is_occupied].
  rewrite one_chain_insert;
    [|assumption|apply Hwf; [lia|repeat constructor]|exact Hload].
  cbn [bind is_occupied].
  rewrite one_chain_delete;
    [|assumption|apply Hwf; [lia|repeat constructor]|exact Hself].
  cbn [bind]. change (size_t (1 - 1)) with 0.
  rewrite one_chain_delete;
    [|assumption|apply Hwf; [lia|repeat constructor]|exact Hself].
  reflexivity.
Qed.

(** With a wrapped size on the last rank, the next insert into the chain
    is undefined. *)
Lemma one_chain_last_rank (cap : Z) (key : string) (n : node_t)
      (chain : list node_t) (sz value : Z) :
  g_primes !! 25%nat = Some cap ->
  wf (one_chain 25 cap key (n :: chain) sz) ->
  load_factor_gt_0_8 sz cap = true ->
  ht_insert (Some (Some (one_chain 25 cap key (n :: chain) sz)))
            (Some key) value
  = Undefined.
Proof.
  intros Hprime H Hload.
  assert (Hcap : 0 < cap).
  { apply g_primes_range in Hprime. lia. }
  apply ht_insert_last_rank; [exact H|reflexivity|].
  rewrite one_chain_link by assumption. exact Hload.
Qed.

Lemma bucket_of_no_entries (ht : ht_t) (key : string) :
  entries ht = [] -> bucket_of ht key = [].
Proof.
  intros Hent. unfold bucket_of.
  destruct (pp_items ht !! Z.to_nat (index_of ht key)) as [[|n chain]|] eqn:E;
    try reflexivity.
  exfalso. apply list_elem_of_lookup_2 in E.
  assert (Hn : In n (entries ht)).
  { unfold entries. apply in_concat. exists (n :: chain).
    split; [now apply list_elem_of_In|now left]. }
  rewrite Hent in Hn. exact Hn.
Qed.

(** *** Tables reached by operations *)

Lemma run_wf (ops : list operation) :
  forall ht ht', wf ht -> run ops ht = Done ht' -> wf ht'.
Proof.
  induction ops as [|op ops IH]; intros ht ht' H.
  - now intros [= <-].
  - rewrite run_cons.
    destruct (run [op] ht) as [ht1| |] eqn:E1; simpl; try discriminate.
    intros Hrun. apply (IH ht1); [|exact Hrun].
    destruct op as [k v|k]; simpl in E1.
    + destruct (ht_insert (Some (Some ht)) (Some k) v) as [r| |] eqn:E;
        try discriminate.
      destruct (ht_insert_inserted _ _ _ _ H E) as (ht2 & log & -> & Hrel).
      simpl in E1. injection E1 as <-.
      now destruct (inserted_wf _ _ _ _ _ Hrel H).
    + destruct (ht_delete (Some ht) (Some k)) as [[e [ht2|]]| |] eqn:E;
        simpl in E1; try discriminate.
      injection E1 as <-. now destruct (ht_delete_wf _ _ _ _ H E).
Qed.

Lemma table_of_wf (rank : Z) (ops : list operation) (ht : ht_t) :
  table_of rank ops = Done ht -> wf ht.
Proof.
  unfold table_of.
  destruct (ht_create rank) as [[ht0|]| |] eqn:E; simpl; try discriminate.
  apply run_wf. now destruct (ht_create_wf _ _ E).
Qed.

Lemma wf_entry_in_bucket (ht : ht_t) (n : node_t) :
  wf ht -> In n (entries ht) -> In n (bucket_of ht (p_key n)).
Proof.
  intros H Hn. unfold entries in Hn. apply in_concat in Hn as (chain & Hc & Hn).
  apply list_elem_of_In, list_elem_of_lookup in Hc as [i Hi].
  pose proof (wf_C ht H i chain n Hi ltac:(now apply list_elem_of_In)) as Hidx.
  unfold bucket_of. rewrite Hidx, Nat2Z.id, Hi. exact Hn.
Qed.

(** Every insert ends on a table below the load limit. *)
Lemma inserted_rehashed_below_limit :
  (forall ht key value ht' log,
      inserted ht key value ht' log ->
      wf ht ->
      load_factor_gt_0_8 (size ht') (capacity ht') = false) /\
  (forall l p ht' log,
      rehashed l p ht' log ->
      wf p ->
      load_factor_gt_0_8 (size p) (capacity p) = false \/ l <> [] ->
      load_factor_gt_0_8 (size ht') (capacity ht') = false).
Proof.
  apply inserted_rehashed_ind.
  - intros ht key value Hload _. exact Hload.
  - intros ht key value p ht' log Hload Hcreate Hreh IH H.
    destruct (ht_create_wf _ _ Hcreate) as (Hp & _).
    apply IH; [exact Hp|]. right.
    destruct (link_wf ht key value H) as [_ Hperm]. intros E.
    rewrite E in Hperm. now apply Permutation_nil_cons in Hperm.
  - intros p _ [Hload|Hne]; [exact Hload|contradiction].
  - intros n l p ht1 ht2 log1 log2 Hins IH1 Hreh IH2 H _.
    destruct (inserted_wf _ _ _ _ _ Hins H) as (H1 & _).
    apply IH2; [exact H1|]. left. now apply IH1.
Qed.

(** *** Inserts against deletes, and the entries a search can see *)

Lemma concat_insert_Permutation {A : Type} (items : list (list A)) (i : nat)
      (chain chain' : list A) (x : A) :
  items !! i = Some chain ->
  chain ≡ₚ x :: chain' ->
  concat items ≡ₚ x :: concat (<[i := chain']> items).
Proof.
  intros H Hc. pose proof (lookup_lt_Some _ _ _ H) as Hlt.
  rewrite insert_take_drop by assumption.
  rewrite <- (take_drop_middle items i chain H) at 1.
  rewrite !concat_app. simpl. rewrite Hc. simpl.
  rewrite <- Permutation_middle. reflexivity.
Qed.

Lemma strncmp_self (s : string) : strncmp s s (strlen s) = 0.
Proof. apply strcmp_0_strncmp_0, strcmp_refl. Qed.

Lemma size_t_succ_pred (z : Z) : 0 <= z < 2 ^ 64 -> size_t (size_t (z + 1) - 1) = z.
Proof.
  intros Hz. unfold size_t.
  destruct (Z.eq_dec z (2 ^ 64 - 1)) as [->|Hne]; [reflexivity|].
  rewrite (Z.mod_small (z + 1)) by lia.
  replace (z + 1 - 1) with z by lia. apply Z.mod_small. lia.
Qed.

Lemma ht_delete_link (ht : ht_t) (key : string) (value : Z) :
  wf ht ->
  ht_delete (Some (link ht key value)) (Some key)
  = Done (E_SUCCESS,
          Some {| pp_items := pp_items ht;
                  capacity := capacity ht;
                  size := if is_occupied (bucket_of ht key)
                          then size_t (size ht - 1) else size ht;
                  prime_index := prime_index ht |}).
Proof.
  intros H. destruct (link_wf ht key value H) as [H1 _].
  pose proof (wf_lookup_bucket ht key H) as Hb.
  rewrite (ht_delete_bucket _ _ H1), bucket_of_link by assumption.
  destruct (decide (index_of ht key = index_of ht key)); [|contradiction].
  cbn [delete_chain node_create p_key]. rewrite strncmp_self. cbn [Z.eqb].
  rewrite index_of_link. unfold link at 1 2 3 4.
  cbn [pp_items capacity size prime_index].
  rewrite list_insert_insert_eq, (list_insert_id _ _ _ Hb).
  destruct (bucket_of ht key); cbn [is_occupied]; [|reflexivity].
  rewrite size_t_succ_pred by apply (wf_size ht H). reflexivity.
Qed.

(** A chain walk of [ht_search] ends on an entry with an equal key, or
    with [NULL] when the chain has none. *)
Lemma search_chain_cases (key : string) (l : list node_t) :
  (exists n, In n l /\ cstr (p_key n) = cstr key /\
             search_chain key l = p_value n) \/
  (search_chain key l = NULL /\
   forall n, In n l -> cstr (p_key n) <> cstr key).
Proof.
  induction l as [|m l IH]; simpl.
  - right. split; [reflexivity|]. intros n [].
  - destruct (Z.eqb_spec (strcmp key (p_key m)) 0) as [E|E].
    + left. exists m. apply strcmp_0_iff in E. auto.
    + destruct IH as [(n & Hn & Hk & Hv)|[Hv Hnone]].
      * left. exists n. auto.
      * right. split; [exact Hv|]. intros n [<-|Hn]; [|now apply Hnone].
        intros Hk. apply E, strcmp_0_iff. now symmetry.
Qed.

(** *** Edges: the empty key, ranks out of range, the hash as a word *)

Lemma hash_of_empty : hash_of "" = 0.
Proof. vm_compute. reflexivity. Qed.

Lemma lxor_shiftr_range (h n : Z) :
  0 <= h < 2 ^ 32 -> 0 <= n -> 0 <= Z.lxor h (Z.shiftr h n) < 2 ^ 32.
Proof.
  intros Hh Hn.
  assert (Hs : 0 <= Z.shiftr h n <= h).
  { rewrite Z.shiftr_div_pow2 by assumption. split.
    - apply Z.div_pos; [lia|]. now apply Z.pow_pos_nonneg.
    - apply Z.div_le_upper_bound; [now apply Z.pow_pos_nonneg|].
      pose proof (Z.pow_pos_nonneg 2 n ltac:(lia) Hn). nia. }
  split; [apply Z.lxor_nonneg; lia|].
  destruct (Z.eq_dec (Z.lxor h (Z.shiftr h n)) 0) as [->|Hne]; [reflexivity|].
  apply Z.log2_lt_pow2; [pose proof (Z.lxor_nonneg h (Z.shiftr h n)); lia|].
  eapply Z.le_lt_trans; [apply Z.log2_lxor; lia|].
  assert (Hlog : forall x, 0 <= x < 2 ^ 32 -> Z.log2 x < 32).
  { intros x Hx. destruct (Z.eq_dec x 0) as [->|Hx0]; [reflexivity|].
    apply Z.log2_lt_pow2; lia. }
  apply Z.max_lub_lt; apply Hlog; lia.
Qed.

Lemma murmurhash_range (key_ptr : list Z) (length seed hash : Z) :
  murmurhash key_ptr length seed = Done hash -> 0 <= hash < 2 ^ 32.
Proof.
  unfold murmurhash. cbv zeta.
  destruct (Z.quot length 4 <? 0); [discriminate|].
  destruct (Z.of_nat (List.length key_ptr)
            <? Z.quot length 4 * 4 + Z.land length 3); [discriminate|].
  intros [= <-].
  apply lxor_shiftr_range; [|lia]. unfold uint32_t. apply Z.mod_pos_bound. lia.
Qed.

(** Where [murmurhash] leaves the memory. *)
Lemma murmurhash_out_of_bounds (key_ptr : list Z) (length seed : Z) :
  length <= -4 \/ Z.of_nat (List.length key_ptr) < length ->
  murmurhash key_ptr length seed = Undefined.
Proof.
  intros Hlen. unfold murmurhash. cbv zeta.
  destruct (Z.ltb_spec (Z.quot length 4) 0) as [|Hq]; [reflexivity|].
  assert (H0 : 0 <= length).
  { destruct Hlen as [Hneg|]; [|lia].
    pose proof (Z.quot_le_upper_bound length 4 (-1)) as Hub.
    destruct (Z.lt_ge_cases length 0) as [Hn|]; [|assumption].
    assert (Z.quot length 4 <= -1); [|lia].
    rewrite <- (Z.opp_involutive length), Z.quot_opp_l by lia.
    assert (1 <= Z.quot (- length) 4); [|lia].
    apply Z.quot_le_lower_bound; lia. }
  destruct Hlen as [|Hlong]; [lia|].
  assert (Hsum : Z.quot length 4 * 4 + Z.land length 3 = length).
  { change 3 with (Z.ones 2). rewrite Z.land_ones by lia.
    rewrite Z.quot_div_nonneg by lia.
    pose proof (Z.div_mod length 4 ltac:(lia)). change (2 ^ 2) with 4. lia. }
  rewrite Hsum. destruct (Z.ltb_spec (Z.of_nat (List.length key_ptr)) length);
    [reflexivity|lia].
Qed.

Lemma ht_create_negative (rank : Z) :
  - 2 ^ 31 <= rank < 0 -> ht_create rank = Undefined.
Proof.
  intros Hr. unfold ht_create, array_get.
  assert (Hu : uint32_t rank = rank + 2 ^ 32).
  { unfold uint32_t. symmetry. apply (Z.mod_unique_pos _ _ (-1)); lia. }
  rewrite Hu.
  destruct (rank + 2 ^ 32 <? 0) eqn:E; [reflexivity|].
  rewrite (lookup_ge_None_2 g_primes); [reflexivity|].
  change (List.length g_primes) with 26%nat. lia.
Qed.

Lemma search_chain_nil_bucket (ht : ht_t) (key : string) :
  wf ht -> entries ht = [] ->
  ht_search (Some ht) (Some key) = Done NULL /\
  ht_delete (Some ht) (Some key) = Done (E_NODE_NOT_FOUND, Some ht).
Proof.
  intros H Hent.
  rewrite ht_search_bucket, ht_delete_bucket by assumption.
  now rewrite (bucket_of_no_entries ht key Hent).
Qed.

(** * The claims of the specification *)

(** C2.  From a table created at rank 0, [insert ("a", 1)],
    [insert ("b", 2)], [insert ("a", 3)] make [search ("a")] return 3 and
    [search ("b")] return 2; [delete ("b")] then succeeds, after which
    [search ("b")] returns the absent marker and a second [delete ("b")]
    returns not-found. *)
Theorem scenario_a_b_a :
  exists t0 t1 t2 t3 t4 : ht_t,
    ht_create 0 = Done (Some t0) /\
    ht_insert (Some (Some t0)) (Some "a"%string) 1 = Done (E_SUCCESS, Some t1, []) /\
    ht_insert (Some (Some t1)) (Some "b"%string) 2 = Done (E_SUCCESS, Some t2, []) /\
    ht_insert (Some (Some t2)) (Some "a"%string) 3 = Done (E_SUCCESS, Some t3, []) /\
    ht_search (Some t3) (Some "a"%string) = Done 3 /\
    ht_search (Some t3) (Some "b"%string) = Done 2 /\
    ht_delete (Some t3) (Some "b"%string) = Done (E_SUCCESS, Some t4) /\
    ht_search (Some t4) (Some "b"%string) = Done NULL /\
    ht_delete (Some t4) (Some "b"%string) = Done (E_NODE_NOT_FOUND, Some t4).
Proof.
  do 5 eexists.
  do 8 (split; [vm_compute; reflexivity|]).
  vm_compute; reflexivity.
Qed.

(** C8.  The null checks as the code makes them: a NULL table is reported
    by [ht_insert] (NULL handle address or NULL handle), [ht_delete] and
    [ht_destroy] as [E_NULL_PTR] and by [ht_search] as the absent marker,
    and [ht_delete] reports a NULL key as [E_NULL_PTR]; [ht_insert] does
    not test its key, and passes a NULL key on to [strlen]. *)
Theorem null_inputs :
  (forall key value,
      ht_insert None key value = Done (E_NULL_PTR, None, []) /\
      ht_insert (Some None) key value = Done (E_NULL_PTR, None, [])) /\
  (forall key, ht_delete None key = Done (E_NULL_PTR, None)) /\
  (forall ht, ht_delete (Some ht) None = Done (E_NULL_PTR, Some ht)) /\
  (forall key, ht_search None key = Done NULL) /\
  ht_destroy None = Done E_NULL_PTR /\
  (forall ht value, ht_insert (Some (Some ht)) None value = Undefined).
Proof.
  repeat split; reflexivity.
Qed.

(** C9, as amended.  [ht_create] at a valid rank yields the capacity
    [g_primes] lists at that rank (53, 97, 193, ...), and capacities grow
    strictly with the rank.  On well-formed tables [ht_delete] always
    returns and keeps [capacity == g_primes[prime_index]]; [ht_insert]
    keeps it whenever it returns, which it does on every table of rank
    below 25 that holds fewer than 1288490175 entries, the rank moving up
    by one for each table a resize destroys.  On rank 25 an insert that
    resizes reads past [g_primes] and leaves no table. *)
Theorem capacity_of_rank :
  firstn 3 g_primes = [53; 97; 193] /\
  (forall rank,
      0 <= rank < 26 ->
      exists ht,
        ht_create rank = Done (Some ht) /\
        prime_index ht = rank /\
        g_primes !! Z.to_nat rank = Some (capacity ht) /\
        invariant_A ht = true) /\
  (forall rank ht ht',
      ht_create rank = Done (Some ht) ->
      ht_create (rank + 1) = Done (Some ht') ->
      0 <= rank < 25 ->
      capacity ht < capacity ht') /\
  (forall ht key value,
      well_formed ht = true ->
      prime_index ht < 25 ->
      Z.of_nat (List.length (entries ht)) < 1288490175 ->
      exists ht' log,
        ht_insert (Some (Some ht)) (Some key) value
        = Done (E_SUCCESS, Some ht', log) /\
        invariant_A ht' = true /\
        Forall (fun destroyed => invariant_A destroyed = true) log /\
        prime_index ht' = prime_index ht + Z.of_nat (List.length log)) /\
  (forall ht key value r,
      well_formed ht = true ->
      ht_insert (Some (Some ht)) (Some key) value = Done r ->
      exists ht' log,
        r = (E_SUCCESS, Some ht', log) /\
        invariant_A ht' = true /\
        Forall (fun destroyed => invariant_A destroyed = true) log /\
        prime_index ht' = prime_index ht + Z.of_nat (List.length log)) /\
  (forall ht key value,
      well_formed ht = true ->
      prime_index ht = 25 ->
      load_factor_gt_0_8 (size (link ht key value)) (capacity ht) = true ->
      ht_insert (Some (Some ht)) (Some key) value = Undefined) /\
  (forall ht key,
      well_formed ht = true ->
      exists e ht',
        ht_delete (Some ht) (Some key) = Done (e, Some ht') /\
        invariant_A ht' = true /\ prime_index ht' = prime_index ht).
Proof.
  assert (Hreturned : forall ht key value r,
             wf ht ->
             ht_insert (Some (Some ht)) (Some key) value = Done r ->
             exists ht' log,
               r = (E_SUCCESS, Some ht', log) /\
               invariant_A ht' = true /\
               Forall (fun destroyed => invariant_A destroyed = true) log /\
               prime_index ht' = prime_index ht + Z.of_nat (List.length log)).
  { intros ht key value r H Hins.
    destruct (ht_insert_inserted _ _ _ _ H Hins) as (ht' & log & -> & Hrel).
    destruct (inserted_wf _ _ _ _ _ Hrel H) as (H' & _ & Hlog & Hrank).
    exists ht', log. split; [reflexivity|]. split; [apply H'|].
    split; [|exact Hrank].
    eapply Forall_impl; [exact Hlog|]. intros d Hd. apply Hd. }
  split; [reflexivity|]. split; [|split; [|split; [|split; [|split]]]].
  - intros rank Hr. destruct (ht_create_valid rank Hr) as (prime & Hp & Hc).
    eexists. split; [exact Hc|]. simpl. split; [reflexivity|].
    split; [exact Hp|]. apply invariant_A_spec. simpl. split; [lia|exact Hp].
  - intros rank ht ht' H H' Hr.
    apply ht_create_Done in H as (p & Hp & [= ->]).
    apply ht_create_Done in H' as (q & Hq & [= ->]). simpl.
    unfold uint32_t in Hp, Hq. rewrite Z.mod_small in Hp, Hq by lia.
    replace (Z.to_nat (rank + 1)) with (S (Z.to_nat rank)) in Hq by lia.
    exact (g_primes_increasing _ _ _ Hp Hq).
  - intros ht key value H Hrank He. apply well_formed_spec in H.
    assert (Hrel : exists ht' log, inserted ht key value ht' log).
    { destruct (load_factor_gt_0_8 (size (link ht key value)) (capacity ht))
        eqn:Hload.
      - destruct (resize_defined ht key value H Hrank He)
          as (p & ht' & log & Hcreate & _ & _ & _ & _ & Hreh).
        eexists _, _. eapply inserted_resized; eassumption.
      - eexists _, _. now apply inserted_in_place. }
    destruct Hrel as (ht' & log & Hrel).
    pose proof (inserted_ht_insert _ _ _ _ _ H Hrel) as Hins.
    destruct (Hreturned _ _ _ _ H Hins) as (ht1 & log1 & [= <- <-] & Hrest).
    exists ht', log. split; [exact Hins|exact Hrest].
  - intros ht key value r H. apply well_formed_spec in H. now apply Hreturned.
  - intros ht key value H. apply well_formed_spec in H.
    now apply ht_insert_last_rank.
  - intros ht key H. apply well_formed_spec in H.
    pose proof (ht_delete_bucket ht key H) as Hdel.
    destruct (delete_chain key (bucket_of ht key)) as [chain|];
      eexists _, _; (split; [exact Hdel|]);
      destruct (ht_delete_wf _ _ _ _ H Hdel) as (H' & _ & Hrank);
      (split; [apply H'|exact Hrank]).
Qed.

(** C7.  A successful delete decrements [size] by one, modulo 2^64,
    whether or not the bucket is left empty: when the chain held several
    entries the bucket stays occupied, the number of occupied buckets is
    unchanged, and [size] has still dropped by one. *)
Theorem delete_decrements_size (ht : ht_t) (key : string) (ht' : ht_t) :
  well_formed ht = true ->
  ht_delete (Some ht) (Some key) = Done (E_SUCCESS, Some ht') ->
  size ht' = (size ht - 1) mod 2 ^ 64 /\
  List.length (bucket_of ht' key) = pred (List.length (bucket_of ht key)) /\
  ((2 <= List.length (bucket_of ht key))%nat ->
   bucket_of ht' key <> [] /\ occupied ht' = occupied ht).
Proof.
  intros H. apply well_formed_spec in H.
  pose proof (wf_lookup_bucket ht key H) as Hb.
  rewrite ht_delete_bucket by assumption.
  destruct (delete_chain key (bucket_of ht key)) as [chain|] eqn:E;
    intros [= <-].
  split; [reflexivity|].
  apply delete_chain_Some in E as (pre & n & post & Hl & -> & _).
  assert (Hb' : bucket_of
                  {| pp_items := <[Z.to_nat (index_of ht key) := pre ++ post]>
                                   (pp_items ht);
                     capacity := capacity ht;
                     size := size_t (size ht - 1);
                     prime_index := prime_index ht |} key
                = pre ++ post).
  { unfold bucket_of at 1. unfold index_of at 1. cbn [pp_items capacity].
    fold (index_of ht key).
    rewrite list_lookup_insert_eq by (apply lookup_lt_Some in Hb; assumption).
    reflexivity. }
  rewrite Hb', Hl, !length_app. simpl. split; [lia|].
  intros Hlen. split.
  - intros E. apply (f_equal (@List.length node_t)) in E.
    rewrite length_app in E. simpl in E. lia.
  - unfold occupied. cbn [pp_items].
    pose proof (filter_insert_length is_occupied (pp_items ht) _ _
                  (pre ++ post) Hb) as F.
    rewrite Hl in F.
    assert (is_occupied (pre ++ n :: post) = true) by now destruct pre.
    assert (is_occupied (pre ++ post) = true).
    { destruct pre; [destruct post; [simpl in Hlen; lia|]|]; reflexivity. }
    rewrite H0, H1 in F. lia.
Qed.

(** C4.  [ht_delete] unlinks the first entry of the key's bucket whose
    stored key has the deletion key as a prefix (agreement over
    [strlen (key)] bytes), and returns not-found when the chain holds no
    such entry; [ht_search] takes only an entry whose key is the same
    string.  So a delete can remove an entry stored under a strictly
    longer key, which a search for the deletion key does not find. *)
Theorem delete_matches_prefix_search_matches_equal :
  (forall ht key pre n post,
      well_formed ht = true ->
      bucket_of ht key = pre ++ n :: post ->
      Forall (fun m => is_prefix (cstr key) (cstr m.(p_key)) = false) pre ->
      is_prefix (cstr key) (cstr n.(p_key)) = true ->
      ht_delete (Some ht) (Some key)
      = Done (E_SUCCESS,
              Some {| pp_items := <[Z.to_nat (index_of ht key) := pre ++ post]>
                                    (pp_items ht);
                      capacity := capacity ht;
                      size := size_t (size ht - 1);
                      prime_index := prime_index ht |})) /\
  (forall ht key,
      well_formed ht = true ->
      Forall (fun m => is_prefix (cstr key) (cstr m.(p_key)) = false)
             (bucket_of ht key) ->
      ht_delete (Some ht) (Some key) = Done (E_NODE_NOT_FOUND, Some ht)) /\
  (forall ht key,
      well_formed ht = true ->
      ht_search (Some ht) (Some key)
      = Done match List.find
                     (fun n => String.eqb (cstr key) (cstr n.(p_key)))
                     (bucket_of ht key) with
             | Some n => n.(p_value)
             | None => NULL
             end) /\
  (exists ht ht',
      table_of 0 [Insert "is" 7] = Done ht /\
      well_formed ht = true /\
      bucket_of ht "i" = [node_create "is" 7] /\
      ht_search (Some ht) (Some "i"%string) = Done NULL /\
      ht_search (Some ht) (Some "is"%string) = Done 7 /\
      ht_delete (Some ht) (Some "i"%string) = Done (E_SUCCESS, Some ht') /\
      ht_search (Some ht') (Some "is"%string) = Done NULL).
Proof.
  split; [|split; [|split]].
  - intros ht key pre n post H Hb Hpre Hn. apply well_formed_spec in H.
    rewrite ht_delete_bucket by assumption.
    assert (E : delete_chain key (bucket_of ht key) = Some (pre ++ post)).
    { apply delete_chain_Some. exists pre, n, post. auto. }
    now rewrite E.
  - intros ht key H Hb. apply well_formed_spec in H.
    rewrite ht_delete_bucket by assumption.
    apply delete_chain_None in Hb. now rewrite Hb.
  - intros ht key H. apply well_formed_spec in H.
    rewrite ht_search_bucket by assumption. f_equal.
    apply search_chain_find.
  - eexists _, _.
    do 6 (split; [vm_compute; reflexivity|]).
    vm_compute; reflexivity.
Qed.

(** C1, as amended.  After an insert of [key] and operations that neither
    insert [key] again nor delete it (no deletion key matches [key] under
    the [strncmp] of [ht_delete]), [ht_search (key)] returns the value of
    that insert
    - when neither the insert nor an operation after it resized the table:
      the new entry is linked at the head of its chain and the search
      takes the first entry with an equal key, so that older entries of
      the key are shadowed;
    - across resizes as well, when the table held no older entry of the
      key. *)
Theorem latest_insert_found
        (ht : ht_t) (key : string) (value : Z) (ht1 : ht_t)
        (log : list ht_t) (ops : list operation) (ht2 : ht_t) :
  well_formed ht = true ->
  ht_insert (Some (Some ht)) (Some key) value
  = Done (E_SUCCESS, Some ht1, log) ->
  forallb (leaves_alone key) ops = true ->
  run ops ht1 = Done ht2 ->
  (log = [] -> prime_index ht2 = prime_index ht1 ->
   ht1 = link ht key value /\
   bucket_of ht1 key = node_create key value :: bucket_of ht key /\
   ht_search (Some ht2) (Some key) = Done value) /\
  (forallb (fun n => negb (strcmp key n.(p_key) =? 0)) (entries ht) = true ->
   ht_search (Some ht2) (Some key) = Done value).
Proof.
  intros H Hins Hops Hrun. apply well_formed_spec in H.
  destruct (ht_insert_inserted _ _ _ _ H Hins)
    as (ht1' & log' & [= <- <-] & Hrel).
  assert (E : strcmp key key = 0) by now apply strcmp_0_iff.
  split.
  - intros -> Hrank. apply inserted_nil in Hrel. subst ht1.
    destruct (link_wf ht key value H) as [H1 _].
    assert (Hb : bucket_of (link ht key value) key
                 = node_create key value :: bucket_of ht key).
    { rewrite bucket_of_link by assumption.
      destruct (decide (index_of ht key = index_of ht key)); [reflexivity|].
      contradiction. }
    split; [reflexivity|]. split; [exact Hb|].
    destruct (run_matching _ _ _ _ H1 Hops Hrun) as (H2 & _ & Hm).
    rewrite ht_search_matching, Hm, Hb by assumption. simpl.
    rewrite E. simpl. rewrite E. reflexivity.
  - intros Hnew.
    destruct (inserted_wf _ _ _ _ _ Hrel H) as (H1 & Hperm & _).
    destruct (run_entries _ _ _ _ H1 Hops Hrun) as (H2 & Hm).
    rewrite (filter_Permutation_list _ _ _ Hperm) in Hm. simpl in Hm.
    rewrite E in Hm. simpl in Hm.
    assert (Hold : List.filter (fun n => strcmp key n.(p_key) =? 0)
                               (entries ht) = []).
    { apply filter_nil_iff. rewrite forallb_forall in Hnew.
      intros n Hn. apply list_elem_of_In in Hn.
      specialize (Hnew n Hn). now apply negb_true_iff in Hnew. }
    rewrite Hold in Hm. apply Permutation_singleton_r in Hm.
    rewrite ht_search_entries, search_chain_filter, Hm by assumption.
    simpl. now rewrite E.
Qed.

(** C5 (amended). Whenever an insert brings [size / capacity] above 0.8 on
    a table of rank below 25 holding fewer than 1288490175 entries, a fresh
    table at rank + 1 is created, every pair of the old table is
    re-inserted into it through [ht_insert], the old table is destroyed,
    and the handle is swapped to the table the re-insertion ends with:
    rank + 1 when the entries fit there below the load limit, a higher
    rank when the re-insertion resized again.  After it every key that had
    an entry is found by [ht_search], with the value of one of its entries:
    its original value when it had a single entry. *)
Theorem resize_above_load_limit (ht : ht_t) (key : string) (value : Z) :
  well_formed ht = true ->
  4 * capacity ht < 5 * size (link ht key value) ->
  prime_index ht < 25 ->
  Z.of_nat (List.length (entries ht)) < 1288490175 ->
  exists p_new_ht ht' log,
    ht_create (prime_index ht + 1) = Done (Some p_new_ht) /\
    capacity p_new_ht = prime_at (prime_index ht + 1) /\
    rehashed (entries (link ht key value)) p_new_ht ht' log /\
    ht_insert (Some (Some ht)) (Some key) value
    = Done (E_SUCCESS, Some ht', log ++ [link ht key value]) /\
    prime_index ht' = prime_index ht + 1 + Z.of_nat (List.length log) /\
    capacity ht' = prime_at (prime_index ht') /\
    (load_factor_gt_0_8 (Z.of_nat (List.length (entries ht)) + 1)
                        (prime_at (prime_index ht + 1)) = false ->
     log = []) /\
    well_formed ht' = true /\ invariant_B ht' = true /\
    entries ht' ≡ₚ node_create key value :: entries ht /\
    forall n, In n (node_create key value :: entries ht) ->
      (exists n', In n' (node_create key value :: entries ht) /\
                  strcmp (p_key n) (p_key n') = 0 /\
                  ht_search (Some ht') (Some (p_key n)) = Done (p_value n')) /\
      ((forall n', In n' (node_create key value :: entries ht) ->
                   strcmp (p_key n) (p_key n') = 0 ->
                   p_value n' = p_value n) ->
       ht_search (Some ht') (Some (p_key n)) = Done (p_value n)).
Proof.
  intros Hwf Hratio Hrank He. apply well_formed_spec in Hwf.
  destruct (link_wf ht key value Hwf) as [Hlink Hperm].
  assert (Hload : load_factor_gt_0_8 (size (link ht key value)) (capacity ht)
                  = true).
  { apply load_factor_gt_0_8_above;
      [now apply wf_capacity_In|exact (wf_size _ Hlink)|exact Hratio]. }
  destruct (resize_defined ht key value Hwf Hrank He)
    as (p & ht' & log & Hcreate & Hp & HBp & Hent & Hrp & Hreh).
  destruct (rehashed_wf _ _ _ _ Hreh Hp) as (Hwf' & Hperm' & _ & Hrank').
  rewrite Hent, app_nil_r in Hperm'.
  pose proof (proj2 inserted_rehashed_invariant_B _ _ _ _ Hreh Hp HBp) as HB'.
  exists p, ht', log.
  split; [exact Hcreate|].
  split; [rewrite <- Hrp; now apply wf_prime_at|].
  split; [exact Hreh|].
  split.
  { apply inserted_ht_insert; [exact Hwf|].
    eapply inserted_resized; eassumption. }
  split; [lia|].
  split; [now apply wf_prime_at|].
  split.
  { intros Hfit.
    refine (proj1 (rehashed_below_limit _ _ _ _ Hreh Hp HBp _ _)).
    - rewrite Hent, Hperm. simpl. lia.
    - rewrite Hent, Hperm, (wf_prime_at p Hp), Hrp. simpl List.length.
      replace (Z.of_nat (0 + S (List.length (entries ht))))
        with (Z.of_nat (List.length (entries ht)) + 1) by lia.
      exact Hfit. }
  split; [now apply well_formed_spec|].
  split; [exact HB'|].
  split; [now rewrite Hperm', Hperm|].
  intros n Hn. apply ht_search_rebuilt; [exact Hwf'| |exact Hn].
  now rewrite Hperm', Hperm.
Qed.

(** C3.  For every byte sequence and seed, [murmurhash] computes the
    specified 32-bit algorithm [spec_hash]: every 4-byte chunk is multiplied
    by 0xcc9e2d51, rotated left 15, multiplied by 0x1b873593 and XORed into
    the hash, which is rotated left 13, multiplied by 5 and added
    0xe6546b64; the 0 to 3 trailing bytes are accumulated from the last one
    down and mixed by the same multiply, rotate, multiply and XOR, without
    the closing step of the chunks; the hash is XORed with the length and
    avalanched.  [spec_hash] is written in arithmetic of its own: its
    rotation [spec_rotl] moves bit [i - r] (modulo 32) of a word to bit
    [i], and its chunk word is the value of the four bytes in the byte
    order of the platform.  The table operations hash a key with seed 0
    over its [strlen] bytes.  Bytes are below 2^8, the seed is a
    [uint32_t], the length an [int]. *)
Theorem murmurhash_computes_spec_hash
        (bytes post : list Z) (seed : Z) :
  Forall is_byte bytes -> is_word seed ->
  Z.of_nat (List.length bytes) < 2 ^ 31 ->
  murmurhash (bytes ++ post) (Z.of_nat (List.length bytes)) seed
  = Done (spec_hash bytes seed) /\
  (forall x r i,
      is_word x -> 0 < r < 32 -> 0 <= i < 32 ->
      Z.testbit (spec_rotl x r) i = Z.testbit x ((i - r) mod 32)) /\
  (forall x r, is_word x -> 0 < r < 32 -> is_word (spec_rotl x r)) /\
  (forall key,
      Z.of_nat (strlen key) < 2 ^ 31 ->
      hash_str (Some key) = Done (spec_hash (bytes_of (cstr key)) 0) /\
      List.length (bytes_of (cstr key)) = strlen key).
Proof.
  intros Hbytes Hseed Hlen.
  split; [now apply murmurhash_spec_hash|].
  split; [exact spec_rotl_testbit|].
  split; [exact spec_rotl_is_word|].
  intros key Hkey.
  split; [now apply hash_str_spec|apply strlen_bytes_of_cstr].
Qed.

(** C6, as amended.  For every table and every successful insert that
    does not resize, the size field is incremented exactly when the target
    bucket was empty before the insert, and is left unchanged when the
    bucket held a chain.  The resize is decided by the load factor over
    this size: size counts occupied buckets, not entries.  When the insert
    resizes, the rule holds for the old table, destroyed last; the size of
    the table the handle ends on is the number of occupied buckets of
    that table, at a higher rank.  A size that counted the occupied
    buckets before the insert counts them after it. *)
Theorem size_counts_occupied_buckets (ht : ht_t) (key : string) (value : Z)
        (ht' : ht_t) (log : list ht_t) :
  well_formed ht = true ->
  ht_insert (Some (Some ht)) (Some key) value
  = Done (E_SUCCESS, Some ht', log) ->
  size (link ht key value)
  = (if is_occupied (bucket_of ht key) then size ht
     else (size ht + 1) mod 2 ^ 64) /\
  occupied (link ht key value)
  = (if is_occupied (bucket_of ht key) then occupied ht
     else S (occupied ht)) /\
  (log = [] <->
   load_factor_gt_0_8 (size (link ht key value)) (capacity ht) = false) /\
  (log = [] ->
   ht' = link ht key value /\
   size ht' = (if is_occupied (bucket_of ht key) then size ht
               else (size ht + 1) mod 2 ^ 64)) /\
  (log <> [] ->
   List.last log ht' = link ht key value /\
   size ht' = Z.of_nat (occupied ht') /\
   prime_index ht < prime_index ht') /\
  (invariant_B ht = true ->
   invariant_B (link ht key value) = true /\ invariant_B ht' = true).
Proof.
  intros Hwf Hins. apply well_formed_spec in Hwf.
  destruct (ht_insert_inserted _ _ _ _ Hwf Hins)
    as (ht1 & log1 & Heq & Hrel).
  injection Heq as <- <-.
  assert (Hsize : size (link ht key value)
                  = (if is_occupied (bucket_of ht key) then size ht
                     else (size ht + 1) mod 2 ^ 64)).
  { unfold link; cbn [size]. now destruct (bucket_of ht key). }
  split; [exact Hsize|].
  split.
  { pose proof (link_occupied ht key value Hwf) as Hocc.
    destruct (bucket_of ht key); exact Hocc. }
  split.
  { inversion Hrel; subst.
    - tauto.
    - split; [intros E; now destruct log0|congruence]. }
  split.
  { intros ->. apply inserted_nil in Hrel. subst ht'. auto. }
  split.
  { intros Hlog.
    destruct (inserted_wf _ _ _ _ _ Hrel Hwf) as (_ & _ & _ & Hrank).
    split; [inversion Hrel; subst; [contradiction|apply last_last]|].
    split.
    - apply invariant_B_spec.
      exact (inserted_resized_invariant_B _ _ _ _ _ Hrel Hwf Hlog).
    - destruct log; [contradiction|]. simpl in Hrank. lia. }
  intros HB. split; [now apply link_invariant_B|].
  exact (proj1 inserted_rehashed_invariant_B _ _ _ _ _ Hrel Hwf HB).
Qed.

(** C10. For some operation sequence the size field wraps and the next
    insert resizes without cause: on a table of rank 0 that holds "P",
    the keys "e" and "f" are inserted into the bucket of "P" and deleted
    again.  The first delete takes the size to 0, below the one occupied
    bucket, the second wraps it to 2^64 - 1, and the insert of "5" into
    the bucket of "P", still occupied, finds the load factor above 0.8
    and moves the two entries to a table of rank 1. *)
Theorem size_wraps_and_resizes :
  exists ht0 ht1 ht2 ht3,
    table_of 0 [Insert "P" 1; Insert "e" 2; Insert "f" 3] = Done ht0 /\
    (size ht0 = 1 /\ occupied ht0 = 1%nat /\ prime_index ht0 = 0) /\
    ht_delete (Some ht0) (Some "e"%string) = Done (E_SUCCESS, Some ht1) /\
    (size ht1 = 0 /\ occupied ht1 = 1%nat) /\
    ht_delete (Some ht1) (Some "f"%string) = Done (E_SUCCESS, Some ht2) /\
    (size ht2 = 2 ^ 64 - 1 /\ occupied ht2 = 1%nat /\
     List.length (entries ht2) = 1%nat /\ prime_index ht2 = 0) /\
    ht_insert (Some (Some ht2)) (Some "5"%string) 4
    = Done (E_SUCCESS, Some ht3, [link ht2 "5" 4]) /\
    load_factor_gt_0_8 (size (link ht2 "5" 4)) (capacity ht2) = true /\
    (5 * Z.of_nat (List.length (entries (link ht2 "5" 4)))
     < 4 * capacity ht2) /\
    (prime_index ht3 = 1 /\ capacity ht3 = 97 /\ size ht3 = 2 /\
     List.length (entries ht3) = 2%nat).
Proof.
  do 4 eexists.
  do 9 (split; [vm_compute; try repeat split; reflexivity|]).
  vm_compute; repeat split; reflexivity.
Qed.

(** ** Further properties *)

(** X1.  The load factor test is made in binary32: on the large capacities it
    fires for some sizes whose ratio to the capacity is below 0.8. *)
Theorem load_factor_test_fires_below_0_8 :
  In 1610612741 g_primes /\
  5 * 1288490176 < 4 * 1610612741 /\
  load_factor_gt_0_8 1288490176 1610612741 = true /\
  load_factor_gt_0_8 1288490175 1610612741 = false.
Proof.
  split; [vm_compute; tauto|]. split; [reflexivity|].
  split; vm_compute; reflexivity.
Qed.

(** X2.  When the two keys of a bucket are inserted into a fresh table and
    deleted again, the size wraps to 2^64 - 1 and every bucket is empty: the
    next insert, of any key, increments the size back to 0 and does not
    resize. *)
Theorem size_wraps_back_on_empty_table :
  exists ht,
    table_of 0 [Insert "e" 1; Insert "f" 2; Delete "e"; Delete "f"] = Done ht /\
    size ht = 2 ^ 64 - 1 /\
    entries ht = [] /\
    forall key value,
      ht_insert (Some (Some ht)) (Some key) value
      = Done (E_SUCCESS, Some (link ht key value), []) /\
      size (link ht key value) = 0.
Proof.
  evar (ht : ht_t). exists ht.
  assert (Hht : table_of 0 [Insert "e" 1; Insert "f" 2; Delete "e"; Delete "f"]
                = Done ht)
    by (unfold ht; vm_compute; reflexivity).
  assert (Hwf : well_formed ht = true) by (vm_compute; reflexivity).
  assert (Hent : entries ht = []) by (vm_compute; reflexivity).
  split; [exact Hht|]. split; [vm_compute; reflexivity|].
  split; [exact Hent|].
  intros key value. apply well_formed_spec in Hwf.
  assert (Hsz : size (link ht key value) = 0).
  { unfold link; cbn [size]. rewrite (bucket_of_no_entries ht key Hent).
    reflexivity. }
  split; [|exact Hsz].
  apply inserted_ht_insert; [exact Hwf|]. apply inserted_in_place.
  rewrite Hsz. reflexivity.
Qed.

(** X3.  On a well-formed table of rank below 25 that holds fewer than
    1288490175 entries, [ht_insert] with a key returns [E_SUCCESS], and
    leaves a well-formed table that holds the new entry next to the
    entries held before. *)
Theorem insert_returns (ht : ht_t) (key : string) (value : Z) :
  well_formed ht = true ->
  prime_index ht < 25 ->
  Z.of_nat (List.length (entries ht)) < 1288490175 ->
  exists ht' log,
    ht_insert (Some (Some ht)) (Some key) value
    = Done (E_SUCCESS, Some ht', log) /\
    well_formed ht' = true /\
    entries ht' ≡ₚ node_create key value :: entries ht.
Proof.
  intros Hwf Hrank He. apply well_formed_spec in Hwf.
  assert (Hrel : exists ht' log, inserted ht key value ht' log).
  { destruct (load_factor_gt_0_8 (size (link ht key value)) (capacity ht))
      eqn:Hload.
    - destruct (resize_defined ht key value Hwf Hrank He)
        as (p & ht' & log & Hcreate & _ & _ & _ & _ & Hreh).
      eexists _, _. eapply inserted_resized; eassumption.
    - eexists _, _. now apply inserted_in_place. }
  destruct Hrel as (ht' & log & Hrel).
  destruct (inserted_wf _ _ _ _ _ Hrel Hwf) as (H' & Hperm & _).
  exists ht', log. split; [now apply inserted_ht_insert|].
  split; [now apply well_formed_spec|exact Hperm].
Qed.

(** X4.  Every table reached from [ht_create] by inserts and deletes is
    well formed: its capacity is the prime of its rank, its bucket array
    has [capacity] buckets, and every entry sits in the bucket its key
    hashes to; [ht_destroy] walks it within bounds and succeeds. *)
Theorem reached_tables_are_well_formed
        (rank : Z) (ops : list operation) (ht : ht_t) :
  table_of rank ops = Done ht ->
  well_formed ht = true /\
  capacity ht = prime_at (prime_index ht) /\
  Z.of_nat (List.length (pp_items ht)) = capacity ht /\
  (forall n, In n (entries ht) -> In n (bucket_of ht (p_key n))) /\
  ht_destroy (Some ht) = Done E_SUCCESS.
Proof.
  intros Hreach. apply table_of_wf in Hreach.
  split; [now apply well_formed_spec|].
  split; [now apply wf_prime_at|].
  split; [exact (wf_array ht Hreach)|].
  split; [intros n; now apply wf_entry_in_bucket|].
  apply ht_destroy_Done. exact (wf_array ht Hreach).
Qed.

(** X5.  A successful insert leaves the table below the load limit: the
    test of [ht_insert] is false on the table returned, so that its size
    is at most 0.8 times its capacity. *)
Theorem insert_ends_below_load_limit
        (ht : ht_t) (key : string) (value : Z) (ht' : ht_t)
        (log : list ht_t) :
  well_formed ht = true ->
  ht_insert (Some (Some ht)) (Some key) value
  = Done (E_SUCCESS, Some ht', log) ->
  load_factor_gt_0_8 (size ht') (capacity ht') = false /\
  5 * size ht' <= 4 * capacity ht'.
Proof.
  intros Hwf Hins. apply well_formed_spec in Hwf.
  destruct (ht_insert_inserted _ _ _ _ Hwf Hins)
    as (ht1 & log1 & [= <- <-] & Hrel).
  pose proof (proj1 inserted_rehashed_below_limit _ _ _ _ _ Hrel Hwf) as Hload.
  split; [exact Hload|].
  destruct (inserted_wf _ _ _ _ _ Hrel Hwf) as (H' & _).
  destruct (Z_lt_le_dec (4 * capacity ht') (5 * size ht')) as [Hlt|Hle];
    [|exact Hle].
  rewrite (load_factor_gt_0_8_above _ _ (wf_capacity_In ht' H')
             (wf_size ht' H') Hlt) in Hload.
  discriminate.
Qed.

(** X6.  An insert that does not resize, followed by a delete of the same
    key, unlinks the node just inserted: every chain is as before the
    insert, and so is every search.  The size is as before only when the
    bucket was empty; when it held a chain, the size is one lower than
    before the insert. *)
Theorem insert_then_delete_restores_chains
        (ht : ht_t) (key : string) (value : Z) (ht1 : ht_t) :
  well_formed ht = true ->
  ht_insert (Some (Some ht)) (Some key) value
  = Done (E_SUCCESS, Some ht1, []) ->
  exists ht2,
    ht_delete (Some ht1) (Some key) = Done (E_SUCCESS, Some ht2) /\
    pp_items ht2 = pp_items ht /\
    capacity ht2 = capacity ht /\
    prime_index ht2 = prime_index ht /\
    size ht2 = (if is_occupied (bucket_of ht key)
                then (size ht - 1) mod 2 ^ 64 else size ht) /\
    forall k, ht_search (Some ht2) k = ht_search (Some ht) k.
Proof.
  intros Hwf Hins. apply well_formed_spec in Hwf.
  destruct (ht_insert_inserted _ _ _ _ Hwf Hins)
    as (ht1' & log & [= <- <-] & Hrel).
  apply inserted_nil in Hrel. subst ht1.
  eexists. split; [now apply ht_delete_link|].
  repeat split; reflexivity.
Qed.

(** X7.  On a well-formed table [ht_delete] with a key returns: either
    with success, and then exactly one entry is gone, an entry of the
    key's bucket whose key has the deletion key as a prefix, all other
    entries being kept; or with not-found, the table untouched, when the
    bucket has no such entry. *)
Theorem delete_removes_one_entry (ht : ht_t) (key : string) :
  well_formed ht = true ->
  (exists n ht',
      ht_delete (Some ht) (Some key) = Done (E_SUCCESS, Some ht') /\
      entries ht ≡ₚ n :: entries ht' /\
      In n (bucket_of ht key) /\
      is_prefix (cstr key) (cstr (p_key n)) = true /\
      well_formed ht' = true) \/
  (ht_delete (Some ht) (Some key) = Done (E_NODE_NOT_FOUND, Some ht) /\
   Forall (fun n => is_prefix (cstr key) (cstr (p_key n)) = false)
          (bucket_of ht key)).
Proof.
  intros Hwf. apply well_formed_spec in Hwf.
  pose proof (wf_lookup_bucket ht key Hwf) as Hb.
  pose proof (ht_delete_bucket ht key Hwf) as Hdel.
  destruct (delete_chain key (bucket_of ht key)) as [chain|] eqn:E.
  - left. apply delete_chain_Some in E as (pre & n & post & Hl & -> & Hn & _).
    eexists n, _. split; [exact Hdel|].
    split.
    { unfold entries; cbn [pp_items].
      apply (concat_insert_Permutation _ _ _ _ _ Hb).
      rewrite Hl. symmetry. apply Permutation_middle. }
    split; [rewrite Hl; apply in_elt|].
    split; [exact Hn|].
    apply well_formed_spec. now destruct (ht_delete_wf _ _ _ _ Hwf Hdel).
  - right. split; [exact Hdel|]. now apply delete_chain_None.
Qed.

(** X8.  On a well-formed table [ht_search] with a key returns: the value
    of an entry of the table whose key is the same C string, or [NULL]
    when the table has no entry with that key.  It never returns the
    value of another key.  A NULL key is not tested: it is passed on to
    [strlen]. *)
Theorem search_returns_value_of_equal_key (ht : ht_t) (key : string) :
  well_formed ht = true ->
  (exists value,
      ht_search (Some ht) (Some key) = Done value /\
      ((exists n, In n (entries ht) /\ cstr (p_key n) = cstr key /\
                  p_value n = value) \/
       (value = NULL /\
        forall n, In n (entries ht) -> cstr (p_key n) <> cstr key))) /\
  ht_search (Some ht) None = Undefined.
Proof.
  intros Hwf. apply well_formed_spec in Hwf. split; [|reflexivity].
  exists (search_chain key (entries ht)).
  split; [now apply ht_search_entries|].
  destruct (search_chain_cases key (entries ht))
    as [(n & Hn & Hk & Hv)|[Hv Hnone]].
  - left. exists n. auto.
  - right. auto.
Qed.

(** X9.  [ht_delete] with the empty key looks at bucket 0 and compares
    over zero bytes: on a well-formed table it unlinks the first entry of
    bucket 0, whatever its key, and returns not-found only when bucket 0
    is empty. *)
Theorem delete_with_empty_key (ht : ht_t) :
  well_formed ht = true ->
  ht_delete (Some ht) (Some ""%string)
  = match pp_items ht !! 0%nat with
    | Some (n :: p_next) =>
        Done (E_SUCCESS,
              Some {| pp_items := <[0%nat := p_next]> (pp_items ht);
                      capacity := capacity ht;
                      size := (size ht - 1) mod 2 ^ 64;
                      prime_index := prime_index ht |})
    | _ => Done (E_NODE_NOT_FOUND, Some ht)
    end.
Proof.
  intros Hwf. apply well_formed_spec in Hwf.
  pose proof (wf_capacity ht Hwf) as Hcap.
  assert (Hidx : index_of ht "" = 0).
  { unfold index_of. rewrite hash_of_empty. apply Z.mod_0_l. lia. }
  rewrite (ht_delete_bucket _ _ Hwf). unfold bucket_of. rewrite Hidx.
  change (Z.to_nat 0) with 0%nat.
  destruct (pp_items ht !! 0%nat) as [[|n p_next]|]; reflexivity.
Qed.

(** X10.  [ht_create] reads [g_primes] within bounds exactly for the ranks
    0 to 25.  There it returns an empty table of size 0, well formed, on
    which every search returns [NULL] and every delete returns not-found;
    for any other [int], negative ones included, the read is out of
    bounds. *)
Theorem ht_create_on_every_rank (rank : Z) :
  - 2 ^ 31 <= rank < 2 ^ 31 ->
  (0 <= rank < 26 ->
   exists ht,
     ht_create rank = Done (Some ht) /\
     size ht = 0 /\ entries ht = [] /\ prime_index ht = rank /\
     well_formed ht = true /\
     forall key,
       ht_search (Some ht) (Some key) = Done NULL /\
       ht_delete (Some ht) (Some key) = Done (E_NODE_NOT_FOUND, Some ht)) /\
  (rank < 0 \/ 26 <= rank -> ht_create rank = Undefined).
Proof.
  intros Hint. split.
  - intros Hr. destruct (ht_create_valid rank Hr) as (prime & _ & Hcreate).
    destruct (ht_create_wf _ _ Hcreate) as (Hwf & Hent & Hsz & _ & Hrank).
    eexists. split; [exact Hcreate|].
    split; [exact Hsz|]. split; [exact Hent|].
    split; [reflexivity|].
    split; [now apply well_formed_spec|].
    intros key. now apply search_chain_nil_bucket.
  - intros [Hneg|Hbig].
    + apply ht_create_negative. lia.
    + apply ht_create_out_of_range. lia.
Qed.

(** X11.  The array [error_desc_t] can be indexed by error code: for every
    enumerator the entry at its value carries that enumerator, the nine
    values are the indices 0 to 8 and any other index is out of bounds,
    and no two descriptions are the same. *)
Theorem error_desc_t_indexed_by_code :
  (forall e, exists d,
      array_get error_desc_t (error_code e) = Done d /\ code d = e /\
      error_desc_of e = Done (desc d)) /\
  (forall i d, array_get error_desc_t i = Done d -> error_code (code d) = i) /\
  (forall i, i < 0 \/ 9 <= i -> array_get error_desc_t i = Undefined) /\
  NoDup (map desc error_desc_t).
Proof.
  split; [intros []; eexists; (split; [reflexivity|split; reflexivity])|].
  split.
  { intros i d. unfold array_get.
    destruct (Z.ltb_spec i 0) as [|Hi]; [discriminate|].
    rewrite <- (Z2Nat.id i Hi) at 2.
    destruct (Z.to_nat i) as [|[|[|[|[|[|[|[|[|n]]]]]]]]];
      simpl; intros [= <-]; reflexivity. }
  split.
  { intros i [Hi|Hi]; unfold array_get.
    - apply Z.ltb_lt in Hi. now rewrite Hi.
    - destruct (i <? 0); [reflexivity|].
      rewrite (lookup_ge_None_2 error_desc_t); [reflexivity|].
      change (List.length error_desc_t) with 9%nat. lia. }
  simpl.
  repeat (apply NoDup_cons_2;
          [intros H;
           repeat (apply elem_of_cons in H as [H|H]; [discriminate H|]);
           now apply elem_of_nil in H|]).
  apply NoDup_nil_2.
Qed.

(** X12.  [murmurhash] reads the [length] bytes at the pointer and nothing
    behind them: on memory that holds them it returns a 32-bit word that
    does not depend on the memory behind them; on memory shorter than
    [length] it reads out of bounds, and so it does, the loop index never
    reaching 0, for a [length] of -4 or below.  [hash_str] always stays
    within the key, and gives keys that are the same C string the same
    hash. *)
Theorem murmurhash_reads_length_bytes :
  (forall bytes post post' seed,
      Forall is_byte bytes -> is_word seed ->
      exists hash,
        murmurhash (bytes ++ post) (Z.of_nat (List.length bytes)) seed
        = Done hash /\
        murmurhash (bytes ++ post') (Z.of_nat (List.length bytes)) seed
        = Done hash /\
        0 <= hash < 2 ^ 32) /\
  (forall key_ptr length seed,
      length <= -4 \/ Z.of_nat (List.length key_ptr) < length ->
      murmurhash key_ptr length seed = Undefined) /\
  (forall k1 k2,
      cstr k1 = cstr k2 ->
      exists hash,
        hash_str (Some k1) = Done hash /\ hash_str (Some k2) = Done hash /\
        0 <= hash < 2 ^ 32).
Proof.
  split.
  { intros bytes post post' seed Hbytes Hseed. eexists.
    split; [now apply murmurhash_absorb|].
    split; [now apply murmurhash_absorb|].
    apply (murmurhash_range (bytes ++ post) (Z.of_nat (List.length bytes)) seed).
    now apply murmurhash_absorb. }
  split; [exact murmurhash_out_of_bounds|].
  intros k1 k2 Hk. exists (hash_of k2).
  rewrite <- (hash_str_Some k2).
  split; [apply hash_str_strcmp; now apply strcmp_0_iff|].
  split; [reflexivity|].
  apply (murmurhash_range (bytes_of k2) (Z.of_nat (strlen k2)) 0).
  apply (hash_str_Some k2).
Qed.

(** X13.  Inserts and deletes that leave a key alone (inserts of other
    keys, deletes whose key is no prefix of it) keep the entries of the
    key, as a collection, through any number of resizes.  The result of
    [ht_search] for the key is unchanged when the table was not resized,
    and also across resizes when the key has at most one entry; duplicates
    of a key can change places in a resize. *)
Theorem other_operations_keep_search
        (ht : ht_t) (key : string) (ops : list operation) (ht' : ht_t) :
  well_formed ht = true ->
  forallb (leaves_alone key) ops = true ->
  run ops ht = Done ht' ->
  matching key ht' ≡ₚ matching key ht /\
  (prime_index ht' = prime_index ht ->
   ht_search (Some ht') (Some key) = ht_search (Some ht) (Some key)) /\
  ((List.length (matching key ht) <= 1)%nat ->
   ht_search (Some ht') (Some key) = ht_search (Some ht) (Some key)).
Proof.
  intros Hwf Hops Hrun. apply well_formed_spec in Hwf.
  destruct (run_entries _ _ _ _ Hwf Hops Hrun) as (H' & Hperm).
  destruct (run_matching _ _ _ _ Hwf Hops Hrun) as (_ & _ & Hm).
  fold (matching key ht') in Hperm. fold (matching key ht) in Hperm.
  split; [exact Hperm|]. split.
  - intros Hrank. rewrite !ht_search_matching by assumption.
    now rewrite Hm.
  - intros Hlen. rewrite !ht_search_entries by assumption.
    rewrite (search_chain_filter key (entries ht')),
            (search_chain_filter key (entries ht)).
    fold (matching key ht') (matching key ht).
    destruct (matching key ht) as [|n [|m l]]; simpl in Hlen; try lia.
    + apply Permutation_nil_r in Hperm. now rewrite Hperm.
    + apply Permutation_singleton_r in Hperm. now rewrite Hperm.
Qed.

End Platform.

(** * The properties at concrete inputs *)

(** The hash function on known inputs. *)
Example murmurhash_known_values :
  hash_str LittleEndian (Some "a"%string) = Done 0x3c2569b2 /\
  hash_str LittleEndian (Some "hello"%string) = Done 0x248bfa47.
Proof. split; vm_compute; reflexivity. Qed.

(** C3 at the five bytes of "hello", seed 0, on a little-endian
    platform: the code and the specified algorithm give 0x248bfa47, the
    value of MurmurHash3 (x86, 32 bits). *)
Lemma murmurhash_computes_spec_hash_witness :
  Forall is_byte [104; 101; 108; 108; 111] /\
  is_word 0 /\
  Z.of_nat (List.length [104; 101; 108; 108; 111]) < 2 ^ 31 /\
  murmurhash LittleEndian ([104; 101; 108; 108; 111] ++ [0])
             (Z.of_nat (List.length [104; 101; 108; 108; 111])) 0
  = Done (spec_hash LittleEndian [104; 101; 108; 108; 111] 0) /\
  spec_hash LittleEndian [104; 101; 108; 108; 111] 0 = 0x248bfa47 /\
  spec_rotl 0x80000001 15 = 0x0000c000 /\
  spec_word LittleEndian 104 101 108 108 = 0x6c6c6568.
Proof.
  assert (Hbytes : Forall is_byte [104; 101; 108; 108; 111])
    by (repeat constructor; unfold is_byte; lia).
  assert (Hseed : is_word 0) by (unfold is_word; lia).
  assert (Hlen : Z.of_nat (List.length [104; 101; 108; 108; 111]) < 2 ^ 31)
    by (simpl; lia).
  split; [exact Hbytes|]. split; [exact Hseed|]. split; [exact Hlen|].
  split.
  - exact (proj1 (murmurhash_computes_spec_hash LittleEndian _ [0] 0
                    Hbytes Hseed Hlen)).
  - repeat split; vm_compute; reflexivity.
Defined.

(** C1 at a table that holds "a": the second insert of "a" is found after
    an insert and a delete of "b"; and at a fresh table: the insert of "a"
    is found after forty-two inserts, the last of which resizes. *)
Lemma latest_insert_found_witness :
  (exists ht ht1 ht2,
      table_of LittleEndian 0 [Insert "a" 1] = Done ht /\
      well_formed LittleEndian ht = true /\
      ht_insert LittleEndian (Some (Some ht)) (Some "a"%string) 3
      = Done (E_SUCCESS, Some ht1, []) /\
      forallb (leaves_alone "a") [Insert "b" 2; Delete "b"] = true /\
      run LittleEndian [Insert "b" 2; Delete "b"] ht1 = Done ht2 /\
      prime_index ht2 = prime_index ht1 /\
      ht_search LittleEndian (Some ht2) (Some "a"%string) = Done 3) /\
  (exists ht ht1 ht2,
      table_of LittleEndian 0 [] = Done ht /\
      well_formed LittleEndian ht = true /\
      ht_insert LittleEndian (Some (Some ht)) (Some "a"%string) 1
      = Done (E_SUCCESS, Some ht1, []) /\
      forallb (leaves_alone "a") (map (fun k => Insert k 0) spread_keys)
      = true /\
      run LittleEndian (map (fun k => Insert k 0) spread_keys) ht1
      = Done ht2 /\
      prime_index ht1 = 0 /\ prime_index ht2 = 1 /\
      ht_search LittleEndian (Some ht2) (Some "a"%string) = Done 1).
Proof.
  split.
  - evar (ht : ht_t). evar (ht1 : ht_t). evar (ht2 : ht_t).
    assert (Hht : table_of LittleEndian 0 [Insert "a" 1] = Done ht)
      by (unfold ht; vm_compute; reflexivity).
    assert (Hwf : well_formed LittleEndian ht = true)
      by (vm_compute; reflexivity).
    assert (Hins : ht_insert LittleEndian (Some (Some ht)) (Some "a"%string) 3
                   = Done (E_SUCCESS, Some ht1, []))
      by (unfold ht1; vm_compute; reflexivity).
    assert (Hops : forallb (leaves_alone "a") [Insert "b" 2; Delete "b"]
                   = true)
      by (vm_compute; reflexivity).
    assert (Hrun : run LittleEndian [Insert "b" 2; Delete "b"] ht1 = Done ht2)
      by (unfold ht2; vm_compute; reflexivity).
    assert (Hrank : prime_index ht2 = prime_index ht1)
      by (vm_compute; reflexivity).
    pose proof (latest_insert_found LittleEndian ht "a" 3 ht1 [] _ ht2
                  Hwf Hins Hops Hrun) as [Hsame _].
    destruct (Hsame eq_refl Hrank) as (_ & _ & Hsearch).
    exists ht, ht1, ht2.
    split; [exact Hht|]. split; [exact Hwf|]. split; [exact Hins|].
    split; [exact Hops|]. split; [exact Hrun|]. split; [exact Hrank|].
    exact Hsearch.
  - evar (ht : ht_t). evar (ht1 : ht_t). evar (ht2 : ht_t).
    assert (Hht : table_of LittleEndian 0 [] = Done ht)
      by (unfold ht; vm_compute; reflexivity).
    assert (Hwf : well_formed LittleEndian ht = true)
      by (vm_compute; reflexivity).
    assert (Hins : ht_insert LittleEndian (Some (Some ht)) (Some "a"%string) 1
                   = Done (E_SUCCESS, Some ht1, []))
      by (unfold ht1; vm_compute; reflexivity).
    assert (Hops : forallb (leaves_alone "a")
                           (map (fun k => Insert k 0) spread_keys) = true)
      by (vm_compute; reflexivity).
    assert (Hrun : run LittleEndian (map (fun k => Insert k 0) spread_keys) ht1
                   = Done ht2)
      by (unfold ht2; vm_compute; reflexivity).
    pose proof (latest_insert_found LittleEndian ht "a" 1 ht1 [] _ ht2
                  Hwf Hins Hops Hrun) as [_ Hnew].
    exists ht, ht1, ht2.
    split; [exact Hht|]. split; [exact Hwf|]. split; [exact Hins|].
    split; [exact Hops|]. split; [exact Hrun|].
    split; [vm_compute; reflexivity|]. split; [vm_compute; reflexivity|].
    apply Hnew. vm_compute; reflexivity.
Defined.

(** C1 as written fails across a resize: "a" is inserted with 1 and then
    with 3 and never deleted; the forty-second of the inserts that follow
    resizes the table, the chain of "a" is re-inserted from its head, and
    the search finds 1. *)
Lemma search_finds_older_insert_after_resize :
  exists ht_before ht,
    table_of LittleEndian 0 (removelast shadowed_then_resized)
    = Done ht_before /\
    ht_search LittleEndian (Some ht_before) (Some "a"%string) = Done 3 /\
    prime_index ht_before = 0 /\
    table_of LittleEndian 0 shadowed_then_resized = Done ht /\
    prime_index ht = 1 /\
    ht_search LittleEndian (Some ht) (Some "a"%string) = Done 1.
Proof.
  do 2 eexists.
  do 5 (split; [vm_compute; reflexivity|]).
  vm_compute; reflexivity.
Qed.

(** C5 at a table of rank 0 that holds the forty-two keys: the insert of
    "a" occupies the forty-third bucket of 53 and moves the table to
    rank 1. *)
Lemma resize_above_load_limit_witness :
  exists ht ht',
    table_of LittleEndian 0 (map (fun k => Insert k 0) spread_keys)
    = Done ht /\
    well_formed LittleEndian ht = true /\
    4 * capacity ht < 5 * size (link LittleEndian ht "a" 1) /\
    prime_index ht < 25 /\
    Z.of_nat (List.length (entries ht)) < 1288490175 /\
    ht_insert LittleEndian (Some (Some ht)) (Some "a"%string) 1
    = Done (E_SUCCESS, Some ht', [link LittleEndian ht "a" 1]) /\
    prime_index ht' = 1 /\
    ht_search LittleEndian (Some ht') (Some "a"%string) = Done 1.
Proof.
  evar (ht : ht_t).
  assert (Hht : table_of LittleEndian 0 (map (fun k => Insert k 0) spread_keys)
                = Done ht) by (unfold ht; vm_compute; reflexivity).
  assert (Hwf : well_formed LittleEndian ht = true)
    by (vm_compute; reflexivity).
  assert (Hratio : 4 * capacity ht < 5 * size (link LittleEndian ht "a" 1))
    by (vm_compute; reflexivity).
  assert (Hrank : prime_index ht < 25) by (vm_compute; reflexivity).
  assert (He : Z.of_nat (List.length (entries ht)) < 1288490175)
    by (vm_compute; reflexivity).
  destruct (resize_above_load_limit LittleEndian ht "a" 1 Hwf Hratio Hrank He)
    as (p & ht' & log & _ & _ & _ & Hins & Hr & _ & Hfit & _ & _ & _ & Hsearch).
  assert (Hlog : log = []) by (apply Hfit; vm_compute; reflexivity).
  subst log. exists ht, ht'.
  split; [exact Hht|]. split; [exact Hwf|]. split; [exact Hratio|].
  split; [exact Hrank|]. split; [exact He|]. split; [exact Hins|].
  split; [rewrite Hr; vm_compute; reflexivity|].
  apply (Hsearch (node_create "a" 1)); [now left|].
  assert (Hnone : forallb (fun n => negb (strcmp "a" (p_key n) =? 0))
                          (entries ht) = true)
    by (vm_compute; reflexivity).
  rewrite forallb_forall in Hnone.
  intros n' [<-|Hin]; [reflexivity|]. intros Hcmp.
  specialize (Hnone n' Hin). cbn [p_key node_create] in Hcmp.
  rewrite Hcmp in Hnone. discriminate.
Defined.

(** C5 as written fails on the last rank: the table reached from
    [ht_create (25)] by three inserts of "a" and two deletes has a wrapped
    size, the insert finds the load factor above 0.8, and [ht_create (26)]
    reads past the end of [g_primes]. *)
Lemma insert_on_last_rank_is_undefined :
  table_of LittleEndian 25
           [Insert "a" 1; Insert "a" 2; Insert "a" 3; Delete "a"; Delete "a"]
  = Done (last_rank_table LittleEndian) /\
  wf LittleEndian (last_rank_table LittleEndian) /\
  prime_index (last_rank_table LittleEndian) = 25 /\
  4 * capacity (last_rank_table LittleEndian)
  < 5 * size (link LittleEndian (last_rank_table LittleEndian) "a" 4) /\
  load_factor_gt_0_8
    (size (link LittleEndian (last_rank_table LittleEndian) "a" 4))
    (capacity (last_rank_table LittleEndian)) = true /\
  ht_create 26 = Undefined /\
  ht_insert LittleEndian (Some (Some (last_rank_table LittleEndian)))
            (Some "a"%string) 4
  = Undefined.
Proof.
  assert (Hprime : g_primes !! 25%nat = Some 1610612741) by reflexivity.
  assert (Hwf : wf LittleEndian (last_rank_table LittleEndian)).
  { apply one_chain_wf; [lia|exact Hprime|lia|].
    constructor; [reflexivity|constructor]. }
  assert (Hsize : size (link LittleEndian (last_rank_table LittleEndian) "a" 4)
                  = 2 ^ 64 - 1).
  { unfold last_rank_table. rewrite one_chain_link by lia. reflexivity. }
  split.
  { apply (one_chain_wraps LittleEndian 25 1610612741 "a" 1 2 3);
      [lia|exact Hprime|vm_compute; reflexivity]. }
  split; [exact Hwf|].
  split; [reflexivity|].
  change (capacity (last_rank_table LittleEndian)) with 1610612741.
  rewrite Hsize.
  split; [reflexivity|].
  split; [vm_compute; reflexivity|].
  split; [reflexivity|].
  apply one_chain_last_rank; [exact Hprime|exact Hwf|vm_compute; reflexivity].
Qed.

(** C9 at the table that holds the forty-two keys: the insert of "a"
    returns, on a table of rank 1 with the capacity of that rank. *)
Lemma capacity_of_rank_witness :
  exists ht ht' log,
    table_of LittleEndian 0 (map (fun k => Insert k 0) spread_keys)
    = Done ht /\
    well_formed LittleEndian ht = true /\
    prime_index ht < 25 /\
    Z.of_nat (List.length (entries ht)) < 1288490175 /\
    ht_insert LittleEndian (Some (Some ht)) (Some "a"%string) 1
    = Done (E_SUCCESS, Some ht', log) /\
    invariant_A ht' = true /\
    prime_index ht' = prime_index ht + Z.of_nat (List.length log) /\
    prime_index ht = 0 /\ prime_index ht' = 1 /\ capacity ht' = 97.
Proof.
  evar (ht : ht_t).
  assert (Hht : table_of LittleEndian 0 (map (fun k => Insert k 0) spread_keys)
                = Done ht)
    by (unfold ht; vm_compute; reflexivity).
  assert (Hwf : well_formed LittleEndian ht = true)
    by (vm_compute; reflexivity).
  assert (Hrank : prime_index ht < 25) by (vm_compute; reflexivity).
  assert (He : Z.of_nat (List.length (entries ht)) < 1288490175)
    by (vm_compute; reflexivity).
  destruct (capacity_of_rank LittleEndian) as (_ & _ & _ & Hinsert & _).
  destruct (Hinsert ht "a"%string 1 Hwf Hrank He)
    as (ht' & log & Hins & HA & _ & Hmoved).
  evar (ht0 : ht_t). evar (log0 : list ht_t).
  assert (Hc : ht_insert LittleEndian (Some (Some ht)) (Some "a"%string) 1
               = Done (E_SUCCESS, Some ht0, log0))
    by (unfold ht0, log0; vm_compute; reflexivity).
  assert (E : Done (E_SUCCESS, Some ht', log)
              = Done (E_SUCCESS, Some ht0, log0))
    by (rewrite <- Hins; exact Hc).
  injection E as -> ->.
  exists ht, ht0, log0.
  split; [exact Hht|]. split; [exact Hwf|]. split; [exact Hrank|].
  split; [exact He|]. split; [exact Hins|]. split; [exact HA|].
  split; [exact Hmoved|]. repeat split; vm_compute; reflexivity.
Defined.

(** C9 as written fails on the last rank: the table reached from
    [ht_create (25)] by three inserts of "b" and two deletes satisfies
    [capacity == g_primes[prime_index]]; its size has wrapped, the next
    insert resizes, there is no capacity of rank 26, and the insert
    leaves no table for the invariant to hold on. *)
Lemma insert_on_last_rank_leaves_no_table :
  table_of LittleEndian 25
           [Insert "b" 1; Insert "b" 2; Insert "b" 3; Delete "b"; Delete "b"]
  = Done (one_chain LittleEndian 25 1610612741 "b" [node_create "b" 1]
                    (2 ^ 64 - 1)) /\
  invariant_A (one_chain LittleEndian 25 1610612741 "b" [node_create "b" 1]
                         (2 ^ 64 - 1)) = true /\
  g_primes !! 25%nat = Some 1610612741 /\
  g_primes !! 26%nat = None /\
  ht_insert LittleEndian
            (Some (Some (one_chain LittleEndian 25 1610612741 "b"
                                   [node_create "b" 1] (2 ^ 64 - 1))))
            (Some "b"%string) 4
  = Undefined.
Proof.
  assert (Hprime : g_primes !! 25%nat = Some 1610612741) by reflexivity.
  assert (Hwf : wf LittleEndian
                   (one_chain LittleEndian 25 1610612741 "b"
                              [node_create "b" 1] (2 ^ 64 - 1))).
  { apply one_chain_wf; [lia|exact Hprime|lia|].
    constructor; [reflexivity|constructor]. }
  split.
  { apply (one_chain_wraps LittleEndian 25 1610612741 "b" 1 2 3);
      [lia|exact Hprime|vm_compute; reflexivity]. }
  split; [exact (wf_A _ _ Hwf)|].
  split; [exact Hprime|]. split; [reflexivity|].
  apply one_chain_last_rank; [exact Hprime|exact Hwf|vm_compute; reflexivity].
Qed.

(** C6 at a table that holds "P": "5" goes into the bucket of "P" and the
    size stays 1; and at the table that holds the forty-two keys: the
    insert of "a" resizes, and the size of the table of rank 1 is the
    number of its occupied buckets. *)
Lemma size_counts_occupied_buckets_witness :
  (exists ht ht',
      table_of LittleEndian 0 [Insert "P" 1] = Done ht /\
      well_formed LittleEndian ht = true /\
      ht_insert LittleEndian (Some (Some ht)) (Some "5"%string) 2
      = Done (E_SUCCESS, Some ht', []) /\
      is_occupied (bucket_of LittleEndian ht "5") = true /\
      size ht' = size ht /\
      invariant_B ht' = true) /\
  (exists ht ht' log,
      table_of LittleEndian 0 (map (fun k => Insert k 0) spread_keys)
      = Done ht /\
      well_formed LittleEndian ht = true /\
      ht_insert LittleEndian (Some (Some ht)) (Some "a"%string) 1
      = Done (E_SUCCESS, Some ht', log) /\
      List.length log = 1%nat /\
      size ht' = Z.of_nat (occupied ht') /\
      prime_index ht < prime_index ht').
Proof.
  split.
  - evar (ht : ht_t). evar (ht' : ht_t).
    assert (Hht : table_of LittleEndian 0 [Insert "P" 1] = Done ht)
      by (unfold ht; vm_compute; reflexivity).
    assert (Hwf : well_formed LittleEndian ht = true)
      by (vm_compute; reflexivity).
    assert (Hins : ht_insert LittleEndian (Some (Some ht)) (Some "5"%string) 2
                   = Done (E_SUCCESS, Some ht', []))
      by (unfold ht'; vm_compute; reflexivity).
    assert (Hocc : is_occupied (bucket_of LittleEndian ht "5") = true)
      by (vm_compute; reflexivity).
    destruct (size_counts_occupied_buckets LittleEndian ht "5" 2 ht' []
                Hwf Hins) as (_ & _ & _ & Hplace & _ & HB).
    destruct (Hplace eq_refl) as [_ Hsize]. rewrite Hocc in Hsize.
    exists ht, ht'.
    split; [exact Hht|]. split; [exact Hwf|]. split; [exact Hins|].
    split; [exact Hocc|]. split; [exact Hsize|].
    apply HB. vm_compute; reflexivity.
  - evar (ht : ht_t). evar (ht' : ht_t). evar (log : list ht_t).
    assert (Hht : table_of LittleEndian 0
                           (map (fun k => Insert k 0) spread_keys) = Done ht)
      by (unfold ht; vm_compute; reflexivity).
    assert (Hwf : well_formed LittleEndian ht = true)
      by (vm_compute; reflexivity).
    assert (Hins : ht_insert LittleEndian (Some (Some ht)) (Some "a"%string) 1
                   = Done (E_SUCCESS, Some ht', log))
      by (unfold ht', log; vm_compute; reflexivity).
    assert (Hlen : List.length log = 1%nat) by (vm_compute; reflexivity).
    destruct (size_counts_occupied_buckets LittleEndian ht "a" 1 ht' log
                Hwf Hins) as (_ & _ & _ & _ & Hresized & _).
    assert (Hlog : log <> []) by (intros E; rewrite E in Hlen; discriminate).
    destruct (Hresized Hlog) as (_ & Hsize & Hrank).
    exists ht, ht', log.
    split; [exact Hht|]. split; [exact Hwf|]. split; [exact Hins|].
    split; [exact Hlen|]. split; [exact Hsize|exact Hrank].
Defined.

(** C6 as written fails for an insert that resizes: on the table that
    holds the forty-two keys, with size 42, the insert of "a" goes into an
    empty bucket, and the size of the table the handle ends on is 34, not
    43: the forty-three entries occupy thirty-four of the 97 buckets. *)
Lemma resizing_insert_recounts_size :
  exists ht ht',
    table_of LittleEndian 0 (map (fun k => Insert k 0) spread_keys)
    = Done ht /\
    well_formed LittleEndian ht = true /\
    invariant_B ht = true /\
    size ht = 42 /\
    is_occupied (bucket_of LittleEndian ht "a") = false /\
    ht_insert LittleEndian (Some (Some ht)) (Some "a"%string) 1
    = Done (E_SUCCESS, Some ht', [link LittleEndian ht "a" 1]) /\
    size (link LittleEndian ht "a" 1) = 43 /\
    size ht' = 34 /\ capacity ht' = 97.
Proof.
  do 2 eexists.
  do 8 (split; [vm_compute; reflexivity|]).
  vm_compute; reflexivity.
Qed.

(** C7 at a table that holds "e" and "f" in one bucket: the delete of "e"
    takes the size from 1 to 0 and leaves "f" in the bucket. *)
Lemma delete_decrements_size_witness :
  exists ht ht',
    table_of LittleEndian 0 [Insert "e" 1; Insert "f" 2] = Done ht /\
    well_formed LittleEndian ht = true /\
    ht_delete LittleEndian (Some ht) (Some "e"%string)
    = Done (E_SUCCESS, Some ht') /\
    (2 <= List.length (bucket_of LittleEndian ht "e"))%nat /\
    size ht = 1 /\ size ht' = 0 /\
    bucket_of LittleEndian ht' "e" <> [] /\
    occupied ht' = occupied ht.
Proof.
  evar (ht : ht_t). evar (ht' : ht_t).
  assert (Hht : table_of LittleEndian 0 [Insert "e" 1; Insert "f" 2] = Done ht)
    by (unfold ht; vm_compute; reflexivity).
  assert (Hwf : well_formed LittleEndian ht = true)
    by (vm_compute; reflexivity).
  assert (Hdel : ht_delete LittleEndian (Some ht) (Some "e"%string)
                 = Done (E_SUCCESS, Some ht'))
    by (unfold ht'; vm_compute; reflexivity).
  assert (Hlen : (2 <= List.length (bucket_of LittleEndian ht "e"))%nat)
    by (vm_compute; lia).
  assert (Hsz : size ht = 1) by (vm_compute; reflexivity).
  destruct (delete_decrements_size LittleEndian ht "e" ht' Hwf Hdel)
    as (Hsize & _ & Hmany).
  exists ht, ht'.
  split; [exact Hht|]. split; [exact Hwf|]. split; [exact Hdel|].
  split; [exact Hlen|]. split; [exact Hsz|].
  split; [rewrite Hsize, Hsz; reflexivity|].
  exact (Hmany Hlen).
Defined.

(** X3 at the table that holds the forty-two keys: the insert of "a"
    resizes and returns, and the table of rank 1 holds the forty-three
    entries. *)
Lemma insert_returns_witness :
  exists ht ht' log,
    table_of LittleEndian 0 (map (fun k => Insert k 0) spread_keys)
    = Done ht /\
    well_formed LittleEndian ht = true /\
    prime_index ht < 25 /\
    Z.of_nat (List.length (entries ht)) < 1288490175 /\
    ht_insert LittleEndian (Some (Some ht)) (Some "a"%string) 1
    = Done (E_SUCCESS, Some ht', log) /\
    List.length log = 1%nat /\
    well_formed LittleEndian ht' = true /\
    entries ht' ≡ₚ node_create "a" 1 :: entries ht /\
    List.length (entries ht) = 42%nat /\
    List.length (entries ht') = 43%nat.
Proof.
  evar (ht : ht_t).
  assert (Hht : table_of LittleEndian 0 (map (fun k => Insert k 0) spread_keys)
                = Done ht)
    by (unfold ht; vm_compute; reflexivity).
  assert (Hwf : well_formed LittleEndian ht = true)
    by (vm_compute; reflexivity).
  assert (Hrank : prime_index ht < 25) by (vm_compute; reflexivity).
  assert (He : Z.of_nat (List.length (entries ht)) < 1288490175)
    by (vm_compute; reflexivity).
  destruct (insert_returns LittleEndian ht "a" 1 Hwf Hrank He)
    as (ht' & log & Hins & Hwf' & Hperm).
  evar (ht0 : ht_t). evar (log0 : list ht_t).
  assert (Hc : ht_insert LittleEndian (Some (Some ht)) (Some "a"%string) 1
               = Done (E_SUCCESS, Some ht0, log0))
    by (unfold ht0, log0; vm_compute; reflexivity).
  assert (E : Done (E_SUCCESS, Some ht', log)
              = Done (E_SUCCESS, Some ht0, log0))
    by (rewrite <- Hins; exact Hc).
  injection E as -> ->.
  exists ht, ht0, log0.
  split; [exact Hht|]. split; [exact Hwf|]. split; [exact Hrank|].
  split; [exact He|]. split; [exact Hins|].
  split; [vm_compute; reflexivity|]. split; [exact Hwf'|].
  split; [exact Hperm|]. split; vm_compute; reflexivity.
Defined.

(** X14.  The chunk loop of [murmurhash] loads four bytes as one
    [uint32_t], in the byte order of the platform: inputs of fewer than
    four bytes, and so keys of fewer than four characters, hash alike on
    both byte orders; longer keys need not, as "hello" shows. *)
Theorem hash_depends_on_byte_order :
  (forall key_ptr length seed,
      0 <= length < 4 ->
      murmurhash LittleEndian key_ptr length seed
      = murmurhash BigEndian key_ptr length seed) /\
  (forall key,
      (strlen key < 4)%nat ->
      hash_str LittleEndian (Some key) = hash_str BigEndian (Some key)) /\
  hash_str LittleEndian (Some "hello"%string) = Done 0x248bfa47 /\
  hash_str BigEndian (Some "hello"%string) = Done 0x84c85fd5.
Proof.
  assert (Hshort : forall key_ptr length seed,
             0 <= length < 4 ->
             murmurhash LittleEndian key_ptr length seed
             = murmurhash BigEndian key_ptr length seed).
  { intros key_ptr length seed Hlen. unfold murmurhash. cbv zeta.
    rewrite (Z.quot_small length 4) by lia. reflexivity. }
  split; [exact Hshort|].
  split; [|split; vm_compute; reflexivity].
  intros key Hlen. unfold hash_str. apply Hshort. lia.
Qed.

(** X4 at the table reached by an insert and a delete of "a". *)
Lemma reached_tables_are_well_formed_witness :
  exists ht,
    table_of LittleEndian 0 [Insert "a" 1; Delete "a"] = Done ht /\
    well_formed LittleEndian ht = true /\
    ht_destroy (Some ht) = Done E_SUCCESS.
Proof.
  evar (ht : ht_t).
  assert (Hht : table_of LittleEndian 0 [Insert "a" 1; Delete "a"] = Done ht)
    by (unfold ht; vm_compute; reflexivity).
  destruct (reached_tables_are_well_formed LittleEndian 0 _ ht Hht)
    as (Hwf & _ & _ & _ & Hdestroy).
  exists ht. split; [exact Hht|]. split; [exact Hwf|exact Hdestroy].
Defined.

(** X5 at the table that holds the forty-two keys: the insert of "a"
    resizes, and the table of rank 1 is below the load limit. *)
Lemma insert_ends_below_load_limit_witness :
  exists ht ht' log,
    table_of LittleEndian 0 (map (fun k => Insert k 0) spread_keys)
    = Done ht /\
    well_formed LittleEndian ht = true /\
    ht_insert LittleEndian (Some (Some ht)) (Some "a"%string) 1
    = Done (E_SUCCESS, Some ht', log) /\
    prime_index ht' = 1 /\
    5 * size ht' <= 4 * capacity ht'.
Proof.
  evar (ht : ht_t). evar (ht' : ht_t). evar (log : list ht_t).
  assert (Hht : table_of LittleEndian 0 (map (fun k => Insert k 0) spread_keys)
                = Done ht)
    by (unfold ht; vm_compute; reflexivity).
  assert (Hwf : well_formed LittleEndian ht = true)
    by (vm_compute; reflexivity).
  assert (Hins : ht_insert LittleEndian (Some (Some ht)) (Some "a"%string) 1
                 = Done (E_SUCCESS, Some ht', log))
    by (unfold ht', log; vm_compute; reflexivity).
  destruct (insert_ends_below_load_limit LittleEndian ht "a" 1 ht' log
              Hwf Hins) as [_ Hle].
  exists ht, ht', log.
  split; [exact Hht|]. split; [exact Hwf|]. split; [exact Hins|].
  split; [vm_compute; reflexivity|exact Hle].
Defined.

(** X6 at a table that holds "P": "5" is inserted into the bucket of "P"
    and deleted; the chains are back, the size is 0 instead of 1. *)
Lemma insert_then_delete_restores_chains_witness :
  exists ht ht1 ht2,
    table_of LittleEndian 0 [Insert "P" 1] = Done ht /\
    well_formed LittleEndian ht = true /\
    ht_insert LittleEndian (Some (Some ht)) (Some "5"%string) 2
    = Done (E_SUCCESS, Some ht1, []) /\
    ht_delete LittleEndian (Some ht1) (Some "5"%string)
    = Done (E_SUCCESS, Some ht2) /\
    pp_items ht2 = pp_items ht /\
    size ht = 1 /\ size ht2 = 0.
Proof.
  evar (ht : ht_t). evar (ht1 : ht_t).
  assert (Hht : table_of LittleEndian 0 [Insert "P" 1] = Done ht)
    by (unfold ht; vm_compute; reflexivity).
  assert (Hwf : well_formed LittleEndian ht = true)
    by (vm_compute; reflexivity).
  assert (Hins : ht_insert LittleEndian (Some (Some ht)) (Some "5"%string) 2
                 = Done (E_SUCCESS, Some ht1, []))
    by (unfold ht1; vm_compute; reflexivity).
  destruct (insert_then_delete_restores_chains LittleEndian ht "5" 2 ht1
              Hwf Hins) as (ht2 & Hdel & Hitems & _ & _ & Hsize & _).
  exists ht, ht1, ht2.
  split; [exact Hht|]. split; [exact Hwf|]. split; [exact Hins|].
  split; [exact Hdel|]. split; [exact Hitems|].
  split; [vm_compute; reflexivity|].
  rewrite Hsize. vm_compute. reflexivity.
Defined.

(** X7 at a table that holds "is": the delete of "i" removes it. *)
Lemma delete_removes_one_entry_witness :
  exists ht,
    table_of LittleEndian 0 [Insert "is" 7] = Done ht /\
    well_formed LittleEndian ht = true /\
    exists n ht',
      ht_delete LittleEndian (Some ht) (Some "i"%string)
      = Done (E_SUCCESS, Some ht') /\
      entries ht ≡ₚ n :: entries ht' /\
      is_prefix (cstr "i") (cstr (p_key n)) = true.
Proof.
  evar (ht : ht_t).
  assert (Hht : table_of LittleEndian 0 [Insert "is" 7] = Done ht)
    by (unfold ht; vm_compute; reflexivity).
  assert (Hwf : well_formed LittleEndian ht = true)
    by (vm_compute; reflexivity).
  exists ht. split; [exact Hht|]. split; [exact Hwf|].
  destruct (delete_removes_one_entry LittleEndian ht "i" Hwf)
    as [(n & ht' & Hdel & Hperm & _ & Hn & _)|[Hdel _]].
  - exists n, ht'. auto.
  - exfalso. vm_compute in Hdel. discriminate Hdel.
Defined.

(** X8 at a table that holds "a" and "b": the search for "a" returns the
    value of an entry of "a". *)
Lemma search_returns_value_of_equal_key_witness :
  exists ht,
    table_of LittleEndian 0 [Insert "a" 1; Insert "b" 2] = Done ht /\
    well_formed LittleEndian ht = true /\
    exists n,
      In n (entries ht) /\ cstr (p_key n) = cstr "a" /\
      ht_search LittleEndian (Some ht) (Some "a"%string) = Done (p_value n).
Proof.
  evar (ht : ht_t).
  assert (Hht : table_of LittleEndian 0 [Insert "a" 1; Insert "b" 2] = Done ht)
    by (unfold ht; vm_compute; reflexivity).
  assert (Hwf : well_formed LittleEndian ht = true)
    by (vm_compute; reflexivity).
  exists ht. split; [exact Hht|]. split; [exact Hwf|].
  destruct (search_returns_value_of_equal_key LittleEndian ht "a" Hwf)
    as [(value & Hsearch & [(n & Hn & Hk & Hv)|[_ Hnone]]) _].
  - exists n. rewrite Hv. auto.
  - exfalso. apply (Hnone (node_create "a" 1)); [|reflexivity].
    vm_compute. tauto.
Defined.

(** X9 at a table that holds "0", a key of bucket 0: the delete with the
    empty key removes it. *)
Lemma delete_with_empty_key_witness :
  exists ht ht',
    table_of LittleEndian 0 [Insert "0" 1] = Done ht /\
    well_formed LittleEndian ht = true /\
    ht_search LittleEndian (Some ht) (Some "0"%string) = Done 1 /\
    ht_delete LittleEndian (Some ht) (Some ""%string)
    = Done (E_SUCCESS, Some ht') /\
    entries ht' = [].
Proof.
  evar (ht : ht_t). evar (ht' : ht_t).
  assert (Hht : table_of LittleEndian 0 [Insert "0" 1] = Done ht)
    by (unfold ht; vm_compute; reflexivity).
  assert (Hwf : well_formed LittleEndian ht = true)
    by (vm_compute; reflexivity).
  assert (Hdel : match pp_items ht !! 0%nat with
                 | Some (n :: p_next) =>
                     Done (E_SUCCESS,
                           Some {| pp_items := <[0%nat := p_next]> (pp_items ht);
                                   capacity := capacity ht;
                                   size := (size ht - 1) mod 2 ^ 64;
                                   prime_index := prime_index ht |})
                 | _ => Done (E_NODE_NOT_FOUND, Some ht)
                 end = Done (E_SUCCESS, Some ht'))
    by (unfold ht'; vm_compute; reflexivity).
  rewrite <- (delete_with_empty_key LittleEndian ht Hwf) in Hdel.
  exists ht, ht'.
  split; [exact Hht|]. split; [exact Hwf|].
  split; [vm_compute; reflexivity|].
  split; [exact Hdel|vm_compute; reflexivity].
Defined.

(** X10 at rank 0. *)
Lemma ht_create_on_every_rank_witness :
  - 2 ^ 31 <= 0 < 2 ^ 31 /\
  exists ht,
    ht_create 0 = Done (Some ht) /\ capacity ht = 53 /\
    ht_search LittleEndian (Some ht) (Some "a"%string) = Done NULL.
Proof.
  assert (Hint : - 2 ^ 31 <= 0 < 2 ^ 31) by lia.
  split; [exact Hint|].
  destruct (ht_create_on_every_rank LittleEndian 0 Hint) as [Hvalid _].
  destruct (Hvalid ltac:(lia)) as (ht & Hcreate & _ & _ & _ & _ & Hkey).
  exists ht. split; [exact Hcreate|].
  split; [|exact (proj1 (Hkey "a"%string))].
  assert (Hc : ht_create 0 = Done (Some ht)) by exact Hcreate.
  vm_compute in Hc. injection Hc as <-. reflexivity.
Defined.

(** X13 at a table that holds "a": an insert and a delete of "b" leave
    the search for "a" as it was. *)
Lemma other_operations_keep_search_witness :
  exists ht ht',
    table_of LittleEndian 0 [Insert "a" 1] = Done ht /\
    well_formed LittleEndian ht = true /\
    forallb (leaves_alone "a") [Insert "b" 2; Delete "b"] = true /\
    run LittleEndian [Insert "b" 2; Delete "b"] ht = Done ht' /\
    ht_search LittleEndian (Some ht') (Some "a"%string)
    = ht_search LittleEndian (Some ht) (Some "a"%string).
Proof.
  evar (ht : ht_t). evar (ht' : ht_t).
  assert (Hht : table_of LittleEndian 0 [Insert "a" 1] = Done ht)
    by (unfold ht; vm_compute; reflexivity).
  assert (Hwf : well_formed LittleEndian ht = true)
    by (vm_compute; reflexivity).
  assert (Hops : forallb (leaves_alone "a") [Insert "b" 2; Delete "b"] = true)
    by (vm_compute; reflexivity).
  assert (Hrun : run LittleEndian [Insert "b" 2; Delete "b"] ht = Done ht')
    by (unfold ht'; vm_compute; reflexivity).
  destruct (other_operations_keep_search LittleEndian ht "a" _ ht'
              Hwf Hops Hrun) as (_ & _ & Hone).
  exists ht, ht'.
  split; [exact Hht|]. split; [exact Hwf|]. split; [exact Hops|].
  split; [exact Hrun|].
  apply Hone. vm_compute. lia.
Defined.
